(** * Fashion-store sales loader: a shallow embedding of the ingestion code

    The development follows [Ingestion/main.py] (the standalone script) and
    [dags/fashion_sales_dag.py] (the Airflow task), which share their helper
    functions almost line for line.

    - [Py]: the Python values the loader manipulates (cells of the data
      frame, exceptions, text helpers).
    - [Dec]: [decimal.Decimal] as the loader uses it: construction from a
      string, division, ordering, under the default context.
    - [Normalizer]: [to_decimal] and [percent_str_to_decimal].
    - [Db]: the tables and the SQL statements the loader issues.
    - [Loader]: the dimension resolvers, the upserts and the whole run.
    - [Calendar]: [parse_yyyymmdd], with [strptime] for its format.
    - [Sql]: the names of the tables in the statements. *)

From Stdlib Require Import ZArith QArith Qpower Ascii String List Bool Lia.
From stdpp Require Import base option list gmap strings pretty fin_maps sorting.

Local Open Scope string_scope.
Local Open Scope Z_scope.

(** ** Python values *)

Module Py.

(** Exceptions that can leave the loader. [AirflowFailExceptionFrom] is an
    [AirflowFailException] raised with a cause ([raise ... from e]). *)
Inductive exn : Type :=
  | ValueError (msg : string)
  | TypeError
  | RuntimeError (msg : string)
  | InvalidOperation
  | DivisionByZero
  | Overflow
  | DatabaseError (msg : string)
  | AirflowFailException (msg : string)
  | AirflowFailExceptionFrom (msg : string) (cause : exn).

Inductive result (A : Type) : Type :=
  | Ok (a : A)
  | Raise (e : exn).
Arguments Ok {A} a.
Arguments Raise {A} e.

#[export] Instance result_ret : MRet result := fun _ a => Ok a.
#[export] Instance result_bind : MBind result := fun _ _ f m =>
  match m with
  | Ok a => f a
  | Raise e => Raise e
  end.

(** [series.apply(f)], stopping at the first exception. *)
Fixpoint apply {A B} (f : A -> result B) (xs : list A) : result (list B) :=
  match xs with
  | [] => Ok []
  | x :: xs' =>
      match f x with
      | Raise e => Raise e
      | Ok y =>
          match apply f xs' with
          | Raise e => Raise e
          | Ok ys => Ok (y :: ys)
          end
      end
  end.

(** A loop [for x in xs:] whose body appends one tuple to a list, skips
    the line with [continue] ([None]), or raises. *)
Fixpoint for_each {A B} (f : A -> result (option B)) (xs : list A)
  : result (list B) :=
  match xs with
  | [] => Ok []
  | x :: xs' =>
      match f x with
      | Raise e => Raise e
      | Ok o =>
          match for_each f xs' with
          | Raise e => Raise e
          | Ok ys => Ok (match o with Some y => y :: ys | None => ys end)
          end
      end
  end.

(** A cell of an object column, as the loader sees it: Python's [None],
    the float NaN that pandas stores for an empty CSV field, or a text. A
    number stands here by its text where the loader takes only [str()] of
    it, as it does for the prices and the discounts. *)
Inductive pyval : Type :=
  | PyNone
  | PyNaN
  | PyStr (s : string).

#[export] Instance pyval_eq_dec : EqDecision pyval.
Proof. solve_decision. Defined.

(** [pd.isna(x)] *)
Definition isna (x : pyval) : bool :=
  match x with
  | PyNone | PyNaN => true
  | PyStr _ => false
  end.

(** [str(x)] *)
Definition str (x : pyval) : string :=
  match x with
  | PyNone => "None"
  | PyNaN => "nan"
  | PyStr s => s
  end.

(** Code point of a character (strings are sequences of code points below
    256). *)
Definition code (a : ascii) : Z := Z.of_N (N_of_ascii a).

(** [str.isspace] on one character. *)
Definition is_space (a : ascii) : bool :=
  let c := code a in
  ((9 <=? c) && (c <=? 13)) || ((28 <=? c) && (c <=? 32))
  || (c =? 133) || (c =? 160).

Definition is_digit (a : ascii) : bool :=
  let c := code a in (48 <=? c) && (c <=? 57).

Fixpoint lstrip_chars (l : list ascii) : list ascii :=
  match l with
  | [] => []
  | a :: l' => if is_space a then lstrip_chars l' else l
  end.

Definition rstrip_chars (l : list ascii) : list ascii :=
  rev (lstrip_chars (rev l)).

Definition strip_chars (l : list ascii) : list ascii :=
  rstrip_chars (lstrip_chars l).

(** [s.strip()] *)
Definition strip (s : string) : string :=
  string_of_list_ascii (strip_chars (list_ascii_of_string s)).

(** [s.endswith("%")] and [s[:-1]] *)
Definition endswith_chars (a : ascii) (l : list ascii) : bool :=
  match rev l with
  | b :: _ => if decide (a = b) then true else false
  | [] => false
  end.

Definition drop_last_chars (l : list ascii) : list ascii :=
  rev (tail (rev l)).

(** [s.replace(a, b)] for single characters, and [s.replace(a, "")]. *)
Definition replace_chars (a b : ascii) (l : list ascii) : list ascii :=
  map (fun c => if decide (c = a) then b else c) l.

Definition remove_chars (a : ascii) (l : list ascii) : list ascii :=
  filter (fun c => c ≠ a) l.

(** The same on strings. *)
Definition chars (s : string) : list ascii := list_ascii_of_string s.

Definition endswith (s : string) (a : ascii) : bool :=
  endswith_chars a (chars s).

Definition drop_last (s : string) : string :=
  string_of_list_ascii (drop_last_chars (chars s)).

Definition replace (a b : ascii) (s : string) : string :=
  string_of_list_ascii (replace_chars a b (chars s)).

(** ASCII lower-casing, for the case-insensitive parts of a literal. *)
Definition lower (a : ascii) : ascii :=
  let c := code a in
  if (65 <=? c) && (c <=? 90) then ascii_of_N (Z.to_N (c + 32)) else a.

End Py.
Export Py.

(** ** [decimal.Decimal] under the default context

    A number is a sign, a coefficient and an exponent, or one of the
    special values. The arithmetic is written after [_pydecimal], the
    Python version of the module, which computes what the C version that
    CPython loads computes. The constructor has, in addition, the limits
    of the C version: a literal is converted exactly or refused. The
    default context has precision 28, rounding [ROUND_HALF_EVEN],
    [Emin = -999999], [Emax = 999999], [clamp = 0], and traps
    [InvalidOperation], [DivisionByZero] and [Overflow]; the other signals
    only set flags and are not modelled. *)

Module Dec.

Inductive Decimal : Type :=
  | Finite (sign : bool) (coeff : Z) (exp : Z)
  | Infinity (sign : bool)
  | QNaN (sign : bool) (payload : Z)
  | SNaN (sign : bool) (payload : Z).

#[export] Instance Decimal_eq_dec : EqDecision Decimal.
Proof. solve_decision. Defined.

Definition prec : Z := 28.
Definition Emax : Z := 999999.
Definition Emin : Z := -999999.
Definition Etiny : Z := Emin - prec + 1.
Definition Etop : Z := Emax - prec + 1.

(** [Decimal("0")], [Decimal("1")], [Decimal("100")] *)
Definition zero : Decimal := Finite false 0 0.
Definition one : Decimal := Finite false 1 0.
Definition hundred : Decimal := Finite false 100 0.

(** *** Digits *)

Fixpoint ndigits_aux (fuel : nat) (c : Z) : Z :=
  match fuel with
  | O => 1
  | S f => if c <? 10 then 1 else 1 + ndigits_aux f (c / 10)
  end.

(** [len(self._int)]: the number of decimal digits of the coefficient. *)
Definition ndigits (c : Z) : Z := ndigits_aux (Z.to_nat (Z.log2 c)) c.

(** [self.adjusted()] *)
Definition adjusted (c e : Z) : Z := e + ndigits c - 1.

(** [MAX_PREC], [MAX_EMAX], [MIN_EMIN] and [MIN_ETINY] of the module on a
    64-bit machine: the context under which the constructor reads a
    literal. *)
Definition MAX_PREC : Z := 999999999999999999.
Definition MAX_EMAX : Z := 999999999999999999.
Definition MIN_EMIN : Z := -999999999999999999.
Definition MIN_ETINY : Z := MIN_EMIN - (MAX_PREC - 1).

(** A coefficient and an exponent that this context holds without
    rounding and without moving the exponent. The constructor refuses the
    others. *)
Definition representable (c e : Z) : bool :=
  (ndigits c <=? MAX_PREC) && (adjusted c e <=? MAX_EMAX) && (MIN_ETINY <=? e).

(** *** Reading a literal *)

Definition digit_val (a : ascii) : Z := code a - 48.

(** [int(ds)] for a string of digits ([0] for the empty string, which the
    callers replace by ["0"]). *)
Definition digits_to_Z (ds : list ascii) : Z :=
  fold_left (fun acc a => 10 * acc + digit_val a) ds 0.

(** The longest prefix of digits, and the rest. *)
Fixpoint span_digits (l : list ascii) : list ascii * list ascii :=
  match l with
  | a :: l' =>
      if is_digit a
      then let '(ds, r) := span_digits l' in (a :: ds, r)
      else ([], l)
  | [] => ([], [])
  end.

Definition all_digits (l : list ascii) : bool := forallb is_digit l.

(** The optional [[-+]] in front of a literal or of an exponent. *)
Definition split_sign (l : list ascii) : bool * list ascii :=
  match l with
  | a :: r =>
      if decide (a = "-"%char) then (true, r)
      else if decide (a = "+"%char) then (false, r)
      else (false, l)
  | [] => (false, l)
  end.

(** [E[-+]?\d+] up to the end of the string, or nothing at all. *)
Definition parse_exponent (l : list ascii) : option Z :=
  match l with
  | [] => Some 0
  | e :: r =>
      if decide (lower e = "e"%char) then
        let '(neg, ds) := split_sign r in
        match ds with
        | [] => None
        | _ => if all_digits ds
               then Some (if neg then - digits_to_Z ds else digits_to_Z ds)
               else None
        end
      else None
  end.

(** The finite alternative of the pattern: digits, an optional fractional
    part, an optional exponent, with at least one digit before the
    exponent. The result is the coefficient and the exponent. A fractional
    part of more than [MAX_PREC] digits is refused. *)
Definition parse_finite (l : list ascii) : option (Z * Z) :=
  let '(ip, r1) := span_digits l in
  let '(fp, r2) :=
    match r1 with
    | a :: r => if decide (a = "."%char) then span_digits r else ([], r1)
    | [] => ([], r1)
    end in
  match (ip ++ fp)%list with
  | [] => None
  | ds =>
      match parse_exponent r2 with
      | Some e =>
          if Z.of_nat (length fp) <=? MAX_PREC
          then Some (digits_to_Z ds, e - Z.of_nat (length fp))
          else None
      | None => None
      end
  end.

(** [l] without its prefix [p], when it starts with [p]. *)
Fixpoint strip_prefix (p l : list ascii) : option (list ascii) :=
  match p, l with
  | [], _ => Some l
  | a :: p', b :: l' => if decide (a = b) then strip_prefix p' l' else None
  | _ :: _, [] => None
  end.

(** The diagnostic digits after [NaN]: at most [MAX_PREC] of them, leading
    zeros apart. *)
Definition parse_payload (ds : list ascii) : option Z :=
  if all_digits ds && (ndigits (digits_to_Z ds) <=? MAX_PREC)
  then Some (digits_to_Z ds) else None.

(** The special alternatives: [Inf(inity)?], and [s?NaN\d*]. *)
Definition parse_special (sign : bool) (l : list ascii) : option Decimal :=
  let low := map lower l in
  if decide (low = chars "inf") then Some (Infinity sign)
  else if decide (low = chars "infinity") then Some (Infinity sign)
  else
    match strip_prefix (chars "nan") low with
    | Some ds => QNaN sign <$> parse_payload ds
    | None =>
        match strip_prefix (chars "snan") low with
        | Some ds => SNaN sign <$> parse_payload ds
        | None => None
        end
    end.

(** [Decimal(s)] for a string [s]: [None] stands for the
    [InvalidOperation] the constructor raises on a string that is not a
    literal, or that is the literal of a number it cannot hold exactly.
    Surrounding whitespace is ignored and underscores are dropped before
    matching. *)
Definition of_string (s : string) : option Decimal :=
  let l := remove_chars "_"%char (strip_chars (chars s)) in
  let '(sign, body) := split_sign l in
  match parse_finite body with
  | Some (c, e) => if representable c e then Some (Finite sign c e) else None
  | None => parse_special sign body
  end.

(** *** Rounding *)

(** [_fix_nan]: a payload longer than the precision loses its leading
    digits. *)
Definition fix_nan_payload (p : Z) : Z :=
  if ndigits p >? prec then p mod 10 ^ prec else p.

(** [_round_half_even(self, digits)], on the dropped part [r] of [k]
    digits and the kept part [q]: [1] to round up, [0] when nothing is
    lost, [-1] to truncate. *)
Definition round_half_even (q r k : Z) : Z :=
  let half := 5 * 10 ^ (k - 1) in
  if (r =? half) && Z.even q then -1
  else if half <=? r then 1
  else if r =? 0 then 0
  else -1.

(** [_fix] on a finite number. *)
Definition fix_finite (sign : bool) (c e : Z) : result Decimal :=
  if c =? 0 then
    Ok (Finite sign 0 (Z.min (Z.max e Etiny) Emax))
  else
    let exp_min := ndigits c + e - prec in
    if exp_min >? Etop then Raise Overflow
    else
      let exp_min := if exp_min <? Etiny then Etiny else exp_min in
      if e <? exp_min then
        let digits := ndigits c + e - exp_min in
        let '(c, e) := if digits <? 0 then (1, exp_min - 1) else (c, e) in
        let k := exp_min - e in
        let q := c / 10 ^ k in
        let r := c mod 10 ^ k in
        let changed := round_half_even q r k in
        let '(coeff, exp_min) :=
          if changed >? 0 then
            if ndigits (q + 1) >? prec
            then ((q + 1) / 10, exp_min + 1)
            else (q + 1, exp_min)
          else (q, exp_min) in
        if exp_min >? Etop then Raise Overflow
        else Ok (Finite sign coeff exp_min)
      else Ok (Finite sign c e).

(** [_fix] *)
Definition _fix (d : Decimal) : result Decimal :=
  match d with
  | Finite s c e => fix_finite s c e
  | Infinity s => Ok (Infinity s)
  | QNaN s p => Ok (QNaN s (fix_nan_payload p))
  | SNaN s p => Ok (SNaN s (fix_nan_payload p))
  end.

(** *** Division *)

(** The loop that brings an exact quotient as close to the ideal exponent
    as its trailing zeros allow. *)
Fixpoint strip_zeros (fuel : nat) (coeff exp ideal_exp : Z) : Z * Z :=
  match fuel with
  | O => (coeff, exp)
  | S f =>
      if (exp <? ideal_exp) && (coeff mod 10 =? 0)
      then strip_zeros f (coeff / 10) (exp + 1) ideal_exp
      else (coeff, exp)
  end.

(** [_check_nans]: a signaling NaN is an error, a quiet one is the
    result. *)
Definition check_nans (a b : Decimal) : option (result Decimal) :=
  match a, b with
  | SNaN _ _, _ => Some (Raise InvalidOperation)
  | QNaN _ _, SNaN _ _ => Some (Raise InvalidOperation)
  | Finite _ _ _, SNaN _ _ => Some (Raise InvalidOperation)
  | Infinity _, SNaN _ _ => Some (Raise InvalidOperation)
  | QNaN s p, _ => Some (Ok (QNaN s (fix_nan_payload p)))
  | _, QNaN s p => Some (Ok (QNaN s (fix_nan_payload p)))
  | _, _ => None
  end.

(** [__truediv__] *)
Definition truediv (a b : Decimal) : result Decimal :=
  match check_nans a b with
  | Some r => r
  | None =>
      match a, b with
      | Infinity _, Infinity _ => Raise InvalidOperation
      | Infinity sa, Finite sb _ _ => Ok (Infinity (xorb sa sb))
      | Finite sa _ _, Infinity sb => Ok (Finite (xorb sa sb) 0 Etiny)
      | Finite sa ca ea, Finite sb cb eb =>
          let sign := xorb sa sb in
          if cb =? 0 then
            if ca =? 0 then Raise InvalidOperation else Raise DivisionByZero
          else if ca =? 0 then fix_finite sign 0 (ea - eb)
          else
            let shift := ndigits cb - ndigits ca + prec + 1 in
            let exp := ea - eb - shift in
            let '(coeff, remainder) :=
              if 0 <=? shift
              then ((ca * 10 ^ shift) / cb, (ca * 10 ^ shift) mod cb)
              else (ca / (cb * 10 ^ (- shift)), ca mod (cb * 10 ^ (- shift))) in
            let '(coeff, exp) :=
              if remainder =? 0
              then strip_zeros (Z.to_nat (ea - eb - exp)) coeff exp (ea - eb)
              else (if coeff mod 5 =? 0 then coeff + 1 else coeff, exp) in
            fix_finite sign coeff exp
      | _, _ => Raise InvalidOperation
      end
  end.

(** *** Ordering *)

(** [_cmp] on two numbers that are not NaN. *)
Definition cmp (a b : Decimal) : comparison :=
  let by_sign (s : bool) := if s then Lt else Gt in
  match a, b with
  | Finite sa ca ea, Finite sb cb eb =>
      if ca =? 0 then
        if cb =? 0 then Eq else CompOpp (by_sign sb)
      else if cb =? 0 then by_sign sa
      else if negb sb && sa then Lt
      else if negb sa && sb then Gt
      else
        let aa := adjusted ca ea in
        let ab := adjusted cb eb in
        if aa =? ab then
          match ca * 10 ^ Z.max 0 (ea - eb) ?= cb * 10 ^ Z.max 0 (eb - ea) with
          | Eq => Eq
          | Lt => CompOpp (by_sign sa)
          | Gt => by_sign sa
          end
        else if aa >? ab then by_sign sa
        else CompOpp (by_sign sa)
  | Infinity sa, Infinity sb =>
      if eqb sa sb then Eq else by_sign sa
  | Infinity sa, _ => by_sign sa
  | _, Infinity sb => CompOpp (by_sign sb)
  | _, _ => Eq
  end.

Definition is_nan (d : Decimal) : bool :=
  match d with
  | QNaN _ _ | SNaN _ _ => true
  | _ => false
  end.

(** [a < b] and [a > b]: comparing with a NaN raises. *)
Definition lt (a b : Decimal) : result bool :=
  if is_nan a || is_nan b then Raise InvalidOperation
  else Ok (if decide (cmp a b = Lt) then true else false).

Definition gt (a b : Decimal) : result bool :=
  if is_nan a || is_nan b then Raise InvalidOperation
  else Ok (if decide (cmp a b = Gt) then true else false).

(** *** The numbers Decimals denote

    These definitions are not taken from the code: they say what number a
    finite Decimal stands for, so that results can be compared with exact
    arithmetic. [sign * coeff * 10^exp] is compared with another such number
    after both are brought to the smaller of the two exponents. *)

Definition signed (s : bool) (c : Z) : Z := if s then - c else c.

Definition num_compare (a b : Decimal) : comparison :=
  match a, b with
  | Finite sa ca ea, Finite sb cb eb =>
      let m := Z.min ea eb in
      signed sa ca * 10 ^ (ea - m) ?= signed sb cb * 10 ^ (eb - m)
  | _, _ => Eq
  end.

Definition is_finite (d : Decimal) : bool :=
  match d with
  | Finite _ _ _ => true
  | _ => false
  end.

(** Two finite Decimals that denote the same number. *)
Definition num_eq (a b : Decimal) : Prop :=
  is_finite a = true /\ is_finite b = true /\ num_compare a b = Eq.

(** [x / 100] for a finite [x], exactly. *)
Definition exact_div100 (x : Decimal) : Decimal :=
  match x with
  | Finite s c e => Finite s c (e - 2)
  | _ => x
  end.

(** [clamp(x, 0, 1)] for a finite [x], exactly. *)
Definition exact_clamp01 (x : Decimal) : Decimal :=
  match num_compare x zero with
  | Lt => zero
  | _ => match num_compare x one with
         | Gt => one
         | _ => x
         end
  end.

(** The rational number a Decimal denotes ([0] for the special values,
    which have none), and [clamp(q, 0, 1)] on the rationals. *)
Definition value (d : Decimal) : Q :=
  match d with
  | Finite s c e => Qmult (inject_Z (signed s c)) (Qpower (inject_Z 10) e)
  | _ => inject_Z 0
  end.

Definition Qclamp01 (q : Q) : Q :=
  if Qlt_le_dec q (inject_Z 0) then inject_Z 0
  else if Qlt_le_dec (inject_Z 1) q then inject_Z 1
  else q.

(** *** Numeric strings

    These definitions are not taken from the code either: they are the
    syntax that the documentation of the module gives for the argument of
    the constructor,

      sign ::= '+' | '-',  digits ::= digit [digit]...,
      decimal-part ::= digits '.' [digits] | ['.'] digits,
      exponent-part ::= ('e' | 'E') [sign] digits,
      numeric-value ::= decimal-part [exponent-part] | 'Infinity' | 'Inf',
      numeric-string ::= [sign] numeric-value | [sign] ('NaN' | 'sNaN') [digits],

    with letters in either case, and the number each string stands for.
    The reader above is compared with them. *)

(** The number a string of digits stands for, digit by digit. *)
Fixpoint positional (ds : list ascii) : Z :=
  match ds with
  | [] => 0
  | a :: r => digit_val a * 10 ^ Z.of_nat (length r) + positional r
  end.

Inductive sign_text : list ascii -> bool -> Prop :=
  | sign_none : sign_text [] false
  | sign_plus : sign_text ["+"%char] false
  | sign_minus : sign_text ["-"%char] true.

(** A decimal part, with the digits before and after its point. *)
Inductive decimal_part : list ascii -> list ascii -> list ascii -> Prop :=
  | decimal_point ip fp :
      all_digits ip = true -> all_digits fp = true -> ip <> [] ->
      decimal_part (ip ++ "."%char :: fp) ip fp
  | decimal_fraction fp :
      all_digits fp = true -> fp <> [] ->
      decimal_part ("."%char :: fp) [] fp
  | decimal_digits ip :
      all_digits ip = true -> ip <> [] ->
      decimal_part ip ip [].

(** An exponent part, or none, with the power of ten it stands for. *)
Inductive exponent_part : list ascii -> Z -> Prop :=
  | exponent_none : exponent_part [] 0
  | exponent_some ind sg neg ds :
      ind = "e"%char \/ ind = "E"%char ->
      sign_text sg neg -> all_digits ds = true -> ds <> [] ->
      exponent_part (ind :: sg ++ ds)
        (if neg then - positional ds else positional ds).

(** The rational number [ip.fp] times ten to the power [E], with its
    sign. *)
Definition denotation (neg : bool) (ip fp : list ascii) (E : Z) : Q :=
  let q :=
    Qmult
      (Qplus (inject_Z (positional ip))
         (Qdiv (inject_Z (positional fp))
            (Qpower (inject_Z 10) (Z.of_nat (length fp)))))
      (Qpower (inject_Z 10) E) in
  if neg then Qopp q else q.

(** A numeric string and the Decimal it is read as. A finite number has
    to be within the limits of the module. *)
Inductive numeric_string : list ascii -> Decimal -> Prop :=
  | numeric_finite sg neg dp ip fp ex E :
      sign_text sg neg -> decimal_part dp ip fp -> exponent_part ex E ->
      Z.of_nat (length fp) <= MAX_PREC ->
      representable (positional (ip ++ fp)) (E - Z.of_nat (length fp)) = true ->
      numeric_string (sg ++ dp ++ ex)
        (Finite neg (positional (ip ++ fp)) (E - Z.of_nat (length fp)))
  | numeric_infinity sg neg w :
      sign_text sg neg ->
      map lower w = chars "inf" \/ map lower w = chars "infinity" ->
      numeric_string (sg ++ w) (Infinity neg)
  | numeric_nan sg neg w ds :
      sign_text sg neg -> map lower w = chars "nan" ->
      all_digits ds = true -> ndigits (positional ds) <= MAX_PREC ->
      numeric_string (sg ++ w ++ ds) (QNaN neg (positional ds))
  | numeric_snan sg neg w ds :
      sign_text sg neg -> map lower w = chars "snan" ->
      all_digits ds = true -> ndigits (positional ds) <= MAX_PREC ->
      numeric_string (sg ++ w ++ ds) (SNaN neg (positional ds)).

(** The characters of a numeric string are neither whitespace nor an
    underscore; those of the names of the special values are, besides,
    neither a digit, nor a point, nor a sign. *)
Definition plain (a : ascii) : Prop := is_space a = false /\ a <> "_"%char.

Definition letter (a : ascii) : Prop :=
  is_space a = false /\ a <> "_"%char /\ is_digit a = false /\ a <> "."%char
  /\ a <> "-"%char /\ a <> "+"%char.

End Dec.
Export Dec.

(** ** Field normalizer *)

Module Normalizer.

(** [to_decimal] of [Ingestion/main.py]. The message of the [ValueError]
    is the f-string of the source. *)
Definition to_decimal (x : pyval) : result Decimal :=
  if isna x then Ok zero
  else
    match of_string (str x) with
    | Some d => Ok d
    | None => Raise (ValueError ("Invalid decimal value: " ++ str x))
    end.

(** The text that [percent_str_to_decimal] is left with after [strip()]
    and after dropping one trailing percent sign. *)
Definition percent_body (x : pyval) : string :=
  let s := strip (str x) in
  if endswith s "%" then drop_last s else s.

(** The two comparisons that pull the quotient into [[0, 1]], as
    [Ingestion/main.py] writes them: two assignments in a row. *)
Definition clamp01 (d : Decimal) : result Decimal :=
  b ← lt d zero;
  let d := if b : bool then zero else d in
  b' ← gt d one;
  mret (if b' : bool then one else d).

(** [percent_str_to_decimal] of [Ingestion/main.py]. *)
Definition percent_str_to_decimal (x : pyval) : result Decimal :=
  if isna x then Ok zero
  else
    let s := percent_body x in
    if decide (s = "") then Ok zero
    else
      let s := replace "," "." s in
      match of_string s with
      | None => Raise InvalidOperation
      | Some p => d ← truediv p hundred; clamp01 d
      end.

(** The same function in [dags/fashion_sales_dag.py], which returns from
    inside each comparison. *)
Definition percent_str_to_decimal_dag (x : pyval) : result Decimal :=
  if isna x then Ok zero
  else
    let s := percent_body x in
    if decide (s = "") then Ok zero
    else
      let s := replace "," "." s in
      match of_string s with
      | None => Raise InvalidOperation
      | Some p =>
          d ← truediv p hundred;
          b ← lt d zero;
          if b : bool then Ok zero
          else b' ← gt d one; if b' : bool then Ok one else Ok d
      end.

End Normalizer.
Export Normalizer.

(** ** What the loader takes from pandas and from binary floating point

    Dates and floats are only carried around by the loader: it parses a
    sign-up date with [pd.to_datetime(..., errors="coerce")], compares the
    date of a sale with the run date, and turns a Decimal into a float
    before storing it. These are kept abstract. A date cell is [None]
    where pandas has [NaT]. *)

Class External : Type := {
  date : Type;
  date_eq_dec :: EqDecision date;
  float : Type;
  (** [pd.to_datetime(s, errors="coerce").date()] on one text: [None] is
      [NaT]. *)
  to_datetime : string -> option date;
  (** The float nearest to a Decimal that is not a signaling NaN. *)
  float_of_Decimal : Decimal -> float;
}.

(** ** The database *)

Module Db.

(** The six dimension tables with one natural-key column. *)
Inductive simple_dim : Type :=
  | dim_channel | dim_category | dim_brand | dim_color | dim_size
  | dim_country.

Section Rows.
Context `{External}.

(** Rows of the keyed tables, without their key, in the column order of
    the INSERT statements, as the loader passes them: the sign-up date of
    a customer is Python's [None], [NaT] or a date, the date of a sale is
    [NaT] or a date. *)
Definition customer_row : Type :=
  option string * option string * option string * option string
  * option string * option (option date) * option Z.
Definition product_row : Type :=
  option string * option Z * option Z * option Z * option Z * float * float.
Definition sale_row : Type := option date * float * Z * Z.
Definition item_row : Type := Z * Z * Z * float.

(** The rows whose date the database can read: [NaT] is sent as the text
    of a timestamp and is none. *)
Definition customer_readable (row : customer_row) : bool :=
  match row.1.2 with
  | Some None => false
  | _ => true
  end.

Definition sale_readable (row : sale_row) : bool :=
  match row.1.1.1 with
  | None => false
  | Some _ => true
  end.

(** The contents of the tables. A table with a unique natural key is the
    map from that key to the generated id; a table with an externally
    supplied primary key is the map from the key to the rest of the row. *)
Record Tables : Type := {
  t_channel : gmap string Z;
  t_category : gmap string Z;
  t_brand : gmap string Z;
  t_color : gmap string Z;
  t_size : gmap string Z;
  t_country : gmap string Z;
  t_campaign : gmap (Z * string) Z;
  t_customer : gmap Z customer_row;
  t_product : gmap Z product_row;
  t_sale : gmap Z sale_row;
  t_sale_item : gmap Z item_row;
}.

Definition get_dim (d : simple_dim) (T : Tables) : gmap string Z :=
  match d with
  | dim_channel => t_channel T
  | dim_category => t_category T
  | dim_brand => t_brand T
  | dim_color => t_color T
  | dim_size => t_size T
  | dim_country => t_country T
  end.

Definition set_dim (d : simple_dim) (t : gmap string Z) (T : Tables) : Tables :=
  match d with
  | dim_channel => {| t_channel := t; t_category := t_category T; t_brand := t_brand T; t_color := t_color T; t_size := t_size T; t_country := t_country T; t_campaign := t_campaign T; t_customer := t_customer T; t_product := t_product T; t_sale := t_sale T; t_sale_item := t_sale_item T |}
  | dim_category => {| t_channel := t_channel T; t_category := t; t_brand := t_brand T; t_color := t_color T; t_size := t_size T; t_country := t_country T; t_campaign := t_campaign T; t_customer := t_customer T; t_product := t_product T; t_sale := t_sale T; t_sale_item := t_sale_item T |}
  | dim_brand => {| t_channel := t_channel T; t_category := t_category T; t_brand := t; t_color := t_color T; t_size := t_size T; t_country := t_country T; t_campaign := t_campaign T; t_customer := t_customer T; t_product := t_product T; t_sale := t_sale T; t_sale_item := t_sale_item T |}
  | dim_color => {| t_channel := t_channel T; t_category := t_category T; t_brand := t_brand T; t_color := t; t_size := t_size T; t_country := t_country T; t_campaign := t_campaign T; t_customer := t_customer T; t_product := t_product T; t_sale := t_sale T; t_sale_item := t_sale_item T |}
  | dim_size => {| t_channel := t_channel T; t_category := t_category T; t_brand := t_brand T; t_color := t_color T; t_size := t; t_country := t_country T; t_campaign := t_campaign T; t_customer := t_customer T; t_product := t_product T; t_sale := t_sale T; t_sale_item := t_sale_item T |}
  | dim_country => {| t_channel := t_channel T; t_category := t_category T; t_brand := t_brand T; t_color := t_color T; t_size := t_size T; t_country := t; t_campaign := t_campaign T; t_customer := t_customer T; t_product := t_product T; t_sale := t_sale T; t_sale_item := t_sale_item T |}
  end.

Definition set_campaign (t : gmap (Z * string) Z) (T : Tables) : Tables :=
  {| t_channel := t_channel T; t_category := t_category T; t_brand := t_brand T; t_color := t_color T; t_size := t_size T; t_country := t_country T; t_campaign := t; t_customer := t_customer T; t_product := t_product T; t_sale := t_sale T; t_sale_item := t_sale_item T |}.
Definition set_customer (t : gmap Z customer_row) (T : Tables) : Tables :=
  {| t_channel := t_channel T; t_category := t_category T; t_brand := t_brand T; t_color := t_color T; t_size := t_size T; t_country := t_country T; t_campaign := t_campaign T; t_customer := t; t_product := t_product T; t_sale := t_sale T; t_sale_item := t_sale_item T |}.
Definition set_product (t : gmap Z product_row) (T : Tables) : Tables :=
  {| t_channel := t_channel T; t_category := t_category T; t_brand := t_brand T; t_color := t_color T; t_size := t_size T; t_country := t_country T; t_campaign := t_campaign T; t_customer := t_customer T; t_product := t; t_sale := t_sale T; t_sale_item := t_sale_item T |}.
Definition set_sale (t : gmap Z sale_row) (T : Tables) : Tables :=
  {| t_channel := t_channel T; t_category := t_category T; t_brand := t_brand T; t_color := t_color T; t_size := t_size T; t_country := t_country T; t_campaign := t_campaign T; t_customer := t_customer T; t_product := t_product T; t_sale := t; t_sale_item := t_sale_item T |}.
Definition set_sale_item (t : gmap Z item_row) (T : Tables) : Tables :=
  {| t_channel := t_channel T; t_category := t_category T; t_brand := t_brand T; t_color := t_color T; t_size := t_size T; t_country := t_country T; t_campaign := t_campaign T; t_customer := t_customer T; t_product := t_product T; t_sale := t_sale T; t_sale_item := t |}.

End Rows.

(** *** Statements on a table with a generated id *)

Section Generated.
Context {K : Type} `{Countable K}.

(** The id the database gives to a new row. The tables are created
    outside the two files; the id column is taken to be filled from a
    counter that is ahead of the ids in the table, here the next integer
    after the highest of them. *)
Definition next_id (t : gmap K Z) : Z :=
  map_fold (fun _ id acc => Z.max acc (id + 1)) 1 t.

(** The primary key on the id column: no two rows share an id. *)
Definition ids_unique (t : gmap K Z) : Prop :=
  forall k1 k2 id, t !! k1 = Some id -> t !! k2 = Some id -> k1 = k2.

(** [INSERT ... VALUES (k) ON CONFLICT (natural key) DO NOTHING], one row. *)
Definition insert_do_nothing (t : gmap K Z) (k : K) : gmap K Z :=
  match t !! k with
  | Some _ => t
  | None => <[k := next_id t]> t
  end.

(** The same for the rows of one [execute_values] call, in order. *)
Definition insert_values_do_nothing (ks : list K) (t : gmap K Z) : gmap K Z :=
  foldl insert_do_nothing t ks.

(** [SELECT id, key FROM t WHERE key = ANY(ks)] (or [IN ks]). With a
    unique key the rows are a map from the key to the id. *)
Definition select_where_in (ks : list K) (t : gmap K Z) : gmap K Z :=
  filter (fun kv => kv.1 ∈ ks) t.

End Generated.

(** *** Statements on a table with a supplied primary key *)

Section Keyed.
Context {V : Type}.

(** [execute_values(..., page_size=1000)] sends the rows in statements of
    at most 1000 rows. *)
Definition page_size : nat := 1000.

Fixpoint pages_aux {A} (fuel : nat) (l : list A) : list (list A) :=
  match fuel with
  | O => []
  | S f =>
      match l with
      | [] => []
      | _ => take page_size l :: pages_aux f (drop page_size l)
      end
  end.

Definition pages {A} (l : list A) : list (list A) := pages_aux (length l) l.

(** [INSERT ... ON CONFLICT (key) DO UPDATE SET] every other column: the
    row replaces the one with the same key. *)
Definition overwrite (t : gmap Z V) (r : Z * V) : gmap Z V := <[r.1 := r.2]> t.

(** One statement. PostgreSQL refuses a statement that proposes two rows
    with the same key ("ON CONFLICT DO UPDATE command cannot affect row a
    second time"). *)
Definition upsert_statement (t : gmap Z V) (rows : list (Z * V)) : result (gmap Z V) :=
  if decide (NoDup rows.*1) then Ok (foldl overwrite t rows)
  else Raise (DatabaseError "ON CONFLICT DO UPDATE command cannot affect row a second time").

Fixpoint upsert_pages (t : gmap Z V) (ps : list (list (Z * V))) : result (gmap Z V) :=
  match ps with
  | [] => Ok t
  | p :: ps' =>
      match upsert_statement t p with
      | Ok t' => upsert_pages t' ps'
      | Raise e => Raise e
      end
  end.

(** [if not rows: return] followed by [execute_values(cur, sql, rows,
    page_size=1000)] with an overwriting upsert. *)
Definition upsert_overwrite (rows : list (Z * V)) (t : gmap Z V) : result (gmap Z V) :=
  upsert_pages t (pages rows).

(** The same for a table with a date column. A statement with a parameter
    that is no date is refused when the database reads it, before any of
    its rows is written. *)
Definition upsert_statement_dated (readable : V -> bool) (t : gmap Z V)
    (rows : list (Z * V)) : result (gmap Z V) :=
  if forallb (fun r => readable r.2) rows then upsert_statement t rows
  else Raise (DatabaseError "invalid input syntax for type timestamp: NaT").

Fixpoint upsert_pages_dated (readable : V -> bool) (t : gmap Z V)
    (ps : list (list (Z * V))) : result (gmap Z V) :=
  match ps with
  | [] => Ok t
  | p :: ps' =>
      match upsert_statement_dated readable t p with
      | Ok t' => upsert_pages_dated readable t' ps'
      | Raise e => Raise e
      end
  end.

Definition upsert_overwrite_dated (readable : V -> bool) (rows : list (Z * V))
    (t : gmap Z V) : result (gmap Z V) :=
  upsert_pages_dated readable t (pages rows).

End Keyed.

End Db.
Export Db.

(** ** The loader *)

(** One line of the data frame, with the columns the loader reads, after
    [pd.to_datetime(df["sale_date"], errors="coerce").dt.date] has turned
    the column of the sale dates into dates. A sale date is a date or
    [NaT]. A text or price cell is [None] where pandas stores NaN for an
    empty field and the text of the value otherwise; the columns of names
    are columns of text. An identifier or a quantity is a number or NaN. *)
Module Col.
Record row `{External} : Type := {
  sale_date : option date;
  channel : option string;
  category : option string;
  brand : option string;
  color : option string;
  size : option string;
  country : option string;
  channel_campaigns : option string;
  customer_id : option Z;
  first_name : option string;
  last_name : option string;
  email : option string;
  gender : option string;
  age_range : option string;
  signup_date : option string;
  product_id : option Z;
  product_name : option string;
  cost_price : option string;
  original_price : option string;
  sale_id : option Z;
  total_amount : float;
  item_id : option Z;
  quantity : option Z;
  discount_percent : option string;
}.
End Col.

Module Loader.

(** The standalone script or the Airflow task. *)
Inductive variant : Type := Script | Dag.

(** The Python value of a cell: [series.tolist()] on an object column. *)
Definition cell (c : option string) : pyval :=
  match c with
  | None => PyNaN
  | Some s => PyStr s
  end.

(** [series.astype(str)] on one cell. *)
Definition astype_str (c : option string) : string := str (cell c).

(** Code-point order on strings, and the order [sorted] uses on the
    (channel id, campaign name) tuples. *)
Definition str_le (a b : string) : Prop := String.leb a b.
Definition pair_le (a b : Z * string) : Prop :=
  a.1 < b.1 ∨ (a.1 = b.1 ∧ str_le a.2 b.2).
#[export] Instance str_le_dec : RelDecision str_le.
Proof. intros a b. unfold str_le. apply _. Defined.
#[export] Instance pair_le_dec : RelDecision pair_le.
Proof. intros a b. unfold pair_le. apply _. Defined.

(** The order [sorted] uses on the values of a dimension that are all
    text. *)
Definition pyval_le (a b : pyval) : Prop := str_le (str a) (str b).
#[export] Instance pyval_le_dec : RelDecision pyval_le.
Proof. intros a b. unfold pyval_le. apply _. Defined.

(** The filter of both resolvers:
    [v is not None and str(v).strip() != ""]. *)
Definition keep_value (v : pyval) : bool :=
  bool_decide (v ≠ PyNone) && bool_decide (strip (str v) ≠ "").

(** [sorted(s)] on a set of cell values: ordering a float against a string
    is a [TypeError]; a one-element list needs no comparison. *)
Definition sorted_values (l : list pyval) : result (list pyval) :=
  if bool_decide (PyNaN ∈ l) then
    match l with
    | [_] => Ok l
    | _ => Raise TypeError
    end
  else Ok (merge_sort pyval_le l).

(** The transaction: statements read and change the tables, or fail. *)
Definition Tx `{External} (A : Type) : Type := Tables -> result (A * Tables).

#[export] Instance Tx_ret `{External} : MRet Tx := fun _ a T => Ok (a, T).
#[export] Instance Tx_bind `{External} : MBind Tx := fun _ _ f m T =>
  match m T with
  | Ok (a, T') => f a T'
  | Raise e => Raise e
  end.

Definition lift `{External} {A} (r : result A) : Tx A := fun T =>
  match r with
  | Ok a => Ok (a, T)
  | Raise e => Raise e
  end.

(** A function of the loader sends its statements to one table, named by
    its arguments or fixed in its SQL text: it is written as a function
    of the contents of that table, and run on the table inside the
    transaction. *)
Definition on_table `{External} {A S : Type} (get : Tables -> S)
    (set : S -> Tables -> Tables) (f : S -> result (A * S)) : Tx A := fun T =>
  match f (get T) with
  | Ok (a, t) => Ok (a, set t T)
  | Raise e => Raise e
  end.

Section Load.
Context `{External}.

(** The two statements of a simple-dimension resolver, on the sorted
    parameters. A float parameter cannot be compared with the text column
    in the SELECT. *)
Definition resolve_values (values : list pyval) (t : gmap string Z)
  : result (gmap string Z * gmap string Z) :=
  if bool_decide (PyNaN ∈ values) then
    Raise (DatabaseError "operator does not exist: text = double precision")
  else
    let keys := str <$> values in
    let t := insert_values_do_nothing keys t in
    Ok (select_where_in keys t, t).

(** [upsert_simple_dim] of [Ingestion/main.py]. *)
Definition upsert_simple_dim (values : list pyval) (t : gmap string Z)
  : result (gmap string Z * gmap string Z) :=
  values ← sorted_values (remove_dups (filter keep_value values));
  match values with
  | [] => Ok (∅, t)
  | _ => resolve_values values t
  end.

(** [upsert_simple_dim] of [dags/fashion_sales_dag.py]: the set holds
    [str(v).strip()]. *)
Definition upsert_simple_dim_dag (values : list pyval) (t : gmap string Z)
  : result (gmap string Z * gmap string Z) :=
  let values :=
    merge_sort str_le
      (remove_dups ((fun v => strip (str v)) <$> filter keep_value values)) in
  match values with
  | [] => Ok (∅, t)
  | _ => resolve_values (PyStr <$> values) t
  end.

(** The text parameters of the two statements when no value is a float:
    those of the script, and those of the task. *)
Definition script_keys (values : list pyval) : list string :=
  str <$> merge_sort pyval_le (remove_dups (filter keep_value values)).
Definition dag_keys (values : list pyval) : list string :=
  merge_sort str_le
    (remove_dups ((fun v => strip (str v)) <$> filter keep_value values)).

Definition resolve_simple (v : variant) (table : simple_dim)
    (values : list pyval) : Tx (gmap string Z) :=
  on_table (get_dim table) (set_dim table)
    (match v with
     | Script => upsert_simple_dim values
     | Dag => upsert_simple_dim_dag values
     end).

(** The first loop of [upsert_dim_campaign]. *)
Definition clean_pairs (channel_map : gmap string Z)
    (pairs : list (string * string)) : list (Z * string) :=
  omap (fun p : string * string =>
          if bool_decide (p.1 = "") || bool_decide (p.2 = "") then None
          else
            match channel_map !! p.1 with
            | None => None
            | Some channel_id => Some (channel_id, p.2)
            end) pairs.

(** [{v: k for k, v in channel_map.items()}] *)
Definition invert (m : gmap string Z) : gmap Z string :=
  foldl (fun acc kv => <[kv.2 := kv.1]> acc) ∅ (map_to_list m).

(** The last loop of [upsert_dim_campaign], over the rows of the SELECT. *)
Definition campaign_keys (channel_id_to_name : gmap Z string)
    (rows : gmap (Z * string) Z) : gmap (string * string) Z :=
  foldl (fun out r =>
           match channel_id_to_name !! r.1.1 with
           | Some channel_name =>
               if bool_decide (channel_name = "") then out
               else <[(channel_name, r.1.2) := r.2]> out
           | None => out
           end) ∅ (map_to_list rows).

(** [upsert_dim_campaign], the same in both files. *)
Definition upsert_dim_campaign (channel_map : gmap string Z)
    (pairs : list (string * string)) (t : gmap (Z * string) Z)
  : result (gmap (string * string) Z * gmap (Z * string) Z) :=
  let cleaned := merge_sort pair_le (remove_dups (clean_pairs channel_map pairs)) in
  match cleaned with
  | [] => Ok (∅, t)
  | _ =>
      let t := insert_values_do_nothing cleaned t in
      let rows := select_where_in cleaned t in
      Ok (campaign_keys (invert channel_map) rows, t)
  end.

(** [upsert_dim_customer], [upsert_dim_product], [upsert_fact_sale] and
    [upsert_fact_sale_item] differ in their table and columns only; the
    rows of the first and of the third carry a date. *)
Definition upsert_keyed {V} (rows : list (Z * V)) (t : gmap Z V)
  : result (unit * gmap Z V) :=
  t ← upsert_overwrite rows t; mret (tt, t).

Definition upsert_keyed_dated {V} (readable : V -> bool) (rows : list (Z * V))
    (t : gmap Z V) : result (unit * gmap Z V) :=
  t ← upsert_overwrite_dated readable rows t; mret (tt, t).

Definition upsert_dim_customer (rows : list (Z * customer_row)) : Tx unit :=
  on_table t_customer set_customer (upsert_keyed_dated customer_readable rows).
Definition upsert_dim_product (rows : list (Z * product_row)) : Tx unit :=
  on_table t_product set_product (upsert_keyed rows).
Definition upsert_fact_sale (rows : list (Z * sale_row)) : Tx unit :=
  on_table t_sale set_sale (upsert_keyed_dated sale_readable rows).
Definition upsert_fact_sale_item (rows : list (Z * item_row)) : Tx unit :=
  on_table t_sale_item set_sale_item (upsert_keyed rows).

(** [frame.drop_duplicates(subset=...)]: the first line of each group of
    lines with the same key is kept. *)
Fixpoint drop_duplicates_from {A K} `{EqDecision K} (key : A -> K)
    (seen : list K) (l : list A) : list A :=
  match l with
  | [] => []
  | x :: l' =>
      if decide (key x ∈ seen) then drop_duplicates_from key seen l'
      else x :: drop_duplicates_from key (key x :: seen) l'
  end.

Definition drop_duplicates {A K} `{EqDecision K} (key : A -> K) (l : list A)
  : list A := drop_duplicates_from key [] l.

(** [m.get(str(x)) if not pd.isna(x) else None] *)
Definition lookup_cell (m : gmap string Z) (c : option string) : option Z :=
  match c with
  | None => None
  | Some s => m !! s
  end.

(** *** Customers *)

Definition customer_columns (r : Col.row) :=
  (Col.customer_id r, Col.first_name r, Col.last_name r, Col.email r,
   Col.gender r, Col.age_range r, Col.signup_date r, Col.country r).

Definition customer_tuple (country_map : gmap string Z) (r : Col.row)
  : option (Z * customer_row) :=
  match Col.customer_id r with
  | None => None
  | Some customer_id =>
      Some (customer_id,
            (Col.first_name r, Col.last_name r, Col.email r, Col.gender r,
             Col.age_range r, to_datetime <$> Col.signup_date r,
             lookup_cell country_map (Col.country r)))
  end.

Definition cust_rows (country_map : gmap string Z) (df : list Col.row)
  : list (Z * customer_row) :=
  omap (customer_tuple country_map) (drop_duplicates customer_columns df).

(** *** Products *)

Definition product_columns (r : Col.row) :=
  (Col.product_id r, Col.product_name r, Col.category r, Col.brand r,
   Col.color r, Col.size r, Col.cost_price r, Col.original_price r).

(** [float(d)] for a Decimal: only a signaling NaN is refused. *)
Definition to_float (d : Decimal) : result float :=
  match d with
  | SNaN _ _ => Raise (ValueError "cannot convert signaling NaN to float")
  | _ => Ok (float_of_Decimal d)
  end.

(** [float(to_decimal(x))] in the script; the task inlines the conversion
    without the [try], so a malformed price surfaces as
    [InvalidOperation]. *)
Definition price (v : variant) (c : option string) : result float :=
  d ← match v with
      | Script => to_decimal (cell c)
      | Dag =>
          match c with
          | None => Ok zero
          | Some s =>
              match of_string s with
              | Some d => Ok d
              | None => Raise InvalidOperation
              end
          end
      end;
  to_float d.

Definition product_tuple (v : variant)
    (category_map brand_map color_map size_map : gmap string Z) (r : Col.row)
  : result (option (Z * product_row)) :=
  match Col.product_id r with
  | None => Ok None
  | Some product_id =>
      cost ← price v (Col.cost_price r);
      original ← price v (Col.original_price r);
      mret (Some (product_id,
                  (Col.product_name r,
                   lookup_cell category_map (Col.category r),
                   lookup_cell brand_map (Col.brand r),
                   lookup_cell color_map (Col.color r),
                   lookup_cell size_map (Col.size r),
                   cost, original)))
  end.

Definition prod_rows (v : variant)
    (category_map brand_map color_map size_map : gmap string Z)
    (df : list Col.row) : result (list (Z * product_row)) :=
  for_each (product_tuple v category_map brand_map color_map size_map)
    (drop_duplicates product_columns df).

(** *** Sales *)

Definition missing_campaign (v : variant) (r : Col.row) : exn :=
  let msg :=
    "Missing campaign_id mapping for channel=" ++ astype_str (Col.channel r)
    ++ " campaign=" ++ astype_str (Col.channel_campaigns r) in
  match v with
  | Script => RuntimeError msg
  | Dag => AirflowFailException msg
  end.

Definition sale_tuple (v : variant) (campaign_map : gmap (string * string) Z)
    (r : Col.row) : result (option (Z * sale_row)) :=
  match Col.sale_id r, Col.customer_id r with
  | Some sale_id, Some customer_id =>
      match campaign_map !! (astype_str (Col.channel r),
                             astype_str (Col.channel_campaigns r)) with
      | None => Raise (missing_campaign v r)
      | Some camp_id =>
          Ok (Some (sale_id,
                    (Col.sale_date r, Col.total_amount r,
                     customer_id, camp_id)))
      end
  | _, _ => Ok None
  end.

(** A sale line that the loop does not skip and whose campaign pair has
    no id in the map. *)
Definition unmapped_sale (campaign_map : gmap (string * string) Z)
    (r : Col.row) : Prop :=
  is_Some (Col.sale_id r) /\ is_Some (Col.customer_id r) /\
  campaign_map !! (astype_str (Col.channel r),
                   astype_str (Col.channel_campaigns r)) = None.

Definition sale_rows (v : variant) (campaign_map : gmap (string * string) Z)
    (df : list Col.row) : result (list (Z * sale_row)) :=
  for_each (sale_tuple v campaign_map) (drop_duplicates Col.sale_id df).

(** *** Sale items *)

(** [int(quantity)]: NaN has no integer value. *)
Definition int_of (c : option Z) : result Z :=
  match c with
  | Some n => Ok n
  | None => Raise (ValueError "cannot convert float NaN to integer")
  end.

(** A line together with its [discount_percent_dec], the column added
    before the transaction. *)
Definition item_tuple (rd : Col.row * Decimal) : result (option (Z * item_row)) :=
  let '(r, discount_percent_dec) := rd in
  match Col.item_id r, Col.sale_id r, Col.product_id r with
  | Some item_id, Some sale_id, Some product_id =>
      quantity ← int_of (Col.quantity r);
      discount ← to_float discount_percent_dec;
      mret (Some (item_id, (sale_id, product_id, quantity, discount)))
  | _, _, _ => Ok None
  end.

Definition item_rows (df : list (Col.row * Decimal)) : result (list (Z * item_row)) :=
  for_each item_tuple (drop_duplicates (fun rd => Col.item_id rd.1) df).

(** *** The transaction *)

(** The maps of steps 3.1 and 3.2. *)
Record Maps : Type := {
  channel_map : gmap string Z;
  category_map : gmap string Z;
  brand_map : gmap string Z;
  color_map : gmap string Z;
  size_map : gmap string Z;
  country_map : gmap string Z;
  campaign_map : gmap (string * string) Z;
}.

(** Steps 3.1 and 3.2: the simple dimensions, then the campaigns. *)
Definition dimensions (v : variant) (df : list Col.row) : Tx Maps :=
  let column (c : Col.row -> option string) := cell ∘ c <$> df in
  channel_map ← resolve_simple v dim_channel (column Col.channel);
  category_map ← resolve_simple v dim_category (column Col.category);
  brand_map ← resolve_simple v dim_brand (column Col.brand);
  color_map ← resolve_simple v dim_color (column Col.color);
  size_map ← resolve_simple v dim_size (column Col.size);
  country_map ← resolve_simple v dim_country (column Col.country);
  let pairs :=
    (fun r => (astype_str (Col.channel r), astype_str (Col.channel_campaigns r)))
      <$> df in
  campaign_map ←
    on_table t_campaign set_campaign (upsert_dim_campaign channel_map pairs);
  mret {| channel_map := channel_map; category_map := category_map;
          brand_map := brand_map; color_map := color_map;
          size_map := size_map; country_map := country_map;
          campaign_map := campaign_map |}.

(** Steps 3.3 and 3.4: customers and products. *)
Definition customers (m : Maps) (df : list Col.row) : Tx unit :=
  upsert_dim_customer (cust_rows (country_map m) df).

Definition products (v : variant) (m : Maps) (df : list Col.row) : Tx unit :=
  rows ← lift (prod_rows v (category_map m) (brand_map m) (color_map m)
                 (size_map m) df);
  upsert_dim_product rows.

(** Steps 3.5 and 3.6: sales and their items. *)
Definition sales (v : variant) (m : Maps) (df : list Col.row) : Tx unit :=
  rows ← lift (sale_rows v (campaign_map m) df);
  upsert_fact_sale rows.

Definition items (dfd : list (Col.row * Decimal)) : Tx unit :=
  rows ← lift (item_rows dfd);
  upsert_fact_sale_item rows.

(** The body of [with conn.cursor() as cur:]. *)
Definition transaction (v : variant) (dfd : list (Col.row * Decimal)) : Tx unit :=
  let df := dfd.*1 in
  m ← dimensions v df;
  customers m df;;
  products v m df;;
  sales v m df;;
  items dfd.

(** *** The run *)

(** What the connection sees. *)
Inductive event : Type := Connect | Commit | Rollback | Close.

(** The database a run starts from and leaves behind: the committed
    tables, and the calls made on connections so far. *)
Record World : Type := {
  tables : Tables;
  trace : list event;
}.

Inductive outcome : Type :=
  | Return (value : pyval)
  | Raised (e : exn).

(** [df[df["sale_date"] == run_dt]] *)
Definition filter_date (run_dt : date) (df : list Col.row) : list Col.row :=
  filter (fun r => Col.sale_date r = Some run_dt) df.

(** What leaves the [except] clause: the script re-raises, the task wraps
    the exception. *)
Definition reraise (v : variant) (e : exn) : exn :=
  match v with
  | Script => e
  | Dag => AirflowFailExceptionFrom "Ingestion failed (transaction rolled back)." e
  end.

(** [percent_str_to_decimal], each file with its own. *)
Definition percent (v : variant) : pyval -> result Decimal :=
  match v with
  | Script => percent_str_to_decimal
  | Dag => percent_str_to_decimal_dag
  end.

(** What a successful run returns. *)
Definition success (v : variant) (df : list Col.row) : pyval :=
  match v with
  | Script => PyNone
  | Dag => PyStr ("OK:" ++ pretty (length df))
  end.

Definition no_data (v : variant) : pyval :=
  match v with
  | Script => PyNone
  | Dag => PyStr "NO_DATA"
  end.

(** [main] of the script and [ingest] of the task, from the data frame
    read from storage, with its dates of sale. *)
Definition main (v : variant) (run_dt : date) (csv : list Col.row) (w : World)
  : outcome * World :=
  let df := filter_date run_dt csv in
  match df with
  | [] => (Return (no_data v), w)
  | _ =>
      match apply (fun r => percent v (cell (Col.discount_percent r))) df with
      | Raise e => (Raised e, w)
      | Ok decs =>
          match transaction v (zip df decs) (tables w) with
          | Ok (_, T) =>
              (Return (success v df),
               {| tables := T; trace := trace w ++ [Connect; Commit; Close] |})
          | Raise e =>
              (Raised (reraise v e),
               {| tables := tables w;
                  trace := trace w ++ [Connect; Rollback; Close] |})
          end
      end
  end.

End Load.

End Loader.
Export Loader.

(** ** The run date

    [datetime.strptime(s, "%Y%m%d").date()], after [_strptime] of the
    standard library: the format is compiled to the regular expression
    [(?P<Y>\d\d\d\d)(?P<m>1[0-2]|0[1-9]|[1-9])(?P<d>3[0-1]|[1-2]\d|0[1-9]|[1-9]| [1-9])],
    which is matched at the start of the string; the match has to reach
    the end of the string, and the three numbers have to be a date of the
    calendar. *)

Module Calendar.

(** A [datetime.date]. *)
Record ymd : Type := { year : Z; month : Z; day : Z }.

(** [_is_leap] and [_days_in_month] of [datetime]. *)
Definition is_leap (y : Z) : bool :=
  (y mod 4 =? 0) && (negb (y mod 100 =? 0) || (y mod 400 =? 0)).

Definition days_in_month (y m : Z) : Z :=
  if m =? 2 then (if is_leap y then 29 else 28)
  else if (m =? 4) || (m =? 6) || (m =? 9) || (m =? 11) then 30
  else 31.

(** [date(y, m, d)]: the year is between [MINYEAR = 1] and
    [MAXYEAR = 9999], the month between 1 and 12, the day between 1 and
    the length of the month. [None] stands for the [ValueError]. *)
Definition make_date (y m d : Z) : option ymd :=
  if (1 <=? y) && (y <=? 9999) && (1 <=? m) && (m <=? 12)
     && (1 <=? d) && (d <=? days_in_month y m)
  then Some {| year := y; month := m; day := d |}
  else None.

(** A character class [[lo-hi]]. *)
Definition char_in (lo hi : ascii) (a : ascii) : bool :=
  (code lo <=? code a) && (code a <=? code hi).

(** The ways an alternative of two character classes, or of one, matches
    at the start of a string: the text of the group and what follows. *)
Definition two (p1 p2 : ascii -> bool) (l : list ascii)
  : list (list ascii * list ascii) :=
  match l with
  | a :: b :: r => if p1 a && p2 b then [([a; b], r)] else []
  | _ => []
  end.

Definition one (p : ascii -> bool) (l : list ascii)
  : list (list ascii * list ascii) :=
  match l with
  | a :: r => if p a then [([a], r)] else []
  | [] => []
  end.

(** [(?P<Y>\d\d\d\d)] *)
Definition directive_Y (l : list ascii) : list (list ascii * list ascii) :=
  match l with
  | a :: b :: c :: d :: r =>
      if is_digit a && is_digit b && is_digit c && is_digit d
      then [([a; b; c; d], r)] else []
  | _ => []
  end.

(** [(?P<m>1[0-2]|0[1-9]|[1-9])], the alternatives in the order the
    matcher tries them. *)
Definition directive_m (l : list ascii) : list (list ascii * list ascii) :=
  two (char_in "1" "1") (char_in "0" "2") l
  ++ two (char_in "0" "0") (char_in "1" "9") l
  ++ one (char_in "1" "9") l.

(** [(?P<d>3[0-1]|[1-2]\d|0[1-9]|[1-9]| [1-9])] *)
Definition directive_d (l : list ascii) : list (list ascii * list ascii) :=
  two (char_in "3" "3") (char_in "0" "1") l
  ++ two (char_in "1" "2") is_digit l
  ++ two (char_in "0" "0") (char_in "1" "9") l
  ++ one (char_in "1" "9") l
  ++ two (char_in " " " ") (char_in "1" "9") l.

(** [format_regex.match(data_string)]: the first match in backtracking
    order, with the three groups and the text after the match. *)
Definition format_regex (l : list ascii)
  : option (list ascii * list ascii * list ascii * list ascii) :=
  head (Y ← directive_Y l;
        m ← directive_m Y.2;
        d ← directive_d m.2;
        [(Y.1, m.1, d.1, d.2)]).

(** [int(group)] on the text of a group: blanks around the digits are
    ignored. *)
Definition int_group (l : list ascii) : Z := digits_to_Z (strip_chars l).

(** [datetime.strptime(s, "%Y%m%d").date()]; [None] stands for the
    [ValueError] of a string that does not match, of text left after the
    match, and of numbers that are not a date. *)
Definition strptime (s : string) : option ymd :=
  match format_regex (chars s) with
  | Some (Y, m, d, []) => make_date (int_group Y) (int_group m) (int_group d)
  | _ => None
  end.

(** [parse_yyyymmdd] of [Ingestion/main.py]. The exception is the one the
    function raises, with the f-string of the source as its message; the
    cause that [raise ... from e] records is not kept, as for
    [to_decimal]. *)
Definition parse_yyyymmdd (s : string) : result ymd :=
  match strptime s with
  | Some d => Ok d
  | None => Raise (ValueError ("Invalid date '" ++ s ++ "'. Expected YYYYMMDD."))
  end.

(** [parse_yyyymmdd] of [dags/fashion_sales_dag.py]. *)
Definition parse_yyyymmdd_dag (s : string) : result ymd :=
  match strptime s with
  | Some d => Ok d
  | None =>
      Raise (AirflowFailException
               ("Invalid run_date '" ++ s ++ "'. Expected YYYYMMDD."))
  end.

End Calendar.

(** ** Table names in the statements *)

Module Sql.

(** [qualify] of [Ingestion/main.py]: an empty schema stands for
    [public]. *)
Definition qualify (schema table : string) : string :=
  let schema := if decide (schema = "") then "public" else schema in
  schema ++ "." ++ table.

(** [q] of [dags/fashion_sales_dag.py]. *)
Definition q (schema table : string) : string := schema ++ "." ++ table.

End Sql.

(** ** A concrete instance and a small data frame

    Dates are written [YYYY-MM-DD] and stand for the number [YYYYMMDD];
    a float is written as the Decimal it was converted from. *)

Module Sample.

Definition iso_date (s : string) : option Z :=
  let l := remove_chars "-"%char (chars s) in
  if all_digits l && bool_decide (length l = 8%nat) then Some (digits_to_Z l)
  else None.

Definition external : External :=
  {| date := Z; float := Decimal; to_datetime := iso_date;
     float_of_Decimal := fun d => d |}.

(** A line of the extract for 2025-06-16, with the columns that vary in
    the examples. *)
Definition line (channel campaign : option string) (customer_id : option Z)
    (email : option string) (product_id : option Z) (cost_price : option string)
    (sale_id item_id : option Z) (discount_percent : option string)
  : @Col.row external :=
  {| Col.sale_date := Some (20250616 : @date external);
     Col.channel := channel;
     Col.category := Some "Shoes";
     Col.brand := Some "Acme";
     Col.color := Some "Red";
     Col.size := Some "M";
     Col.country := Some "France";
     Col.channel_campaigns := campaign;
     Col.customer_id := customer_id;
     Col.first_name := Some "Ada";
     Col.last_name := Some "Lovelace";
     Col.email := email;
     Col.gender := None;
     Col.age_range := Some "26-35";
     Col.signup_date := Some "2024-01-31";
     Col.product_id := product_id;
     Col.product_name := Some "Runner";
     Col.cost_price := cost_price;
     Col.original_price := Some "59.90";
     Col.sale_id := sale_id;
     Col.total_amount := (Finite false 5990 (-2) : @float external);
     Col.item_id := item_id;
     Col.quantity := Some 1;
     Col.discount_percent := discount_percent |}.

Definition empty_tables : @Tables external :=
  {| t_channel := ∅; t_category := ∅; t_brand := ∅; t_color := ∅;
     t_size := ∅; t_country := ∅; t_campaign := ∅; t_customer := ∅;
     t_product := ∅; t_sale := ∅; t_sale_item := ∅ |}.

Definition empty_world : @World external :=
  {| tables := empty_tables; trace := [] |}.

(** One sale of two items. *)
Definition two_items : list (@Col.row external) :=
  [ line (Some "Online") (Some "Spring Sale") (Some 7) (Some "ada@example.org")
      (Some 100) (Some "31.50") (Some 1) (Some 11) (Some "12.50%");
    line (Some "Online") (Some "Spring Sale") (Some 7) (Some "ada@example.org")
      (Some 101) (Some "18") (Some 1) (Some 12) None ].

(** The same customer with two addresses on the same day. *)
Definition two_addresses : list (@Col.row external) :=
  [ line (Some "Online") (Some "Spring Sale") (Some 7) (Some "ada@example.org")
      (Some 100) (Some "31.50") (Some 1) (Some 11) (Some "12.50%");
    line (Some "Online") (Some "Spring Sale") (Some 7) (Some "ada@example.com")
      (Some 100) (Some "31.50") (Some 2) (Some 12) None ].

(** A channel of blanks, which no dimension row is created for, on a line
    whose cost price is not a number. *)
Definition blank_channel_bad_price : list (@Col.row external) :=
  [ line (Some "  ") (Some "Spring Sale") (Some 7) (Some "ada@example.org")
      (Some 100) (Some "abc") (Some 1) (Some 11) (Some "12.50%") ].

(** The same product with two cost prices on the same day. *)
Definition two_prices : list (@Col.row external) :=
  [ line (Some "Online") (Some "Spring Sale") (Some 7) (Some "ada@example.org")
      (Some 100) (Some "31.50") (Some 1) (Some 11) (Some "12.50%");
    line (Some "Online") (Some "Spring Sale") (Some 7) (Some "ada@example.org")
      (Some 100) (Some "29.00") (Some 1) (Some 12) None ].

(** A line whose country field is empty. *)
Definition no_country (r : @Col.row external) : @Col.row external :=
  {| Col.sale_date := Col.sale_date r;
     Col.channel := Col.channel r;
     Col.category := Col.category r;
     Col.brand := Col.brand r;
     Col.color := Col.color r;
     Col.size := Col.size r;
     Col.country := None;
     Col.channel_campaigns := Col.channel_campaigns r;
     Col.customer_id := Col.customer_id r;
     Col.first_name := Col.first_name r;
     Col.last_name := Col.last_name r;
     Col.email := Col.email r;
     Col.gender := Col.gender r;
     Col.age_range := Col.age_range r;
     Col.signup_date := Col.signup_date r;
     Col.product_id := Col.product_id r;
     Col.product_name := Col.product_name r;
     Col.cost_price := Col.cost_price r;
     Col.original_price := Col.original_price r;
     Col.sale_id := Col.sale_id r;
     Col.total_amount := Col.total_amount r;
     Col.item_id := Col.item_id r;
     Col.quantity := Col.quantity r;
     Col.discount_percent := Col.discount_percent r |}.

Definition missing_country : list (@Col.row external) :=
  [ no_country
      (line (Some "Online") (Some "Spring Sale") (Some 7) (Some "ada@example.org")
         (Some 100) (Some "31.50") (Some 1) (Some 11) (Some "12.50%")) ].

(** A channel of blanks on an otherwise sound line. *)
Definition blank_channel : list (@Col.row external) :=
  [ line (Some "  ") (Some "Spring Sale") (Some 7) (Some "ada@example.org")
      (Some 100) (Some "31.50") (Some 1) (Some 11) (Some "12.50%") ].

End Sample.

(** * Facts *)

Section DecimalFacts.

Lemma ndigits_aux_bounds fuel c :
  0 < c -> c < 2 ^ (Z.of_nat fuel + 1) ->
  1 <= ndigits_aux fuel c /\
  10 ^ (ndigits_aux fuel c - 1) <= c < 10 ^ ndigits_aux fuel c.
Proof.
  revert c. induction fuel as [|f IH]; intros c Hpos Hlt.
  - simpl in *. change (2 ^ (0 + 1)) with 2 in Hlt. split; [lia|]. simpl. lia.
  - simpl ndigits_aux. destruct (Z.ltb_spec c 10) as [Hc|Hc].
    + split; [lia|]. simpl. lia.
    + assert (Hq : 0 < c / 10) by (apply Z.div_str_pos; lia).
      assert (Hq2 : c / 10 < 2 ^ (Z.of_nat f + 1)).
      { apply Z.div_lt_upper_bound; [lia|].
        replace (Z.of_nat (S f) + 1) with (Z.succ (Z.of_nat f + 1)) in Hlt by lia.
        rewrite Z.pow_succ_r in Hlt by lia. lia. }
      destruct (IH _ Hq Hq2) as (Hn & Hlo & Hhi).
      set (n := ndigits_aux f (c / 10)) in *.
      split; [lia|].
      replace (1 + n - 1) with (Z.succ (n - 1)) by lia.
      replace (1 + n) with (Z.succ n) by lia.
      rewrite !Z.pow_succ_r by lia.
      pose proof (Z.div_mod c 10 ltac:(lia)) as Hdm.
      pose proof (Z.mod_pos_bound c 10 ltac:(lia)). lia.
Qed.

Lemma ndigits_bounds c :
  0 < c -> 1 <= ndigits c /\ 10 ^ (ndigits c - 1) <= c < 10 ^ ndigits c.
Proof.
  intros Hc. unfold ndigits. apply ndigits_aux_bounds; [done|].
  rewrite Z2Nat.id by apply Z.log2_nonneg.
  replace (Z.log2 c + 1) with (Z.succ (Z.log2 c)) by lia.
  apply Z.log2_spec. done.
Qed.

Lemma ndigits_pos c : 1 <= ndigits c.
Proof.
  unfold ndigits. generalize (Z.to_nat (Z.log2 c)). intros f. revert c.
  induction f as [|f IH]; intros c; simpl; [lia|].
  destruct (c <? 10); [lia|]. specialize (IH (c / 10)). lia.
Qed.

Lemma ndigits_le c n : 0 < c -> c < 10 ^ n -> ndigits c <= n.
Proof.
  intros Hc Hlt. destruct (ndigits_bounds c Hc) as (Hn & Hlo & _).
  destruct (Z.le_gt_cases (ndigits c) n) as [|Hgt]; [done|].
  assert (10 ^ n <= 10 ^ (ndigits c - 1)); [|lia].
  destruct (Z.lt_ge_cases n 0).
  - rewrite (Z.pow_neg_r 10 n) by lia. apply Z.pow_nonneg. lia.
  - apply Z.pow_le_mono_r; lia.
Qed.

Lemma strip_zeros_spec fuel coeff exp ideal :
  0 < coeff ->
  let r := strip_zeros fuel coeff exp ideal in
  0 < r.1 /\ exp <= r.2 /\ r.1 * 10 ^ (r.2 - exp) = coeff.
Proof.
  revert coeff exp. induction fuel as [|f IH]; intros coeff exp Hc; simpl.
  - rewrite Z.sub_diag. simpl. lia.
  - destruct ((exp <? ideal) && (coeff mod 10 =? 0)) eqn:Hb; simpl.
    + apply andb_true_iff in Hb as [_ Hm%Z.eqb_eq].
      pose proof (Z.div_mod coeff 10 ltac:(lia)) as Hdm.
      assert (Hq : 0 < coeff / 10) by lia.
      destruct (IH (coeff / 10) (exp + 1) Hq) as (H1 & H2 & H3).
      split; [done|]. split; [lia|].
      replace (_ - exp) with (Z.succ ((strip_zeros f (coeff / 10) (exp + 1) ideal).2 - (exp + 1))) by lia.
      rewrite Z.pow_succ_r by lia. lia.
    + rewrite Z.sub_diag. simpl. lia.
Qed.

Lemma strip_zeros_at_least fuel coeff exp ideal j :
  0 <= j -> j <= Z.of_nat fuel -> exp + j <= ideal -> (10 ^ j | coeff) ->
  0 < coeff -> exp + j <= (strip_zeros fuel coeff exp ideal).2.
Proof.
  revert coeff exp j. induction fuel as [|f IH]; intros coeff exp j Hj Hf He Hd Hc.
  - simpl. lia.
  - destruct (Z.eq_dec j 0) as [->|Hj0].
    { pose proof (strip_zeros_spec (S f) coeff exp ideal Hc). simpl in *. lia. }
    simpl.
    assert (H10 : (10 | coeff)).
    { etrans; [|exact Hd]. exists (10 ^ (j - 1)).
      replace j with (Z.succ (j - 1)) at 1 by lia. rewrite Z.pow_succ_r by lia. lia. }
    destruct H10 as [q Hq].
    assert (Hmod : coeff mod 10 = 0) by (subst coeff; apply Z.mod_mul; lia).
    assert (Hdiv : coeff / 10 = q) by (subst coeff; apply Z.div_mul; lia).
    rewrite Hmod, Z.eqb_refl.
    destruct (Z.ltb_spec exp ideal); [|lia]. simpl.
    rewrite Hdiv.
    replace (exp + j) with ((exp + 1) + (j - 1)) by lia.
    apply IH; try lia.
    destruct Hd as [k Hk].
    exists k. replace j with (Z.succ (j - 1)) in Hk by lia.
    rewrite Z.pow_succ_r in Hk by lia. lia.
Qed.

Lemma fix_finite_ok s c e :
  0 < c -> ndigits c + e - prec < Etop ->
  exists c' e', fix_finite s c e = Ok (Finite s c' e').
Proof.
  intros Hc Hb. unfold fix_finite.
  destruct (Z.eqb_spec c 0); [lia|].
  destruct (Z.gtb_spec (ndigits c + e - prec) Etop); [lia|].
  set (exp_min := if _ <? Etiny then Etiny else _).
  assert (Hem : exp_min < Etop).
  { unfold exp_min. destruct (_ <? Etiny); [|done]. unfold Etop, Etiny, Emin, Emax, prec. lia. }
  destruct (e <? exp_min); [|eauto].
  destruct (_ <? 0).
  - match goal with |- context [round_half_even ?q ?r ?k] => generalize (round_half_even q r k) end.
    intros ch. destruct (ch >? 0).
    + destruct (ndigits _ >? prec).
      * destruct (Z.gtb_spec (exp_min + 1) Etop); [lia|eauto].
      * destruct (Z.gtb_spec exp_min Etop); [lia|eauto].
    + destruct (Z.gtb_spec exp_min Etop); [lia|eauto].
  - match goal with |- context [round_half_even ?q ?r ?k] => generalize (round_half_even q r k) end.
    intros ch. destruct (ch >? 0).
    + destruct (ndigits _ >? prec).
      * destruct (Z.gtb_spec (exp_min + 1) Etop); [lia|eauto].
      * destruct (Z.gtb_spec exp_min Etop); [lia|eauto].
    + destruct (Z.gtb_spec exp_min Etop); [lia|eauto].
Qed.

Lemma fix_finite_id s c e :
  0 < c -> ndigits c <= prec -> Etiny <= e -> ndigits c + e - prec <= Etop ->
  fix_finite s c e = Ok (Finite s c e).
Proof.
  intros Hc Hn He Hb. unfold fix_finite.
  destruct (Z.eqb_spec c 0); [lia|].
  destruct (Z.gtb_spec (ndigits c + e - prec) Etop); [lia|].
  destruct (Z.ltb_spec (ndigits c + e - prec) Etiny).
  - destruct (Z.ltb_spec e Etiny); [lia|done].
  - destruct (Z.ltb_spec e (ndigits c + e - prec)); [lia|done].
Qed.

Lemma pow10_split a b : 0 <= a -> 0 <= b -> 10 ^ (a + b) = 10 ^ a * 10 ^ b.
Proof. intros. apply Z.pow_add_r; lia. Qed.

(** Division by [Decimal("100")], unfolded for a non-zero dividend. *)
Lemma truediv_hundred_unfold s c e :
  0 < c ->
  truediv (Finite s c e) hundred =
    let shift := 3 - ndigits c + prec + 1 in
    let exp := e - 0 - shift in
    let '(coeff, remainder) :=
      if 0 <=? shift
      then ((c * 10 ^ shift) / 100, (c * 10 ^ shift) mod 100)
      else (c / (100 * 10 ^ (- shift)), c mod (100 * 10 ^ (- shift))) in
    let '(coeff, exp) :=
      if remainder =? 0
      then strip_zeros (Z.to_nat (e - 0 - exp)) coeff exp (e - 0)
      else (if coeff mod 5 =? 0 then coeff + 1 else coeff, exp) in
    fix_finite s coeff exp.
Proof.
  intros Hc. unfold truediv, hundred. simpl check_nans. cbv iota.
  change (100 =? 0) with false. cbv iota.
  destruct (Z.eqb_spec c 0); [lia|].
  change (ndigits 100) with 3. rewrite xorb_false_r. reflexivity.
Qed.

(** The quotient of a dividend of at most 28 digits is exact. *)
Lemma truediv_hundred_exact s c e :
  0 < c -> ndigits c <= 28 -> Etiny + 2 <= e -> e + ndigits c <= Emax + 3 ->
  exists c' e',
    truediv (Finite s c e) hundred = Ok (Finite s c' e') /\
    0 < c' /\ e - 2 <= e' /\ c' * 10 ^ (e' - (e - 2)) = c.
Proof.
  intros Hc Hn Hlo Hhi. rewrite truediv_hundred_unfold by done.
  pose proof (ndigits_pos c) as Hn1.
  destruct (ndigits_bounds c Hc) as (_ & _ & Hub).
  set (L := ndigits c) in *. unfold prec. cbv zeta.
  set (shift := 3 - L + 28 + 1).
  assert (Hs : 4 <= shift) by (unfold shift; lia).
  destruct (Z.leb_spec 0 shift); [|lia].
  assert (Hpow : 10 ^ shift = 100 * 10 ^ (shift - 2)).
  { replace shift with (2 + (shift - 2)) at 1 by lia. rewrite pow10_split by lia. done. }
  assert (Hq : c * 10 ^ shift / 100 = c * 10 ^ (shift - 2)).
  { rewrite Hpow. replace (c * (100 * 10 ^ (shift - 2))) with (c * 10 ^ (shift - 2) * 100) by lia.
    apply Z.div_mul. lia. }
  assert (Hr : (c * 10 ^ shift) mod 100 = 0).
  { rewrite Hpow. replace (c * (100 * 10 ^ (shift - 2))) with (c * 10 ^ (shift - 2) * 100) by lia.
    apply Z.mod_mul. lia. }
  rewrite Hq, Hr. change (0 =? 0) with true. cbv iota.
  assert (Hp2 : 0 < 10 ^ (shift - 2)) by (apply Z.pow_pos_nonneg; lia).
  assert (Hc0 : 0 < c * 10 ^ (shift - 2)) by lia.
  replace (e - 0 - (e - 0 - shift)) with shift by lia.
  pose proof (strip_zeros_spec (Z.to_nat shift) _ (e - 0 - shift) (e - 0) Hc0) as (H1 & H2 & H3).
  pose proof (strip_zeros_at_least (Z.to_nat shift) (c * 10 ^ (shift - 2)) (e - 0 - shift) (e - 0)
                (shift - 2) ltac:(lia) ltac:(lia) ltac:(lia)
                ltac:(exists c; lia) Hc0) as H4.
  destruct (strip_zeros _ _ _ _) as [c' e']. simpl in *.
  assert (Heq : c' * 10 ^ (e' - (e - 2)) = c).
  { replace (e' - (e - 0 - shift)) with ((e' - (e - 2)) + (shift - 2)) in H3 by lia.
    rewrite pow10_split in H3 by lia. nia. }
  assert (Hp3 : 0 < 10 ^ (e' - (e - 2))) by (apply Z.pow_pos_nonneg; lia).
  assert (Hle : c' <= c) by nia.
  assert (Hn' : ndigits c' + (e' - (e - 2)) <= L).
  { assert (ndigits c' <= L - (e' - (e - 2))); [|lia].
    apply ndigits_le; [done|].
    assert (He'' : e' - (e - 2) <= L \/ L < e' - (e - 2)) by lia.
    destruct He'' as [He''|He''].
    - apply Z.mul_lt_mono_pos_r with (p := 10 ^ (e' - (e - 2))); [done|].
      rewrite <- pow10_split by lia. replace (L - _ + _) with L by lia. lia.
    - exfalso. assert (10 ^ L <= 10 ^ (e' - (e - 2))) by (apply Z.pow_le_mono_r; lia). nia. }
  exists c', e'. split; [|repeat split; (done || lia)].
  apply fix_finite_id; unfold Etiny, Etop, Emin, Emax, prec in *; lia.
Qed.

(** The quotient of any non-zero dividend whose adjusted exponent is at
    most [Emax + 1] exists. *)
Lemma truediv_hundred_ok s c e :
  0 < c -> e + ndigits c <= Emax + 2 ->
  exists c' e', truediv (Finite s c e) hundred = Ok (Finite s c' e').
Proof.
  intros Hc Hhi. rewrite truediv_hundred_unfold by done.
  pose proof (ndigits_pos c) as Hn1.
  destruct (ndigits_bounds c Hc) as (_ & Hlb & Hub).
  set (L := ndigits c) in *. unfold prec. cbv zeta.
  set (shift := 3 - L + 28 + 1).
  assert (Hcoeff : forall coeff rem,
            (coeff, rem) = (if 0 <=? shift
              then ((c * 10 ^ shift) / 100, (c * 10 ^ shift) mod 100)
              else (c / (100 * 10 ^ (- shift)), c mod (100 * 10 ^ (- shift)))) ->
            10 ^ 29 <= coeff < 10 ^ 30).
  { intros coeff rem Heq. destruct (Z.leb_spec 0 shift) as [Hs|Hs].
    - injection Heq as -> _.
      assert (H31 : 10 ^ 31 <= c * 10 ^ shift).
      { replace 31 with ((L - 1) + shift) by (unfold shift; lia).
        rewrite pow10_split by lia.
        apply Z.mul_le_mono_nonneg_r; [|done]. apply Z.pow_nonneg; lia. }
      assert (H32 : c * 10 ^ shift < 10 ^ 32).
      { replace 32 with (L + shift) by (unfold shift; lia).
        rewrite pow10_split by lia.
        apply Z.mul_lt_mono_pos_r; [|done]. apply Z.pow_pos_nonneg; lia. }
      split.
      + apply Z.div_le_lower_bound; [lia|]. change (100 * 10 ^ 29) with (10 ^ 31). done.
      + apply Z.div_lt_upper_bound; [lia|]. change (100 * 10 ^ 30) with (10 ^ 32). done.
    - injection Heq as -> _.
      assert (Hd : 100 * 10 ^ (- shift) = 10 ^ (L - 30)).
      { replace (L - 30) with (2 + - shift) by (unfold shift; lia).
        rewrite pow10_split by lia. done. }
      rewrite Hd.
      assert (Hdp : 0 < 10 ^ (L - 30)) by (apply Z.pow_pos_nonneg; unfold shift in Hs; lia).
      split.
      + apply Z.div_le_lower_bound; [done|].
        rewrite <- pow10_split by (unfold shift in Hs; lia).
        replace (L - 30 + 29) with (L - 1) by lia. done.
      + apply Z.div_lt_upper_bound; [done|].
        rewrite <- pow10_split by (unfold shift in Hs; lia).
        replace (L - 30 + 30) with L by lia. done. }
  destruct (if 0 <=? shift then _ else _) as [coeff rem] eqn:Hcr.
  specialize (Hcoeff coeff rem eq_refl).
  assert (Hfin : forall c1 e1, 0 < c1 -> ndigits c1 + e1 <= e + L - 2 ->
            exists c' e', fix_finite s c1 e1 = Ok (Finite s c' e')).
  { intros c1 e1 H1 H2. apply fix_finite_ok; [done|].
    unfold Etop, Emax, prec in *. lia. }
  destruct (rem =? 0).
  - assert (Hc0 : 0 < coeff) by lia.
    pose proof (strip_zeros_spec (Z.to_nat (e - 0 - (e - 0 - shift))) coeff (e - 0 - shift) (e - 0) Hc0)
      as (H1 & H2 & H3).
    destruct (strip_zeros _ _ _ _) as [c1 e1]. simpl in *.
    apply Hfin; [done|].
    assert (ndigits c1 <= 30 - (e1 - (e - 0 - shift))); [|unfold shift in *; lia].
    apply ndigits_le; [done|].
    set (d := e1 - (e - 0 - shift)) in *.
    assert (Hdp : 0 < 10 ^ d) by (apply Z.pow_pos_nonneg; lia).
    assert (Hd30 : d <= 30 \/ 30 < d) by lia.
    destruct Hd30 as [Hd30|Hd30].
    + apply Z.mul_lt_mono_pos_r with (p := 10 ^ d); [done|].
      rewrite <- pow10_split by lia. replace (30 - d + d) with 30 by lia. lia.
    + exfalso. assert (10 ^ 30 <= 10 ^ d) by (apply Z.pow_le_mono_r; lia). nia.
  - apply Hfin.
    + destruct (_ =? 0); lia.
    + assert (ndigits (if coeff mod 5 =? 0 then coeff + 1 else coeff) <= 30);
        [|unfold shift; lia].
      apply ndigits_le; [destruct (_ =? 0); lia|].
      destruct (Z.eqb_spec (coeff mod 5) 0) as [Hm|Hm]; [|lia].
      pose proof (Z.div_mod coeff 5 ltac:(lia)) as Hdm.
      change (10 ^ 30) with (5 * 200000000000000000000000000000) in *. lia.
Qed.

Lemma pow10_mono a b : 0 <= a -> a <= b -> 10 ^ a <= 10 ^ b.
Proof. intros. apply Z.pow_le_mono_r; lia. Qed.

(** With equal signs, more digits before the point means a larger
    magnitude. *)
Lemma adjusted_lt_scaled ca ea cb eb :
  0 < ca -> 0 < cb -> adjusted ca ea < adjusted cb eb ->
  let m := Z.min ea eb in
  ca * 10 ^ (ea - m) < cb * 10 ^ (eb - m).
Proof.
  intros Ha Hb Hadj m. unfold adjusted in Hadj.
  destruct (ndigits_bounds ca Ha) as (Ha1 & _ & Hub).
  destruct (ndigits_bounds cb Hb) as (Hb1 & Hlb & _).
  assert (Hpa : 0 < 10 ^ (ea - m)) by (apply Z.pow_pos_nonneg; lia).
  assert (Hpb : 0 < 10 ^ (eb - m)) by (apply Z.pow_pos_nonneg; lia).
  apply Z.lt_le_trans with (m := 10 ^ (ndigits ca + (ea - m))).
  - rewrite pow10_split by lia. apply Z.mul_lt_mono_pos_r; done.
  - apply Z.le_trans with (m := 10 ^ ((ndigits cb - 1) + (eb - m))).
    + apply pow10_mono; lia.
    + rewrite pow10_split by lia. apply Z.mul_le_mono_nonneg_r; lia.
Qed.

#[local] Arguments Z.compare : simpl never.
#[local] Arguments Z.mul : simpl never.
#[local] Arguments Z.pow : simpl never.
#[local] Arguments Z.opp : simpl never.
#[local] Arguments Z.sub : simpl never.
#[local] Arguments Z.add : simpl never.

(** The ordering of the code is the ordering of the numbers. *)
Lemma cmp_num_compare sa ca ea sb cb eb :
  0 <= ca -> 0 <= cb ->
  cmp (Finite sa ca ea) (Finite sb cb eb)
  = num_compare (Finite sa ca ea) (Finite sb cb eb).
Proof.
  intros Ha Hb. unfold cmp, num_compare.
  set (m := Z.min ea eb).
  assert (Hpa : 0 < 10 ^ (ea - m)) by (apply Z.pow_pos_nonneg; lia).
  assert (Hpb : 0 < 10 ^ (eb - m)) by (apply Z.pow_pos_nonneg; lia).
  destruct (Z.eqb_spec ca 0) as [->|Ha0].
  { destruct (Z.eqb_spec cb 0) as [->|Hb0].
    - destruct sa, sb; reflexivity.
    - symmetry. destruct sa, sb; simpl;
        first [ apply Z.compare_lt_iff; nia | apply Z.compare_gt_iff; nia ]. }
  destruct (Z.eqb_spec cb 0) as [->|Hb0].
  { symmetry. destruct sa, sb; simpl;
      first [ apply Z.compare_lt_iff; nia | apply Z.compare_gt_iff; nia ]. }
  destruct sa, sb; simpl negb; simpl andb; cbv iota.
  - (* both negative *)
    destruct (Z.eqb_spec (adjusted ca ea) (adjusted cb eb)) as [He|He].
    + replace (Z.max 0 (ea - eb)) with (ea - m) by lia.
      replace (Z.max 0 (eb - ea)) with (eb - m) by lia.
      simpl signed. rewrite !Z.mul_opp_l, Z.compare_opp.
      rewrite (Z.compare_antisym (ca * _) (cb * _)).
      destruct (ca * 10 ^ (ea - m) ?= cb * 10 ^ (eb - m)); reflexivity.
    + symmetry. simpl signed. rewrite !Z.mul_opp_l, Z.compare_opp.
      destruct (Z.gtb_spec (adjusted ca ea) (adjusted cb eb)).
      * apply Z.compare_lt_iff.
        pose proof (adjusted_lt_scaled cb eb ca ea ltac:(lia) ltac:(lia) ltac:(lia)) as Hs.
        simpl in Hs. rewrite Z.min_comm in Hs. exact Hs.
      * apply Z.compare_gt_iff.
        pose proof (adjusted_lt_scaled ca ea cb eb ltac:(lia) ltac:(lia) ltac:(lia)) as Hs.
        simpl in Hs. exact Hs.
  - symmetry. simpl signed. apply Z.compare_lt_iff. nia.
  - symmetry. simpl signed. apply Z.compare_gt_iff. nia.
  - destruct (Z.eqb_spec (adjusted ca ea) (adjusted cb eb)) as [He|He].
    + replace (Z.max 0 (ea - eb)) with (ea - m) by lia.
      replace (Z.max 0 (eb - ea)) with (eb - m) by lia.
      simpl signed.
      destruct (ca * 10 ^ (ea - m) ?= cb * 10 ^ (eb - m)); reflexivity.
    + symmetry. simpl signed.
      destruct (Z.gtb_spec (adjusted ca ea) (adjusted cb eb)).
      * apply Z.compare_gt_iff.
        pose proof (adjusted_lt_scaled cb eb ca ea ltac:(lia) ltac:(lia) ltac:(lia)) as Hs.
        simpl in Hs. rewrite Z.min_comm in Hs. exact Hs.
      * apply Z.compare_lt_iff.
        pose proof (adjusted_lt_scaled ca ea cb eb ltac:(lia) ltac:(lia) ltac:(lia)) as Hs.
        simpl in Hs. exact Hs.
Qed.

Lemma compare_scale k a b : 0 < k -> (k * a ?= k * b) = (a ?= b).
Proof.
  intros Hk. destruct (Z.compare_spec a b);
    [apply Z.compare_eq_iff | apply Z.compare_lt_iff | apply Z.compare_gt_iff]; nia.
Qed.

(** Scaling both numbers to a smaller common exponent does not change
    their order. *)
Lemma num_compare_rescale s c d e0 sb cb eb :
  0 <= d ->
  num_compare (Finite s c (e0 + d)) (Finite sb cb eb)
  = num_compare (Finite s (c * 10 ^ d) e0) (Finite sb cb eb).
Proof.
  intros Hd. unfold num_compare.
  set (m1 := Z.min (e0 + d) eb). set (m2 := Z.min e0 eb).
  assert (Hk : 0 < 10 ^ (m1 - m2)) by (apply Z.pow_pos_nonneg; lia).
  rewrite <- (compare_scale (10 ^ (m1 - m2)) (signed s c * _)) by done.
  f_equal.
  - replace (e0 - m2) with ((m1 - m2) + (e0 + d - m1) - d) by lia.
    assert (10 ^ (m1 - m2 + (e0 + d - m1)) = 10 ^ d * 10 ^ (m1 - m2 + (e0 + d - m1) - d)).
    { rewrite <- pow10_split by lia. f_equal. lia. }
    rewrite pow10_split in H by lia.
    transitivity (signed s c * (10 ^ (m1 - m2) * 10 ^ (e0 + d - m1))); [ring|].
    rewrite H. destruct s; simpl signed; ring.
  - replace (eb - m2) with ((m1 - m2) + (eb - m1)) by lia.
    rewrite pow10_split by lia. lia.
Qed.

Lemma exact_clamp01_rescale s c d e0 :
  0 <= d ->
  num_eq (exact_clamp01 (Finite s c (e0 + d)))
         (exact_clamp01 (Finite s (c * 10 ^ d) e0)).
Proof.
  intros Hd. unfold exact_clamp01, zero, one.
  rewrite !(num_compare_rescale s c d e0) by done.
  destruct (num_compare (Finite s (c * 10 ^ d) e0) (Finite false 0 0)) eqn:H0;
    try (repeat split; reflexivity);
    destruct (num_compare (Finite s (c * 10 ^ d) e0) (Finite false 1 0)) eqn:H1;
    try (repeat split; reflexivity).
  all: repeat split; try reflexivity.
  all: unfold num_compare; apply Z.compare_eq_iff.
  all: replace (e0 + d - Z.min (e0 + d) e0) with d by lia.
  all: replace (e0 - Z.min (e0 + d) e0) with 0 by lia.
  all: change (10 ^ 0) with 1; destruct s; simpl signed; lia.
Qed.

End DecimalFacts.

Section ValueFacts.

Lemma ten_not_0 : ~ Qeq (inject_Z 10) (inject_Z 0).
Proof. intros H. vm_compute in H. discriminate. Qed.

Lemma Qpower_ten_pos m : Qlt (inject_Z 0) (Qpower (inject_Z 10) m).
Proof. apply Qpower_0_lt. reflexivity. Qed.

Lemma value_scaled s c e m :
  m <= e ->
  Qeq (value (Finite s c e))
      (Qmult (inject_Z (signed s c * 10 ^ (e - m))) (Qpower (inject_Z 10) m)).
Proof.
  intros Hm. unfold value.
  replace e with ((e - m) + m) at 1 by lia.
  rewrite Qpower_plus by apply ten_not_0.
  rewrite inject_Z_mult, Zpower_Qpower by lia. ring.
Qed.

Lemma Qcompare_scaled (a b : Z) (p : Q) :
  Qlt (inject_Z 0) p ->
  Qcompare (Qmult (inject_Z a) p) (Qmult (inject_Z b) p) = (a ?= b).
Proof.
  intros Hp. destruct (Z.compare_spec a b) as [->|Hlt|Hgt].
  - apply Qeq_alt. reflexivity.
  - apply Qlt_alt. apply Qmult_lt_compat_r; [done|]. by rewrite <- Zlt_Qlt.
  - apply Qgt_alt. apply Qmult_lt_compat_r; [done|]. by rewrite <- Zlt_Qlt.
Qed.

(** [num_compare] is the order of the rationals. *)
Lemma num_compare_value sa ca ea sb cb eb :
  num_compare (Finite sa ca ea) (Finite sb cb eb)
  = Qcompare (value (Finite sa ca ea)) (value (Finite sb cb eb)).
Proof.
  unfold num_compare. set (m := Z.min ea eb).
  rewrite (Qcompare_comp _ _ (value_scaled sa ca ea m ltac:(lia))
             _ _ (value_scaled sb cb eb m ltac:(lia))).
  symmetry. apply Qcompare_scaled, Qpower_ten_pos.
Qed.

Lemma num_eq_value a b : num_eq a b -> Qeq (value a) (value b).
Proof.
  intros (Ha & Hb & Hc). destruct a, b; try done.
  rewrite num_compare_value in Hc. by apply Qeq_alt.
Qed.

Lemma value_exact_div100 s c e :
  Qeq (value (exact_div100 (Finite s c e)))
      (Qdiv (value (Finite s c e)) (inject_Z 100)).
Proof.
  unfold exact_div100, value.
  replace e with ((e - 2) + 2) at 2 by lia.
  rewrite Qpower_plus by apply ten_not_0.
  change (Qpower (inject_Z 10) 2) with (Qmult (inject_Z 10) (inject_Z 10)).
  field.
Qed.

Lemma value_exact_clamp01 s c e :
  Qeq (value (exact_clamp01 (Finite s c e))) (Qclamp01 (value (Finite s c e))).
Proof.
  unfold exact_clamp01, Qclamp01, zero, one. rewrite !num_compare_value.
  change (value (Finite false 0 0)) with (Qmult (inject_Z 0) (inject_Z 1)).
  change (value (Finite false 1 0)) with (Qmult (inject_Z 1) (inject_Z 1)).
  set (q := value (Finite s c e)).
  assert (H0 : Qeq (Qmult (inject_Z 0) (inject_Z 1)) (inject_Z 0)) by reflexivity.
  assert (H1 : Qeq (Qmult (inject_Z 1) (inject_Z 1)) (inject_Z 1)) by reflexivity.
  rewrite (Qcompare_comp _ _ (Qeq_refl q) _ _ H0).
  rewrite (Qcompare_comp _ _ (Qeq_refl q) _ _ H1).
  destruct (Qlt_le_dec q (inject_Z 0)) as [Hlt|Hge].
  - rewrite (proj1 (Qlt_alt _ _) Hlt). reflexivity.
  - destruct (Qcompare_spec q (inject_Z 0)) as [Heq|Hlt|Hgt].
    + destruct (Qlt_le_dec (inject_Z 1) q) as [H1q|Hq1].
      * exfalso. rewrite Heq in H1q. vm_compute in H1q. discriminate.
      * destruct (Qcompare_spec q (inject_Z 1)) as [?|?|Hc]; try reflexivity.
        exfalso. by apply (Qlt_not_le _ _ Hc).
    + exfalso. by apply (Qlt_not_le _ _ Hlt).
    + destruct (Qlt_le_dec (inject_Z 1) q) as [H1q|Hq1].
      * rewrite (proj1 (Qgt_alt _ _) H1q). reflexivity.
      * destruct (Qcompare_spec q (inject_Z 1)) as [?|?|Hc]; try reflexivity.
        exfalso. by apply (Qlt_not_le _ _ Hc).
Qed.

Lemma Qclamp01_comp q q' : Qeq q q' -> Qeq (Qclamp01 q) (Qclamp01 q').
Proof.
  intros Hq. unfold Qclamp01.
  destruct (Qlt_le_dec q (inject_Z 0)) as [H0|H0], (Qlt_le_dec q' (inject_Z 0)) as [H0'|H0'];
    try reflexivity.
  - exfalso. rewrite Hq in H0. by apply (Qlt_not_le _ _ H0).
  - exfalso. rewrite <- Hq in H0'. by apply (Qlt_not_le _ _ H0').
  - destruct (Qlt_le_dec (inject_Z 1) q) as [H1|H1], (Qlt_le_dec (inject_Z 1) q') as [H1'|H1'];
      try reflexivity; try done.
    + exfalso. rewrite Hq in H1. by apply (Qlt_not_le _ _ H1).
    + exfalso. rewrite <- Hq in H1'. by apply (Qlt_not_le _ _ H1').
Qed.

(** A Decimal that denotes the same number as the exact clamp of the
    exact quotient has the value [clamp(p / 100, 0, 1)]. *)
Lemma num_eq_clamp_div100 d s c e :
  num_eq d (exact_clamp01 (exact_div100 (Finite s c e))) ->
  is_finite d = true /\
  Qeq (value d) (Qclamp01 (Qdiv (value (Finite s c e)) (inject_Z 100))).
Proof.
  intros Hd. split; [by destruct Hd|].
  rewrite (num_eq_value _ _ Hd). unfold exact_div100 at 1.
  rewrite value_exact_clamp01. apply Qclamp01_comp.
  apply (value_exact_div100 s c e).
Qed.

End ValueFacts.

Section NormalizerFacts.

Lemma chars_app (a b : string) : chars (a ++ b) = (chars a ++ chars b)%list.
Proof. induction a as [|x a IH]; simpl; [done|]. unfold chars in *. simpl. by rewrite IH. Qed.

Lemma chars_of_list l : chars (string_of_list_ascii l) = l.
Proof. apply list_ascii_of_string_of_list_ascii. Qed.

Lemma lstrip_chars_idem l : lstrip_chars (lstrip_chars l) = lstrip_chars l.
Proof.
  induction l as [|a l IH]; simpl; [done|].
  destruct (is_space a) eqn:Ha; [done|]. simpl. by rewrite Ha.
Qed.

Lemma lstrip_chars_snoc l a :
  is_space a = false -> lstrip_chars (l ++ [a]) = (lstrip_chars l ++ [a])%list.
Proof.
  intros Ha. induction l as [|b l IH]; simpl; [by rewrite Ha|].
  destruct (is_space b); done.
Qed.

Lemma rstrip_chars_snoc l a :
  is_space a = false -> rstrip_chars (l ++ [a]) = (l ++ [a])%list.
Proof.
  intros Ha. unfold rstrip_chars. rewrite rev_app_distr. simpl. rewrite Ha.
  simpl. by rewrite rev_involutive.
Qed.

Lemma lstrip_chars_map f l :
  (forall a, is_space (f a) = is_space a) ->
  lstrip_chars (map f l) = map f (lstrip_chars l).
Proof.
  intros Hf. induction l as [|a l IH]; simpl; [done|].
  rewrite Hf. destruct (is_space a); done.
Qed.

Lemma strip_chars_lstrip l : strip_chars (lstrip_chars l) = strip_chars l.
Proof. unfold strip_chars. by rewrite lstrip_chars_idem. Qed.

Lemma comma_to_dot_space a :
  is_space (if decide (a = ","%char) then "."%char else a) = is_space a.
Proof. case_decide; [by subst|done]. Qed.

(** What is left of ["t%"] once it is stripped and the sign is cut. *)
Lemma percent_body_percent (t : string) :
  percent_body (PyStr (t ++ "%")) = string_of_list_ascii (lstrip_chars (chars t)).
Proof.
  unfold percent_body, endswith, drop_last, strip. simpl str.
  rewrite chars_of_list, chars_app. change (chars "%") with ["%"%char].
  unfold strip_chars. rewrite lstrip_chars_snoc by done.
  rewrite rstrip_chars_snoc by done.
  unfold endswith_chars, drop_last_chars. rewrite rev_app_distr. simpl.
  by rewrite rev_involutive.
Qed.

(** The literal read from ["t%"] is the literal read from [t]. *)
Lemma of_string_percent_body (t : string) :
  of_string (replace "," "." (string_of_list_ascii (lstrip_chars (chars t))))
  = of_string (replace "," "." t).
Proof.
  unfold of_string, replace. rewrite !chars_of_list.
  unfold replace_chars. rewrite <- lstrip_chars_map by apply comma_to_dot_space.
  by rewrite strip_chars_lstrip.
Qed.

Lemma digits_to_Z_acc ds acc :
  fold_left (fun acc a => 10 * acc + digit_val a) ds acc
  = acc * 10 ^ Z.of_nat (length ds) + digits_to_Z ds.
Proof.
  unfold digits_to_Z. revert acc. induction ds as [|a ds IH]; intros acc.
  - simpl. lia.
  - cbn [fold_left length]. rewrite IH, (IH (10 * 0 + digit_val a)).
    rewrite Nat2Z.inj_succ, Z.pow_succ_r by lia. ring.
Qed.

Lemma digit_val_nonneg a : is_digit a = true -> 0 <= digit_val a.
Proof. unfold is_digit, digit_val. intros [H1 _]%andb_true_iff. lia. Qed.

Lemma digits_to_Z_nonneg ds : all_digits ds = true -> 0 <= digits_to_Z ds.
Proof.
  unfold digits_to_Z.
  assert (forall acc, 0 <= acc -> all_digits ds = true ->
            0 <= fold_left (fun acc a => 10 * acc + digit_val a) ds acc) as Hgen.
  { induction ds as [|a ds IH]; intros acc Hacc Hall; simpl in *; [done|].
    apply andb_true_iff in Hall as [Ha Hall].
    apply IH; [|done]. pose proof (digit_val_nonneg a Ha). lia. }
  intros. apply Hgen; [|done]. lia.
Qed.

Lemma digit_val_le_9 a : is_digit a = true -> digit_val a <= 9.
Proof. unfold is_digit, digit_val. intros [_ H2]%andb_true_iff. lia. Qed.

Lemma digits_to_Z_cons a ds :
  digits_to_Z (a :: ds) = digit_val a * 10 ^ Z.of_nat (length ds) + digits_to_Z ds.
Proof.
  unfold digits_to_Z at 1. cbn [fold_left]. rewrite digits_to_Z_acc. lia.
Qed.

Lemma digits_to_Z_lt ds :
  all_digits ds = true -> digits_to_Z ds < 10 ^ Z.of_nat (length ds).
Proof.
  induction ds as [|a ds IH]; [done|]. simpl all_digits.
  intros [Ha Hds]%andb_true_iff. rewrite digits_to_Z_cons.
  cbn [length]. rewrite Nat2Z.inj_succ, Z.pow_succ_r by lia.
  pose proof (digit_val_le_9 a Ha). specialize (IH Hds).
  assert (0 < 10 ^ Z.of_nat (length ds)) by (apply Z.pow_pos_nonneg; lia). nia.
Qed.

(** The reading of the code is the positional value. *)
Lemma digits_to_Z_positional ds : digits_to_Z ds = positional ds.
Proof.
  induction ds as [|a ds IH]; [done|]. rewrite digits_to_Z_cons. simpl.
  by rewrite IH.
Qed.

Lemma ndigits_digits ds :
  all_digits ds = true -> ds <> [] -> ndigits (digits_to_Z ds) <= Z.of_nat (length ds).
Proof.
  intros Hds Hne. pose proof (digits_to_Z_nonneg ds Hds) as H0.
  destruct (Z.eq_dec (digits_to_Z ds) 0) as [->|Hnz].
  - change (ndigits 0) with 1. destruct ds; [done|]. cbn [length]. lia.
  - apply ndigits_le; [lia|]. by apply digits_to_Z_lt.
Qed.

Lemma span_digits_all l : all_digits (span_digits l).1 = true.
Proof.
  induction l as [|a l IH]; simpl; [done|].
  destruct (is_digit a) eqn:Ha; [|done].
  destruct (span_digits l) as [ds r]. simpl in *. by rewrite Ha.
Qed.

Lemma all_digits_app a b : all_digits (a ++ b) = all_digits a && all_digits b.
Proof. apply forallb_app. Qed.

(** The coefficient read from a literal is never negative. *)
Lemma of_string_coeff_nonneg t s c e :
  of_string t = Some (Finite s c e) -> 0 <= c.
Proof.
  unfold of_string. destruct (split_sign _) as [sg body].
  destruct (parse_finite body) as [[c0 e0]|] eqn:Hp.
  - destruct (representable c0 e0); [|done].
    intros [= <- <- <-]. unfold parse_finite in Hp.
    pose proof (span_digits_all body) as Hip.
    destruct (span_digits body) as [ip r1].
    assert (Hfp : forall fp r2,
              (fp, r2) = match r1 with
                         | a :: r => if decide (a = "."%char) then span_digits r else ([], r1)
                         | [] => ([], r1)
                         end -> all_digits fp = true).
    { intros fp r2 Heq. destruct r1 as [|a r]; [by injection Heq as -> _|].
      case_decide.
      - pose proof (span_digits_all r) as Hr. rewrite <- Heq in Hr. done.
      - by injection Heq as -> _. }
    destruct (match r1 with [] => _ | _ => _ end) as [fp r2].
    specialize (Hfp fp r2 eq_refl).
    destruct (ip ++ fp)%list as [|a l] eqn:Hds; [done|].
    destruct (parse_exponent r2); [|done].
    destruct (Z.of_nat (length fp) <=? MAX_PREC); [|done].
    injection Hp as <- _. apply digits_to_Z_nonneg.
    rewrite <- Hds, all_digits_app. simpl in Hip. by rewrite Hip, Hfp.
  - unfold parse_special. repeat case_decide; try done.
    destruct (strip_prefix (chars "nan") _); [by intros (? & _ & [=])%fmap_Some|].
    destruct (strip_prefix (chars "snan") _); [|done].
    by intros (? & _ & [=])%fmap_Some.
Qed.

(** The clamp of the code is the clamp of the numbers. *)
Lemma clamp01_finite s c e :
  0 <= c -> clamp01 (Finite s c e) = Ok (exact_clamp01 (Finite s c e)).
Proof.
  intros Hc. unfold clamp01, lt, gt, exact_clamp01, zero, one.
  cbn [is_nan orb mbind result_bind mret result_ret].
  rewrite (cmp_num_compare s c e false 0 0) by lia.
  destruct (num_compare (Finite s c e) (Finite false 0 0)) eqn:H0.
  - rewrite decide_False by done. cbn [is_nan orb].
    rewrite (cmp_num_compare s c e false 1 0) by lia.
    destruct (num_compare (Finite s c e) (Finite false 1 0)); reflexivity.
  - reflexivity.
  - rewrite decide_False by done. cbn [is_nan orb].
    rewrite (cmp_num_compare s c e false 1 0) by lia.
    destruct (num_compare (Finite s c e) (Finite false 1 0)); reflexivity.
Qed.

Lemma clamp01_finite_ok s c e : exists d, clamp01 (Finite s c e) = Ok d.
Proof.
  unfold clamp01, lt, gt. simpl is_nan. simpl orb. cbv iota.
  cbn [mbind result_bind mret result_ret].
  case_decide; simpl; eauto.
Qed.

(** The task's function is the script's function. *)
Lemma percent_str_to_decimal_dag_eq x :
  percent_str_to_decimal_dag x = percent_str_to_decimal x.
Proof.
  unfold percent_str_to_decimal_dag, percent_str_to_decimal.
  destruct (isna x); [done|]. case_decide; [done|].
  destruct (of_string _) as [p|]; [|done].
  destruct (truediv p hundred) as [d|]; [|done].
  cbn [mbind result_bind mret result_ret]. unfold clamp01.
  destruct (lt d zero) as [[]|]; cbn [mbind result_bind mret result_ret]; try done.
  destruct (gt d one) as [[]|]; done.
Qed.

(** *** Literals written with digits only *)

Lemma is_digit_plain a :
  is_digit a = true ->
  is_space a = false /\ a <> "_"%char /\ a <> "-"%char /\ a <> "+"%char
  /\ a <> "."%char /\ a <> ","%char.
Proof.
  unfold is_digit, is_space. intros [H1 H2]%andb_true_iff.
  repeat split; try (intros ->; vm_compute in H1, H2; lia).
  repeat (apply orb_false_iff; split); lia.
Qed.

Lemma lstrip_chars_nospace l :
  Forall (fun a => is_space a = false) l -> lstrip_chars l = l.
Proof. intros Hl. destruct Hl as [|a l Ha _]; simpl; [done|by rewrite Ha]. Qed.

Lemma strip_chars_nospace l :
  Forall (fun a => is_space a = false) l -> strip_chars l = l.
Proof.
  intros Hl. unfold strip_chars, rstrip_chars.
  rewrite (lstrip_chars_nospace l) by done.
  rewrite lstrip_chars_nospace by (by apply Forall_rev).
  apply rev_involutive.
Qed.

Lemma remove_chars_absent a l : Forall (fun c => c <> a) l -> remove_chars a l = l.
Proof.
  intros Hl. unfold remove_chars. induction Hl as [|c l Hc _ IH]; [done|].
  rewrite filter_cons_True by done. by rewrite IH.
Qed.

Lemma span_digits_app ip r :
  all_digits ip = true ->
  match r with a :: _ => is_digit a = false | [] => True end ->
  span_digits (ip ++ r) = (ip, r).
Proof.
  intros Hip Hr. induction ip as [|a ip IH]; simpl.
  - destruct r as [|b r]; [done|]. simpl. by rewrite Hr.
  - simpl in Hip. apply andb_true_iff in Hip as [Ha Hip].
    rewrite Ha, IH by done. done.
Qed.

Lemma all_digits_Forall ds : all_digits ds = true <-> Forall (fun a => is_digit a = true) ds.
Proof.
  unfold all_digits. induction ds as [|a ds IH]; simpl.
  - split; [constructor|done].
  - rewrite andb_true_iff, IH. split.
    + intros [??]. by constructor.
    + by inversion 1.
Qed.

(** A sign, digits, a point and digits: the coefficient is the number the
    digits spell and the exponent counts the digits after the point. *)
Lemma of_string_digits (neg : bool) (ip fp : list ascii) :
  all_digits ip = true -> all_digits fp = true -> ip <> [] ->
  Z.of_nat (length ip + length fp) <= MAX_PREC ->
  of_string (string_of_list_ascii
               ((if neg then ["-"%char] else []) ++ ip ++ "."%char :: fp))
  = Some (Finite neg (digits_to_Z (ip ++ fp)) (- Z.of_nat (length fp))).
Proof.
  intros Hip Hfp Hne Hlen.
  pose proof (proj1 (all_digits_Forall ip) Hip) as Fip.
  pose proof (proj1 (all_digits_Forall fp) Hfp) as Ffp.
  set (body := (ip ++ "."%char :: fp)%list).
  assert (Fbody : Forall (fun a => is_space a = false /\ a <> "_"%char) body).
  { unfold body. apply Forall_app. split.
    - eapply Forall_impl; [exact Fip|]. intros a Ha. by destruct (is_digit_plain a Ha) as (? & ? & _).
    - constructor; [done|].
      eapply Forall_impl; [exact Ffp|]. intros a Ha. by destruct (is_digit_plain a Ha) as (? & ? & _). }
  unfold of_string. unfold chars at 1. rewrite list_ascii_of_string_of_list_ascii.
  rewrite strip_chars_nospace.
  2:{ apply Forall_app. split; [destruct neg; repeat constructor|].
      eapply Forall_impl; [exact Fbody|]. by intros a [? _]. }
  rewrite remove_chars_absent.
  2:{ apply Forall_app. split; [destruct neg; repeat constructor; done|].
      eapply Forall_impl; [exact Fbody|]. by intros a [_ ?]. }
  assert (Hsplit : split_sign ((if neg then ["-"%char] else []) ++ body) = (neg, body)).
  { destruct neg; [done|]. simpl. unfold body.
    destruct ip as [|a ip]; [done|]. simpl.
    inversion Fip as [|? ? Ha _]; subst.
    destruct (is_digit_plain a Ha) as (_ & _ & Hm & Hp & _).
    rewrite !decide_False by done. done. }
  rewrite Hsplit. unfold parse_finite, body.
  rewrite span_digits_app by done.
  rewrite decide_True by done.
  replace fp with (fp ++ [])%list at 1 by apply app_nil_r.
  rewrite span_digits_app by done.
  assert (Hnd : ndigits (digits_to_Z (ip ++ fp)) <= Z.of_nat (length (ip ++ fp))).
  { apply ndigits_digits; [by rewrite all_digits_app, Hip, Hfp|by destruct ip]. }
  rewrite length_app in Hnd.
  assert (Hrep : representable (digits_to_Z (ip ++ fp)) (- Z.of_nat (length fp)) = true).
  { unfold representable, adjusted. unfold MIN_ETINY, MIN_EMIN, MAX_EMAX, MAX_PREC in *.
    rewrite !andb_true_iff, !Z.leb_le. lia. }
  clear Hnd.
  destruct (ip ++ fp)%list as [|a l] eqn:Hds.
  { apply app_eq_nil in Hds as [-> _]. done. }
  simpl parse_exponent. cbv iota. rewrite <- Hds in *.
  rewrite (proj2 (Z.leb_le _ _)) by lia.
  replace (0 - Z.of_nat (length fp)) with (- Z.of_nat (length fp)) by lia.
  by rewrite Hrep.
Qed.

(** *** The reader and the numeric strings *)

Lemma span_digits_spec l ip r :
  span_digits l = (ip, r) ->
  l = (ip ++ r)%list /\ all_digits ip = true /\
  match r with a :: _ => is_digit a = false | [] => True end.
Proof.
  revert ip r. induction l as [|a l IH]; intros ip r; simpl.
  - by intros [= <- <-].
  - destruct (is_digit a) eqn:Ha.
    + destruct (span_digits l) as [ds r'] eqn:Hs. intros [= <- <-].
      destruct (IH ds r' eq_refl) as (-> & Hds & Hr). simpl. by rewrite Ha.
    + intros [= <- <-]. simpl. done.
Qed.

Lemma split_sign_spec l neg body :
  split_sign l = (neg, body) ->
  exists sg, sign_text sg neg /\ l = (sg ++ body)%list.
Proof.
  unfold split_sign. destruct l as [|a r].
  - intros [= <- <-]. exists []. split; [constructor|done].
  - repeat case_decide; intros [= <- <-]; subst.
    + exists ["-"%char]. split; [constructor|done].
    + exists ["+"%char]. split; [constructor|done].
    + exists []. split; [constructor|done].
Qed.

Lemma split_sign_text sg neg body :
  sign_text sg neg ->
  match body with a :: _ => a <> "-"%char /\ a <> "+"%char | [] => True end ->
  split_sign (sg ++ body) = (neg, body).
Proof.
  intros Hsg Hb. destruct Hsg; [|done..]. simpl.
  destruct body as [|a r]; [done|]. simpl. destruct Hb as [H1 H2].
  by rewrite !decide_False.
Qed.

Lemma lower_e a : lower a = "e"%char <-> a = "e"%char \/ a = "E"%char.
Proof.
  split.
  - destruct a as [[] [] [] [] [] [] [] []]; vm_compute; intros [=]; auto.
  - by intros [->| ->].
Qed.

Lemma lower_digit a : is_digit (lower a) = true -> lower a = a /\ is_digit a = true.
Proof. destruct a as [[] [] [] [] [] [] [] []]; vm_compute; intros [=]; auto. Qed.

Lemma lower_of_digit a : is_digit a = true -> lower a = a.
Proof. destruct a as [[] [] [] [] [] [] [] []]; vm_compute; intros [=]; auto. Qed.

Lemma lower_digits ds : all_digits (map lower ds) = true -> map lower ds = ds /\ all_digits ds = true.
Proof.
  induction ds as [|a ds IH]; simpl; [done|].
  intros [Ha Hds]%andb_true_iff. destruct (lower_digit a Ha) as [-> Ha'].
  destruct (IH Hds) as [-> Hds']. by rewrite Ha', Hds'.
Qed.

Lemma lower_of_digits ds : all_digits ds = true -> map lower ds = ds.
Proof.
  induction ds as [|a ds IH]; simpl; [done|].
  intros [Ha Hds]%andb_true_iff. by rewrite (lower_of_digit a Ha), IH.
Qed.

Lemma digit_head ds : all_digits ds = true -> ds <> [] ->
  match ds with a :: _ => a <> "-"%char /\ a <> "+"%char | [] => True end.
Proof.
  destruct ds as [|a ds]; [done|]. simpl. intros [Ha _]%andb_true_iff _.
  by destruct (is_digit_plain a Ha) as (_ & _ & ? & ? & _).
Qed.

(** The exponent the reader finds is the exponent part of the syntax. *)
Lemma parse_exponent_spec r E : parse_exponent r = Some E <-> exponent_part r E.
Proof.
  split.
  - unfold parse_exponent. destruct r as [|ind r]; [intros [= <-]; constructor|].
    case_decide as Hind; [|done]. apply lower_e in Hind.
    destruct (split_sign r) as [neg ds] eqn:Hs.
    apply split_sign_spec in Hs as (sg & Hsg & ->).
    destruct ds as [|a ds]; [done|].
    destruct (all_digits (a :: ds)) eqn:Hds; [|done]. intros [= <-].
    rewrite digits_to_Z_positional. by constructor.
  - intros [|ind sg neg ds Hind Hsg Hds Hne]; [done|].
    unfold parse_exponent. rewrite decide_True by (by apply lower_e).
    rewrite (split_sign_text sg neg ds Hsg) by (by apply digit_head).
    destruct ds as [|a ds]; [done|]. rewrite Hds.
    by rewrite digits_to_Z_positional.
Qed.

Lemma exponent_head ex E :
  exponent_part ex E ->
  match ex with a :: _ => is_digit a = false /\ a <> "."%char | [] => True end.
Proof. intros [|ind sg neg ds [->| ->] _ _ _]; done. Qed.

(** The finite alternative of the reader is a decimal part followed by an
    exponent part. *)
Lemma parse_finite_spec body c e :
  parse_finite body = Some (c, e) <->
  exists dp ip fp ex E,
    body = (dp ++ ex)%list /\ decimal_part dp ip fp /\ exponent_part ex E /\
    Z.of_nat (length fp) <= MAX_PREC /\
    c = positional (ip ++ fp) /\ e = E - Z.of_nat (length fp).
Proof.
  split.
  - unfold parse_finite. destruct (span_digits body) as [ip r1] eqn:Hs.
    apply span_digits_spec in Hs as (-> & Hip & Hr1).
    assert (Hcase :
      (exists fp r2, r1 = ("."%char :: fp ++ r2)%list /\ all_digits fp = true /\
         span_digits (fp ++ r2) = (fp, r2) /\
         match r1 with
         | a :: r => if decide (a = "."%char) then span_digits r else ([], r1)
         | [] => ([], r1)
         end = (fp, r2)) \/
      (match r1 with a :: _ => a <> "."%char | [] => True end /\
       match r1 with
       | a :: r => if decide (a = "."%char) then span_digits r else ([], r1)
       | [] => ([], r1)
       end = ([], r1))).
    { destruct r1 as [|a r]; [by right|]. case_decide as Ha; [|by right].
      subst a. left. destruct (span_digits r) as [fp r2] eqn:Hs.
      pose proof Hs as Hs'. apply span_digits_spec in Hs' as (-> & Hfp & _).
      exists fp, r2. done. }
    destruct Hcase as [(fp & r2 & -> & Hfp & _ & ->)|[Hnp ->]].
    + destruct (ip ++ fp)%list as [|a l] eqn:Hds; [done|]. rewrite <- Hds.
      destruct (parse_exponent r2) as [E|] eqn:HE; [|done].
      apply parse_exponent_spec in HE.
      destruct (Z.of_nat (length fp) <=? MAX_PREC) eqn:Hlen; [|done].
      apply Z.leb_le in Hlen. intros [= <- <-].
      destruct ip as [|b ip].
      * simpl in Hds. exists ("."%char :: fp), [], fp, r2, E.
        rewrite digits_to_Z_positional.
        repeat split; try done. constructor; [done|by rewrite Hds].
      * exists ((b :: ip) ++ "."%char :: fp)%list, (b :: ip), fp, r2, E.
        rewrite digits_to_Z_positional.
        repeat split; try done; [by rewrite <- app_assoc|by constructor].
    + rewrite app_nil_r. destruct ip as [|b ip]; [done|].
      destruct (parse_exponent r1) as [E|] eqn:HE; [|done].
      apply parse_exponent_spec in HE. simpl length. intros [= <- <-].
      exists (b :: ip), (b :: ip), [], r1, E.
      rewrite app_nil_r, digits_to_Z_positional.
      repeat split; try done. by constructor.
  - intros (dp & ip & fp & ex & E & -> & Hdp & Hex & Hlen & -> & ->).
    pose proof (exponent_head ex E Hex) as Hhead.
    apply parse_exponent_spec in Hex. unfold parse_finite.
    assert (Hex' : match ex with a :: _ => is_digit a = false | [] => True end).
    { destruct ex; [done|]. by destruct Hhead. }
    destruct Hdp as [ip fp Hip Hfp Hne|fp Hfp Hne|ip Hip Hne].
    + rewrite <- app_assoc, <- app_comm_cons. rewrite span_digits_app by done.
      cbv beta iota. rewrite decide_True by done. rewrite span_digits_app by done.
      destruct (ip ++ fp)%list as [|a l] eqn:Hds; [by destruct ip|].
      rewrite <- Hds, Hex, (proj2 (Z.leb_le _ _)) by done.
      by rewrite digits_to_Z_positional.
    + simpl. rewrite span_digits_app by done.
      destruct fp as [|a fp]; [done|].
      rewrite Hex, (proj2 (Z.leb_le _ _)) by done.
      by rewrite digits_to_Z_positional.
    + rewrite span_digits_app by done.
      assert (Hfrac : match ex with
                      | a :: r => if decide (a = "."%char) then span_digits r else ([], ex)
                      | [] => ([], ex)
                      end = ([], ex)).
      { destruct ex as [|a r]; [done|]. destruct Hhead as [_ Ha].
        by rewrite decide_False. }
      rewrite Hfrac, app_nil_r. destruct ip as [|a ip]; [done|].
      rewrite Hex, (proj2 (Z.leb_le _ _)) by done.
      by rewrite digits_to_Z_positional.
Qed.

Lemma strip_prefix_spec p l r : strip_prefix p l = Some r <-> l = (p ++ r)%list.
Proof.
  revert l. induction p as [|a p IH]; intros l; simpl.
  - split; [by intros [= ->]|by intros ->].
  - destruct l as [|b l]; [done|]. case_decide as Hab.
    + subst b. rewrite IH. split; [by intros ->|by intros [= ->]].
    + split; [done|]. intros [= ? _]. done.
Qed.

Lemma parse_payload_spec ds p :
  parse_payload ds = Some p <->
  all_digits ds = true /\ ndigits (positional ds) <= MAX_PREC /\ p = positional ds.
Proof.
  unfold parse_payload. rewrite digits_to_Z_positional.
  destruct (all_digits ds); simpl; [|by split; [|intros [? _]]].
  destruct (ndigits (positional ds) <=? MAX_PREC) eqn:Hn.
  - apply Z.leb_le in Hn. split; [by intros [= <-]|by intros (_ & _ & ->)].
  - apply Z.leb_gt in Hn. split; [done|]. intros (_ & ? & _). lia.
Qed.

Lemma lower_letter a : letter (lower a) -> letter a.
Proof.
  unfold letter. destruct a as [[] [] [] [] [] [] [] []]; vm_compute;
    intros (? & ? & ? & ? & ? & ?); repeat split; done.
Qed.

Lemma lower_letters w p :
  map lower w = p -> Forall letter p -> Forall letter w.
Proof.
  intros <- Hp. induction w as [|a w IH]; [constructor|].
  simpl in Hp. inversion Hp; subst. constructor; [by apply lower_letter|auto].
Qed.

Lemma letters_inf : Forall letter (chars "inf") /\ Forall letter (chars "infinity")
  /\ Forall letter (chars "nan") /\ Forall letter (chars "snan").
Proof. repeat split; repeat constructor; done. Qed.

Lemma parse_finite_letter a r : letter a -> parse_finite (a :: r) = None.
Proof.
  intros (_ & _ & Hd & Hp & _). unfold parse_finite. simpl. rewrite Hd.
  by rewrite decide_False.
Qed.

Lemma letter_head a r :
  letter a -> match (a :: r) with b :: _ => b <> "-"%char /\ b <> "+"%char | [] => True end.
Proof. by intros (_ & _ & _ & _ & ? & ?). Qed.

(** The special alternative of the reader. *)
Lemma parse_special_spec sign body d :
  parse_special sign body = Some d <->
  ((map lower body = chars "inf" \/ map lower body = chars "infinity") /\ d = Infinity sign) \/
  (exists w ds, body = (w ++ ds)%list /\ map lower w = chars "nan" /\
     all_digits ds = true /\ ndigits (positional ds) <= MAX_PREC /\
     d = QNaN sign (positional ds)) \/
  (exists w ds, body = (w ++ ds)%list /\ map lower w = chars "snan" /\
     all_digits ds = true /\ ndigits (positional ds) <= MAX_PREC /\
     d = SNaN sign (positional ds)).
Proof.
  unfold parse_special. split.
  - case_decide as H1; [intros [= <-]; left; auto|].
    case_decide as H2; [intros [= <-]; left; auto|].
    destruct (strip_prefix (chars "nan") (map lower body)) as [ds'|] eqn:Hn.
    + apply strip_prefix_spec in Hn.
      apply map_eq_app in Hn as (w & ds & -> & Hw & Hds).
      intros (p & Hp & ->)%fmap_Some. apply parse_payload_spec in Hp as (Hall & Hnd & ->).
      rewrite <- Hds in Hall. destruct (lower_digits ds Hall) as [Heq Hall'].
      rewrite <- Hds, Heq in *. right. left. exists w, ds. done.
    + destruct (strip_prefix (chars "snan") (map lower body)) as [ds'|] eqn:Hs; [|done].
      apply strip_prefix_spec in Hs.
      apply map_eq_app in Hs as (w & ds & -> & Hw & Hds).
      intros (p & Hp & ->)%fmap_Some. apply parse_payload_spec in Hp as (Hall & Hnd & ->).
      rewrite <- Hds in Hall. destruct (lower_digits ds Hall) as [Heq Hall'].
      rewrite <- Hds, Heq in *. right. right. exists w, ds. done.
  - intros [[[H| H] ->]|[(w & ds & -> & Hw & Hds & Hnd & ->)|(w & ds & -> & Hw & Hds & Hnd & ->)]].
    + by rewrite H, decide_True.
    + rewrite H. by rewrite decide_False, decide_True.
    + rewrite map_app, Hw, (lower_of_digits ds Hds).
      rewrite decide_False by (intros [=]). rewrite decide_False by (intros [=]).
      rewrite (proj2 (strip_prefix_spec (chars "nan") _ ds)) by done.
      by rewrite (proj2 (parse_payload_spec ds (positional ds))).
    + rewrite map_app, Hw, (lower_of_digits ds Hds).
      rewrite decide_False by (intros [=]). rewrite decide_False by (intros [=]).
      assert (Hno : strip_prefix (chars "nan") (chars "snan" ++ ds) = None) by done.
      rewrite Hno.
      rewrite (proj2 (strip_prefix_spec (chars "snan") _ ds)) by done.
      by rewrite (proj2 (parse_payload_spec ds (positional ds))).
Qed.

Lemma decimal_part_head dp ip fp r :
  decimal_part dp ip fp ->
  match (dp ++ r)%list with a :: _ => a <> "-"%char /\ a <> "+"%char | [] => True end.
Proof.
  intros [ip' fp' Hip _ Hne|fp' _ _|ip' Hip Hne]; [| done |].
  - destruct ip' as [|a ip']; [done|]. simpl in *.
    apply andb_true_iff in Hip as [Ha _].
    by destruct (is_digit_plain a Ha) as (_ & _ & ? & ? & _).
  - destruct ip' as [|a ip']; [done|]. simpl in *.
    apply andb_true_iff in Hip as [Ha _].
    by destruct (is_digit_plain a Ha) as (_ & _ & ? & ? & _).
Qed.

(** The reader accepts the numeric strings of the documentation, within
    the limits of the module, and nothing else; what it returns is the
    Decimal the syntax gives. *)
Lemma of_string_numeric (s : string) (d : Decimal) :
  of_string s = Some d <->
  numeric_string (remove_chars "_"%char (strip_chars (chars s))) d.
Proof.
  unfold of_string. set (l := remove_chars "_"%char (strip_chars (chars s))).
  clearbody l. destruct (split_sign l) as [neg body] eqn:Hsplit. split.
  - apply split_sign_spec in Hsplit as (sg & Hsg & ->).
    destruct (parse_finite body) as [[c e]|] eqn:Hf.
    + destruct (representable c e) eqn:Hrep; [|done]. intros [= <-].
      apply parse_finite_spec in Hf
        as (dp & ip & fp & ex & E & -> & Hdp & Hex & Hlen & -> & ->).
      by constructor.
    + intros [[H ->]|[(w & ds & -> & Hw & Hds & Hnd & ->)|(w & ds & -> & Hw & Hds & Hnd & ->)]]%parse_special_spec.
      * by constructor.
      * by constructor.
      * by constructor.
  - intros Hns. destruct Hns as [sg neg' dp ip fp ex E Hsg Hdp Hex Hlen Hrep
                                |sg neg' w Hsg Hw|sg neg' w ds Hsg Hw Hds Hnd
                                |sg neg' w ds Hsg Hw Hds Hnd].
    + rewrite (split_sign_text sg neg' _ Hsg) in Hsplit
        by (by eapply decimal_part_head).
      injection Hsplit as <- <-.
      rewrite (proj2 (parse_finite_spec (dp ++ ex) _ _)) by eauto 12.
      by rewrite Hrep.
    + assert (Hl : Forall letter w).
      { destruct Hw as [Hw|Hw]; eapply lower_letters; try exact Hw; apply letters_inf. }
      destruct w as [|a w]; [by destruct Hw|]. inversion Hl; subst.
      rewrite (split_sign_text sg neg' _ Hsg) in Hsplit by (by apply letter_head).
      injection Hsplit as <- <-. rewrite parse_finite_letter by done.
      apply parse_special_spec. left. done.
    + assert (Hl : Forall letter w) by (eapply lower_letters; [exact Hw|apply letters_inf]).
      destruct w as [|a w]; [done|]. inversion Hl; subst.
      rewrite (split_sign_text sg neg' _ Hsg) in Hsplit by (by apply letter_head).
      injection Hsplit as <- <-. simpl app. rewrite parse_finite_letter by done.
      apply parse_special_spec. right. left. exists (a :: w), ds. done.
    + assert (Hl : Forall letter w) by (eapply lower_letters; [exact Hw|apply letters_inf]).
      destruct w as [|a w]; [done|]. inversion Hl; subst.
      rewrite (split_sign_text sg neg' _ Hsg) in Hsplit by (by apply letter_head).
      injection Hsplit as <- <-. simpl app. rewrite parse_finite_letter by done.
      apply parse_special_spec. right. right. exists (a :: w), ds. done.
Qed.

(** *** [to_decimal] *)

Lemma lstrip_chars_spaces ws l :
  Forall (fun a => is_space a = true) ws -> lstrip_chars (ws ++ l) = lstrip_chars l.
Proof. induction 1 as [|a ws Ha _ IH]; simpl; [done|]. by rewrite Ha. Qed.

(** Whitespace around a text without any is what [strip] removes. *)
Lemma strip_chars_around ws1 l ws2 :
  Forall (fun a => is_space a = true) ws1 ->
  Forall (fun a => is_space a = true) ws2 ->
  Forall (fun a => is_space a = false) l ->
  strip_chars (ws1 ++ l ++ ws2) = l.
Proof.
  intros H1 H2 Hl. unfold strip_chars. rewrite lstrip_chars_spaces by done.
  destruct l as [|a l].
  - simpl. rewrite <- (app_nil_r ws2), lstrip_chars_spaces by done. done.
  - inversion Hl as [|? ? Ha Hl']; subst. simpl. rewrite Ha.
    unfold rstrip_chars. change (a :: l ++ ws2)%list with ((a :: l) ++ ws2)%list.
    rewrite rev_app_distr, lstrip_chars_spaces by (by apply Forall_rev).
    rewrite lstrip_chars_nospace by (by apply Forall_rev).
    apply rev_involutive.
Qed.

Lemma digits_plain ds : all_digits ds = true -> Forall plain ds.
Proof.
  intros Hds%all_digits_Forall. eapply Forall_impl; [exact Hds|].
  intros a Ha. by destruct (is_digit_plain a Ha) as (? & ? & _).
Qed.

Lemma letters_plain w : Forall letter w -> Forall plain w.
Proof. intros Hw. eapply Forall_impl; [exact Hw|]. by intros a (? & ? & _). Qed.

Lemma sign_plain sg neg : sign_text sg neg -> Forall plain sg.
Proof. intros []; repeat constructor; done. Qed.

(** A numeric string has no whitespace and no underscore. *)
Lemma numeric_string_plain l d : numeric_string l d -> Forall plain l.
Proof.
  intros [sg neg dp ip fp ex E Hsg Hdp Hex _ _|sg neg w Hsg Hw
         |sg neg w ds Hsg Hw Hds _|sg neg w ds Hsg Hw Hds _].
  - apply Forall_app. split; [by eapply sign_plain|]. apply Forall_app. split.
    + destruct Hdp as [ip fp Hip Hfp _|fp Hfp _|ip Hip _].
      * apply Forall_app. split; [by apply digits_plain|].
        constructor; [done|by apply digits_plain].
      * constructor; [done|by apply digits_plain].
      * by apply digits_plain.
    + destruct Hex as [|ind sg' neg' ds [->| ->] Hsg' Hds _]; [constructor|..].
      * constructor; [done|]. apply Forall_app.
        split; [by eapply sign_plain|by apply digits_plain].
      * constructor; [done|]. apply Forall_app.
        split; [by eapply sign_plain|by apply digits_plain].
  - apply Forall_app. split; [by eapply sign_plain|]. apply letters_plain.
    destruct Hw as [Hw|Hw]; eapply lower_letters; try exact Hw; apply letters_inf.
  - apply Forall_app. split; [by eapply sign_plain|]. apply Forall_app.
    split; [|by apply digits_plain]. apply letters_plain.
    eapply lower_letters; [exact Hw|apply letters_inf].
  - apply Forall_app. split; [by eapply sign_plain|]. apply Forall_app.
    split; [|by apply digits_plain]. apply letters_plain.
    eapply lower_letters; [exact Hw|apply letters_inf].
Qed.

(** The reader on a numeric string with whitespace around it. *)
Lemma of_string_around ws1 l ws2 d :
  Forall (fun a => is_space a = true) ws1 ->
  Forall (fun a => is_space a = true) ws2 ->
  numeric_string l d ->
  of_string (string_of_list_ascii (ws1 ++ l ++ ws2)) = Some d.
Proof.
  intros H1 H2 Hl. apply of_string_numeric. rewrite chars_of_list.
  pose proof (numeric_string_plain l d Hl) as Hp.
  rewrite strip_chars_around; [|done|done|].
  - rewrite remove_chars_absent; [done|].
    eapply Forall_impl; [exact Hp|]. by intros a [_ ?].
  - eapply Forall_impl; [exact Hp|]. by intros a [? _].
Qed.

Lemma positional_app a b :
  positional (a ++ b) = positional a * 10 ^ Z.of_nat (length b) + positional b.
Proof.
  rewrite <- !digits_to_Z_positional. unfold digits_to_Z at 1.
  rewrite fold_left_app. fold (digits_to_Z a). apply digits_to_Z_acc.
Qed.

(** The Decimal read from a numeral is the number the numeral stands
    for. *)
Lemma value_denotation neg ip fp E :
  Qeq (value (Finite neg (positional (ip ++ fp)) (E - Z.of_nat (length fp))))
      (denotation neg ip fp E).
Proof.
  unfold value, denotation. rewrite positional_app.
  set (n := Z.of_nat (length fp)). set (P := positional ip). set (F := positional fp).
  assert (Hn : 0 <= n) by (unfold n; lia).
  pose proof (Qpower_ten_pos n) as Hpos.
  assert (Hnz : ~ Qeq (Qpower (inject_Z 10) n) (inject_Z 0)).
  { intros Heq. rewrite Heq in Hpos. by apply Qlt_irrefl in Hpos. }
  replace (E - n) with (E + - n) by lia.
  rewrite (Qpower_plus _ _ _ ten_not_0), Qpower_opp.
  assert (Hsg : Qeq (inject_Z (signed neg (P * 10 ^ n + F)))
                  (if neg
                   then Qopp (Qplus (Qmult (inject_Z P) (Qpower (inject_Z 10) n)) (inject_Z F))
                   else Qplus (Qmult (inject_Z P) (Qpower (inject_Z 10) n)) (inject_Z F))).
  { destruct neg; simpl signed.
    - rewrite inject_Z_opp, inject_Z_plus, inject_Z_mult, (Zpower_Qpower _ _ Hn).
      reflexivity.
    - rewrite inject_Z_plus, inject_Z_mult, (Zpower_Qpower _ _ Hn). reflexivity. }
  rewrite Hsg. destruct neg; field; exact Hnz.
Qed.

(** C9. [to_decimal] returns [Decimal("0")] for a missing value. For a
    value that is present it returns a Decimal exactly when the text of the
    value, without the whitespace around it and without underscores, is a
    numeric string of the documentation within the limits of the module,
    and the Decimal is the one the syntax gives; for a numeral with
    whitespace around it, this Decimal has the sign, the digits and the
    exponent that are written, and its value is the number written. It
    raises exactly when the value is present and its text is no such
    string, and what it raises is the [ValueError] that quotes the
    value. *)
Theorem to_decimal_spec :
  (forall x, isna x = true -> to_decimal x = Ok zero) /\
  (forall x d, isna x = false ->
     (to_decimal x = Ok d <->
      numeric_string (remove_chars "_"%char (strip_chars (chars (str x)))) d)) /\
  (forall (ws1 ws2 sg dp ip fp ex : list ascii) (neg : bool) (E : Z),
     Forall (fun a => is_space a = true) ws1 ->
     Forall (fun a => is_space a = true) ws2 ->
     sign_text sg neg -> decimal_part dp ip fp -> exponent_part ex E ->
     Z.of_nat (length fp) <= MAX_PREC ->
     representable (positional (ip ++ fp)) (E - Z.of_nat (length fp)) = true ->
     exists d,
       to_decimal (PyStr (string_of_list_ascii (ws1 ++ (sg ++ dp ++ ex) ++ ws2)%list))
       = Ok d /\
       d = Finite neg (positional (ip ++ fp)%list) (E - Z.of_nat (length fp)) /\
       Qeq (value d) (denotation neg ip fp E)) /\
  (forall x e, to_decimal x = Raise e <->
     (isna x = false /\
      (forall d, ~ numeric_string (remove_chars "_"%char (strip_chars (chars (str x)))) d) /\
      e = ValueError ("Invalid decimal value: " ++ str x))).
Proof.
  split; [|split; [|split]].
  - intros x Hx. unfold to_decimal. by rewrite Hx.
  - intros x d Hx. rewrite <- of_string_numeric. unfold to_decimal. rewrite Hx.
    destruct (of_string (str x)) as [d'|].
    + split; [by intros [= ->]|by intros [= ->]].
    + split; done.
  - intros ws1 ws2 sg dp ip fp ex neg E H1 H2 Hsg Hdp Hex Hlen Hrep.
    eexists. split; [|split; [reflexivity|apply value_denotation]].
    unfold to_decimal. simpl isna. cbv iota. simpl str.
    rewrite (of_string_around ws1 (sg ++ dp ++ ex) ws2
               (Finite neg (positional (ip ++ fp)) (E - Z.of_nat (length fp))) H1 H2);
      [done|]. by constructor.
  - intros x e. unfold to_decimal. destruct (isna x).
    + split; [done|]. by intros [? _].
    + destruct (of_string (str x)) as [d|] eqn:Hd.
      * split; [done|]. intros (_ & Hno & _). destruct (Hno d).
        by apply of_string_numeric.
      * split.
        -- intros [= <-]. split; [done|]. split; [|done].
           intros d Hn%of_string_numeric. congruence.
        -- by intros (_ & _ & ->).
Qed.

Lemma to_decimal_spec_witness :
  to_decimal PyNaN = Ok zero /\
  (exists d,
     to_decimal (PyStr " -12.50e1 ") = Ok d /\ d = Finite true 1250 (-1) /\
     Qeq (value d) (denotation true (chars "12") (chars "50") 1)) /\
  numeric_string (chars "+.5E-3") (Finite false 5 (-4)) /\
  to_decimal (PyStr "12,50") = Raise (ValueError "Invalid decimal value: 12,50").
Proof.
  destruct to_decimal_spec as (H1 & H2 & H3 & H4).
  split; [apply H1; reflexivity|].
  split.
  { apply (H3 [" "%char] [" "%char] ["-"%char] (chars "12.50") (chars "12") (chars "50")
              (chars "e1") true 1).
    - repeat constructor.
    - repeat constructor.
    - constructor.
    - apply (decimal_point (chars "12") (chars "50")); [reflexivity|reflexivity|discriminate].
    - apply (exponent_some "e"%char [] false (chars "1"));
        [by left|constructor|reflexivity|discriminate].
    - vm_compute. discriminate.
    - reflexivity. }
  split.
  { apply (H2 (PyStr "+.5E-3") (Finite false 5 (-4)) eq_refl). reflexivity. }
  apply H4. split; [reflexivity|]. split; [|reflexivity].
  intros d Hd. apply (H2 (PyStr "12,50") d eq_refl) in Hd. discriminate Hd.
Defined.

(** *** [percent_str_to_decimal] *)

Lemma percent_str_to_decimal_literal x p :
  isna x = false -> percent_body x <> "" ->
  of_string (replace "," "." (percent_body x)) = Some p ->
  percent_str_to_decimal x = d ← truediv p hundred; clamp01 d.
Proof.
  intros Hx Hb Hp. unfold percent_str_to_decimal.
  rewrite Hx, decide_False by done. by rewrite Hp.
Qed.

(** C3, as the code has it. Percent parsing returns a value for a missing
    or blank field and for every field whose text is the literal of a
    number: an infinity, or a finite number whose adjusted exponent is at
    most [Emax + 1]. On text that is not a literal it raises
    [InvalidOperation]. *)
Theorem percent_str_to_decimal_defined (x : pyval) :
  (isna x = true \/ percent_body x = "" ->
     percent_str_to_decimal x = Ok zero) /\
  (isna x = false -> percent_body x <> "" ->
   of_string (replace "," "." (percent_body x)) = None ->
     percent_str_to_decimal x = Raise InvalidOperation) /\
  (forall s c e, isna x = false -> percent_body x <> "" ->
   of_string (replace "," "." (percent_body x)) = Some (Finite s c e) ->
   e + ndigits c <= Emax + 2 ->
     exists d, percent_str_to_decimal x = Ok d) /\
  (forall s, isna x = false -> percent_body x <> "" ->
   of_string (replace "," "." (percent_body x)) = Some (Infinity s) ->
     exists d, percent_str_to_decimal x = Ok d).
Proof.
  repeat split.
  - intros [Hx|Hb]; unfold percent_str_to_decimal.
    + by rewrite Hx.
    + destruct (isna x); [done|]. by rewrite decide_True.
  - intros Hx Hb Hp. unfold percent_str_to_decimal.
    rewrite Hx, decide_False by done. by rewrite Hp.
  - intros s c e Hx Hb Hp Hr.
    rewrite (percent_str_to_decimal_literal x _ Hx Hb Hp).
    pose proof (of_string_coeff_nonneg _ _ _ _ Hp) as Hc.
    destruct (Z.eq_dec c 0) as [->|Hc0].
    + unfold truediv, hundred. simpl check_nans. cbv iota.
      change (100 =? 0) with false. change (0 =? 0) with true. cbv iota.
      unfold fix_finite. change (0 =? 0) with true. cbv iota.
      cbn [mbind result_bind]. apply clamp01_finite_ok.
    + destruct (truediv_hundred_ok s c e ltac:(lia) Hr) as (c' & e' & ->).
      cbn [mbind result_bind]. apply clamp01_finite_ok.
  - intros s Hx Hb Hp.
    rewrite (percent_str_to_decimal_literal x _ Hx Hb Hp).
    destruct s; vm_compute; eauto.
Qed.

Lemma percent_str_to_decimal_defined_witness :
  percent_str_to_decimal PyNaN = Ok zero /\
  percent_str_to_decimal (PyStr " % ") = Ok zero /\
  percent_str_to_decimal (PyStr "abc%") = Raise InvalidOperation /\
  (exists d, percent_str_to_decimal (PyStr "12,5 %") = Ok d) /\
  (exists d, percent_str_to_decimal (PyStr "inf") = Ok d).
Proof.
  split; [apply (percent_str_to_decimal_defined PyNaN); left; reflexivity|].
  split; [apply (percent_str_to_decimal_defined (PyStr " % ")); right; reflexivity|].
  split; [apply (percent_str_to_decimal_defined (PyStr "abc%")); [reflexivity|discriminate|reflexivity]|].
  split.
  - apply (percent_str_to_decimal_defined (PyStr "12,5 %")) with (s := false) (c := 125) (e := -1);
      [reflexivity|discriminate|reflexivity|vm_compute; discriminate].
  - apply (percent_str_to_decimal_defined (PyStr "inf")) with (s := false);
      [reflexivity|discriminate|reflexivity].
Defined.

(** C3 as the specification has it fails on text that is not a number. *)
Lemma percent_str_to_decimal_raises :
  ~ (forall x, exists d, percent_str_to_decimal x = Ok d).
Proof. intros H. destruct (H (PyStr "abc%")) as [d Hd]. vm_compute in Hd. discriminate. Qed.

Lemma exact_clamp01_zero_coeff s e :
  exact_clamp01 (Finite s 0 e) = Finite s 0 e.
Proof.
  unfold exact_clamp01, num_compare, zero, one.
  assert (Hs : signed s 0 = 0) by (by destruct s). rewrite Hs, !Z.mul_0_l.
  simpl signed. rewrite Z.compare_refl.
  assert (Hp : 0 < 10 ^ (0 - Z.min e 0)) by (apply Z.pow_pos_nonneg; lia).
  assert (Hlt : (0 ?= 1 * 10 ^ (0 - Z.min e 0)) = Lt) by (apply Z.compare_lt_iff; lia).
  by rewrite Hlt.
Qed.

(** The quotient and the clamp for a literal of at most 28 digits, on
    the numbers the Decimals denote. *)
Lemma percent_literal_exact (t : string) s c e :
  of_string (replace "," "." t) = Some (Finite s c e) ->
  ndigits c <= prec -> Etiny + 2 <= e -> e + ndigits c <= Emax + 3 ->
  exists d,
    percent_str_to_decimal (PyStr (t ++ "%")) = Ok d /\
    percent_str_to_decimal_dag (PyStr (t ++ "%")) = Ok d /\
    num_eq d (exact_clamp01 (exact_div100 (Finite s c e))).
Proof.
  intros Hp Hn Hlo Hhi.
  rewrite percent_str_to_decimal_dag_eq.
  assert (Hbody : percent_body (PyStr (t ++ "%")) <> "").
  { rewrite percent_body_percent. intros Hb.
    rewrite <- of_string_percent_body, Hb in Hp. vm_compute in Hp. done. }
  rewrite <- of_string_percent_body, <- percent_body_percent in Hp.
  rewrite (percent_str_to_decimal_literal (PyStr (t ++ "%")) _ eq_refl Hbody Hp).
  pose proof (of_string_coeff_nonneg _ _ _ _ Hp) as Hc.
  destruct (Z.eq_dec c 0) as [->|Hc0].
  - unfold truediv, hundred. simpl check_nans. cbv iota.
    change (100 =? 0) with false. change (0 =? 0) with true. cbv iota.
    unfold fix_finite. change (0 =? 0) with true. cbv iota.
    cbn [mbind result_bind]. rewrite clamp01_finite by lia.
    eexists. split; [reflexivity|]. split; [reflexivity|].
    unfold exact_div100. rewrite !exact_clamp01_zero_coeff.
    repeat split. unfold num_compare. destruct s; reflexivity.
  - destruct (truediv_hundred_exact s c e ltac:(lia) Hn Hlo Hhi)
      as (c' & e' & -> & Hc' & He' & Heq).
    cbn [mbind result_bind]. rewrite clamp01_finite by lia.
    eexists. split; [reflexivity|]. split; [reflexivity|].
    unfold exact_div100. rewrite <- Heq.
    replace e' with ((e - 2) + (e' - (e - 2))) at 1 by lia.
    apply exact_clamp01_rescale. lia.
Qed.

Lemma replace_chars_digits ds :
  all_digits ds = true -> replace_chars "," "." ds = ds.
Proof.
  intros Hds%all_digits_Forall. unfold replace_chars.
  induction Hds as [|a ds Ha _ IH]; [done|]. cbn [map]. rewrite IH.
  destruct (is_digit_plain a Ha) as (_ & _ & _ & _ & _ & Hc).
  by rewrite decide_False.
Qed.

(** The same for a literal written with digits around a point or a
    comma. *)
Lemma percent_digits_exact (neg : bool) (sep : ascii) (ip fp : list ascii) :
  sep = "."%char \/ sep = ","%char ->
  all_digits ip = true -> all_digits fp = true -> ip <> [] ->
  (length ip + length fp <= 28)%nat ->
  let t := string_of_list_ascii
             ((if neg then ["-"%char] else []) ++ ip ++ sep :: fp)%list in
  let p := Finite neg (digits_to_Z (ip ++ fp)%list) (- Z.of_nat (length fp)) in
  exists d,
    percent_str_to_decimal (PyStr (t ++ "%")) = Ok d /\
    percent_str_to_decimal_dag (PyStr (t ++ "%")) = Ok d /\
    num_eq d (exact_clamp01 (exact_div100 p)).
Proof.
  intros Hsep Hip Hfp Hne Hlen t p.
  assert (Hall : all_digits (ip ++ fp)%list = true) by (by rewrite all_digits_app, Hip, Hfp).
  assert (Hnd : ndigits (digits_to_Z (ip ++ fp)%list) <= Z.of_nat (length (ip ++ fp)%list)).
  { apply ndigits_digits; [done|]. by destruct ip. }
  rewrite length_app in Hnd.
  apply percent_literal_exact.
  - unfold t, replace. rewrite chars_of_list. unfold replace_chars.
    rewrite !map_app. cbn [map].
    fold (replace_chars "," "." ip). fold (replace_chars "," "." fp).
    rewrite !replace_chars_digits by done.
    assert (Hs : (if decide (sep = ","%char) then "."%char else sep) = "."%char).
    { destruct Hsep as [->| ->]; reflexivity. }
    rewrite Hs.
    assert (Hsg : map (fun c : ascii => if decide (c = ","%char) then "."%char else c)
                    (if neg then ["-"%char] else []) = (if neg then ["-"%char] else [])).
    { by destruct neg. }
    rewrite Hsg. apply of_string_digits; [done..|]. unfold MAX_PREC. lia.
  - unfold prec. lia.
  - unfold Etiny, Emin, prec. lia.
  - unfold Emax. lia.
Qed.

(** C4, as the code has it. For text ["t%"] where [t] is the literal of a
    finite number [p] of at most 28 significant digits (and an exponent
    the context can hold), with a point or a comma, both versions of the
    function return a finite Decimal whose value is [clamp(p / 100, 0, 1)];
    so it is for every [t] made of an optional minus sign and at most 28
    digits around a point or a comma; and ["150%"] gives 1, ["-5%"] gives
    0, an empty or missing field gives 0. *)
Theorem percent_str_to_decimal_exact :
  (forall (t : string) s c e,
     of_string (replace "," "." t) = Some (Finite s c e) ->
     ndigits c <= prec -> Etiny + 2 <= e -> e + ndigits c <= Emax + 3 ->
     exists d,
       percent_str_to_decimal (PyStr (t ++ "%")) = Ok d /\
       percent_str_to_decimal_dag (PyStr (t ++ "%")) = Ok d /\
       is_finite d = true /\
       Qeq (value d) (Qclamp01 (Qdiv (value (Finite s c e)) (inject_Z 100)))) /\
  (forall (neg : bool) (sep : ascii) (ip fp : list ascii),
     sep = "."%char \/ sep = ","%char ->
     all_digits ip = true -> all_digits fp = true -> ip <> [] ->
     (length ip + length fp <= 28)%nat ->
     let t := string_of_list_ascii
                ((if neg then ["-"%char] else []) ++ ip ++ sep :: fp)%list in
     let p := Finite neg (digits_to_Z (ip ++ fp)%list) (- Z.of_nat (length fp)) in
     exists d,
       percent_str_to_decimal (PyStr (t ++ "%")) = Ok d /\
       percent_str_to_decimal_dag (PyStr (t ++ "%")) = Ok d /\
       is_finite d = true /\
       Qeq (value d) (Qclamp01 (Qdiv (value p) (inject_Z 100)))) /\
  percent_str_to_decimal (PyStr "150%") = Ok one /\
  percent_str_to_decimal (PyStr "-5%") = Ok zero /\
  percent_str_to_decimal (PyStr "") = Ok zero /\
  percent_str_to_decimal PyNaN = Ok zero /\
  percent_str_to_decimal PyNone = Ok zero.
Proof.
  split; [|split; [|repeat split; reflexivity]].
  - intros t s c e Hp Hn Hlo Hhi.
    destruct (percent_literal_exact t s c e Hp Hn Hlo Hhi) as (d & H1 & H2 & H3).
    exists d. split; [done|]. split; [done|]. by apply num_eq_clamp_div100.
  - intros neg sep ip fp Hsep Hip Hfp Hne Hlen t p.
    destruct (percent_digits_exact neg sep ip fp Hsep Hip Hfp Hne Hlen) as (d & H1 & H2 & H3).
    exists d. split; [done|]. split; [done|]. by apply num_eq_clamp_div100.
Qed.

Lemma percent_str_to_decimal_exact_witness :
  (exists d,
     percent_str_to_decimal (PyStr "12,50%") = Ok d /\
     percent_str_to_decimal_dag (PyStr "12,50%") = Ok d /\
     is_finite d = true /\
     Qeq (value d) (Qclamp01 (Qdiv (value (Finite false 1250 (-2))) (inject_Z 100)))) /\
  (exists d,
     percent_str_to_decimal (PyStr "-7.5%") = Ok d /\
     percent_str_to_decimal_dag (PyStr "-7.5%") = Ok d /\
     is_finite d = true /\
     Qeq (value d) (Qclamp01 (Qdiv (value (Finite true 75 (-1))) (inject_Z 100)))).
Proof.
  split.
  - apply (proj1 percent_str_to_decimal_exact "12,50" false 1250 (-2));
      [reflexivity | vm_compute; discriminate | vm_compute; discriminate
      | vm_compute; discriminate].
  - apply (proj1 (proj2 percent_str_to_decimal_exact) true "."%char (chars "7") (chars "5"));
      [by left | reflexivity | reflexivity | discriminate | simpl; lia].
Defined.

(** C4 as the specification has it fails for a number of 29 significant
    digits: the quotient is rounded to 28. *)
Lemma percent_str_to_decimal_rounds :
  let t := "1.0000000000000000000000000001" in
  let p := Finite false 10000000000000000000000000001 (-28) in
  of_string (replace "," "." t) = Some p /\
  exists d, percent_str_to_decimal (PyStr (t ++ "%")) = Ok d /\
            ~ Qeq (value d) (Qclamp01 (Qdiv (value p) (inject_Z 100))).
Proof.
  split; [reflexivity|].
  exists (Finite false 1000000000000000000000000000 (-29)).
  split; [vm_compute; reflexivity|].
  intros H. vm_compute in H. discriminate.
Qed.

End NormalizerFacts.

Section GeneratedFacts.
Context {K : Type} `{Countable K}.
Implicit Types (t : gmap K Z) (k : K) (ks : list K).

Lemma next_id_above t : 1 <= next_id t /\ forall k id, t !! k = Some id -> id < next_id t.
Proof.
  unfold next_id.
  apply (map_fold_weak_ind (fun r (m : gmap K Z) =>
           1 <= r /\ forall k id, m !! k = Some id -> id < r)).
  - split; [lia|]. intros k id. by rewrite lookup_empty.
  - intros i x m r Hi [Hr IH]. split; [lia|].
    intros k id. rewrite lookup_insert. case_decide.
    + intros [= ->]. lia.
    + intros Hk. specialize (IH _ _ Hk). lia.
Qed.

Lemma next_id_fresh t k id : t !! k = Some id -> id <> next_id t.
Proof. intros Hk. pose proof (proj2 (next_id_above t) _ _ Hk). lia. Qed.

Lemma insert_do_nothing_present t k :
  is_Some (t !! k) -> insert_do_nothing t k = t.
Proof. intros [id Hid]. unfold insert_do_nothing. by rewrite Hid. Qed.

Lemma insert_do_nothing_keeps t k k' id :
  t !! k' = Some id -> insert_do_nothing t k !! k' = Some id.
Proof.
  intros Hk'. unfold insert_do_nothing. destruct (t !! k) eqn:Hk; [done|].
  rewrite lookup_insert_ne; [done|]. intros ->. congruence.
Qed.

Lemma insert_do_nothing_there t k : is_Some (insert_do_nothing t k !! k).
Proof.
  unfold insert_do_nothing. destruct (t !! k) eqn:Hk; [by rewrite Hk|].
  rewrite lookup_insert_eq. eauto.
Qed.

Lemma insert_do_nothing_other t k k' :
  k <> k' -> insert_do_nothing t k !! k' = t !! k'.
Proof.
  intros Hne. unfold insert_do_nothing. destruct (t !! k); [done|].
  by rewrite lookup_insert_ne.
Qed.

(** The rows already in the table stay as they are. *)
Lemma insert_values_keeps ks t k id :
  t !! k = Some id -> insert_values_do_nothing ks t !! k = Some id.
Proof.
  unfold insert_values_do_nothing. revert t.
  induction ks as [|k0 ks IH]; intros t Hk; simpl; [done|].
  apply IH. by apply insert_do_nothing_keeps.
Qed.

(** Every value of the statement has a row afterwards. *)
Lemma insert_values_there ks t k :
  k ∈ ks -> is_Some (insert_values_do_nothing ks t !! k).
Proof.
  unfold insert_values_do_nothing. revert t.
  induction ks as [|k0 ks IH]; intros t Hk; simpl.
  - by apply elem_of_nil in Hk.
  - apply elem_of_cons in Hk as [->|Hk]; [|by apply IH].
    destruct (insert_do_nothing_there t k0) as [id Hid].
    exists id. by apply (insert_values_keeps ks).
Qed.

(** The other rows of the table are not touched. *)
Lemma insert_values_other ks t k :
  k ∉ ks -> insert_values_do_nothing ks t !! k = t !! k.
Proof.
  unfold insert_values_do_nothing. revert t.
  induction ks as [|k0 ks IH]; intros t Hk; simpl; [done|].
  apply not_elem_of_cons in Hk as [Hne Hk].
  rewrite IH by done. by apply insert_do_nothing_other.
Qed.

(** A statement whose values all have a row changes nothing. *)
Lemma insert_values_present ks t :
  (forall k, k ∈ ks -> is_Some (t !! k)) -> insert_values_do_nothing ks t = t.
Proof.
  unfold insert_values_do_nothing. revert t.
  induction ks as [|k0 ks IH]; intros t Hall; simpl; [done|].
  rewrite insert_do_nothing_present by (apply Hall; left).
  apply IH. intros k Hk. apply Hall. by right.
Qed.

Lemma insert_values_idem ks t :
  insert_values_do_nothing ks (insert_values_do_nothing ks t)
  = insert_values_do_nothing ks t.
Proof. apply insert_values_present. intros k Hk. by apply insert_values_there. Qed.

(** A row the statement adds carries an id that no earlier row has. *)
Lemma insert_values_new ks t k id :
  t !! k = None -> insert_values_do_nothing ks t !! k = Some id ->
  forall k' id', t !! k' = Some id' -> id <> id'.
Proof.
  unfold insert_values_do_nothing. revert t.
  induction ks as [|k0 ks IH]; intros t Hnone Hk k' id' Hk'; simpl in *; [congruence|].
  destruct (decide (k0 = k)) as [->|Hne].
  - assert (Hins : insert_do_nothing t k = <[k:=next_id t]> t)
      by (unfold insert_do_nothing; by rewrite Hnone).
    rewrite Hins in Hk.
    pose proof (insert_values_keeps ks (<[k:=next_id t]> t) k (next_id t)) as Hkeep.
    unfold insert_values_do_nothing in Hkeep.
    rewrite Hkeep in Hk by apply lookup_insert_eq.
    injection Hk as <-. intros Heq. by apply (next_id_fresh _ _ _ Hk').
  - eapply (IH (insert_do_nothing t k0)); [|exact Hk|].
    + by rewrite insert_do_nothing_other.
    + by apply insert_do_nothing_keeps.
Qed.

(** No two rows share an id afterwards if none did before. *)

Lemma insert_do_nothing_unique t k : ids_unique t -> ids_unique (insert_do_nothing t k).
Proof.
  intros Hu. unfold insert_do_nothing. destruct (t !! k) eqn:Hk; [done|].
  intros k1 k2 id. rewrite !lookup_insert.
  repeat case_decide; subst; try done.
  - intros [= <-] H2. by destruct (next_id_fresh _ _ _ H2).
  - intros H1 [= <-]. by destruct (next_id_fresh _ _ _ H1).
  - apply Hu.
Qed.

Lemma insert_values_unique ks t :
  ids_unique t -> ids_unique (insert_values_do_nothing ks t).
Proof.
  unfold insert_values_do_nothing. revert t.
  induction ks as [|k0 ks IH]; intros t Hu; simpl; [done|].
  apply IH. by apply insert_do_nothing_unique.
Qed.

Lemma select_where_in_lookup ks t k :
  select_where_in ks t !! k = if decide (k ∈ ks) then t !! k else None.
Proof.
  unfold select_where_in. rewrite map_lookup_filter.
  destruct (t !! k) as [id|] eqn:Hk; simpl.
  - case_decide.
    + by rewrite option_guard_True.
    + by rewrite option_guard_False.
  - by case_decide.
Qed.

End GeneratedFacts.

Section KeyedFacts.
Context {V : Type}.
Implicit Types (t : gmap Z V) (rows : list (Z * V)).

(** After the rows of a statement, a key holds the last row proposed
    for it. *)
Lemma foldl_overwrite_union rows t :
  foldl overwrite t rows = list_to_map (reverse rows) ∪ t.
Proof.
  revert t. induction rows as [|r rows IH]; intros t; simpl.
  - by rewrite (left_id_L ∅ (∪)).
  - rewrite IH, reverse_cons, list_to_map_app. simpl.
    unfold overwrite. destruct r as [k x]. simpl.
    rewrite insert_empty, <- (assoc_L (∪)), <- insert_union_singleton_l.
    done.
Qed.

Lemma foldl_overwrite_idem rows t :
  foldl overwrite (foldl overwrite t rows) rows = foldl overwrite t rows.
Proof.
  rewrite !foldl_overwrite_union, (assoc_L (∪)). f_equal. apply (idemp_L (∪)).
Qed.

Lemma upsert_statement_again t rows t' :
  upsert_statement t rows = Ok t' ->
  forall t2, upsert_statement t2 rows = Ok (foldl overwrite t2 rows).
Proof. unfold upsert_statement. case_decide; done. Qed.

Lemma upsert_pages_fold t (ps : list (list (Z * V))) t' :
  upsert_pages t ps = Ok t' ->
  forall t2, upsert_pages t2 ps = Ok (foldl overwrite t2 (concat ps)).
Proof.
  revert t. induction ps as [|p ps IH]; intros t Hok t2; simpl in *; [done|].
  destruct (upsert_statement t p) as [t1|] eqn:Hp; [|done].
  rewrite (upsert_statement_again _ _ _ Hp t2).
  rewrite foldl_app. by eapply IH.
Qed.

(** Sending the same rows again leaves the table as it is. *)
Lemma upsert_overwrite_again rows t t' :
  upsert_overwrite rows t = Ok t' -> upsert_overwrite rows t' = Ok t'.
Proof.
  unfold upsert_overwrite. intros Hok.
  pose proof (upsert_pages_fold _ _ _ Hok t) as H1. rewrite Hok in H1.
  injection H1 as ->.
  rewrite (upsert_pages_fold _ _ _ Hok). by rewrite foldl_overwrite_idem.
Qed.

Lemma upsert_keyed_again rows t t' :
  upsert_keyed rows t = Ok (tt, t') -> upsert_keyed rows t' = Ok (tt, t').
Proof.
  unfold upsert_keyed. destruct (upsert_overwrite rows t) as [t1|] eqn:Hu; [|done].
  cbn. intros [= <-]. by rewrite (upsert_overwrite_again _ _ _ Hu).
Qed.

(** A statement with dates that goes through is the statement without
    them, and whether the dates can be read depends on the rows only. *)
Lemma upsert_statement_dated_inv readable t rows t' :
  upsert_statement_dated readable t rows = Ok t' ->
  forallb (fun r => readable r.2) rows = true /\ upsert_statement t rows = Ok t'.
Proof.
  unfold upsert_statement_dated. by destruct (forallb _ rows).
Qed.

Lemma upsert_pages_dated_inv readable t (ps : list (list (Z * V))) t' :
  upsert_pages_dated readable t ps = Ok t' ->
  Forall (fun p => forallb (fun r => readable r.2) p = true) ps /\
  upsert_pages t ps = Ok t'.
Proof.
  revert t. induction ps as [|p ps IH]; intros t; simpl; [by intros [= <-]|].
  destruct (upsert_statement_dated readable t p) as [t1|] eqn:Hp; [|done].
  apply upsert_statement_dated_inv in Hp as [Hr ->]. intros [Hps Hok]%IH.
  split; [by constructor|done].
Qed.

Lemma upsert_pages_dated_plain readable t (ps : list (list (Z * V))) :
  Forall (fun p => forallb (fun r => readable r.2) p = true) ps ->
  upsert_pages_dated readable t ps = upsert_pages t ps.
Proof.
  intros Hps. revert t. induction Hps as [|p ps Hp _ IH]; intros t; simpl; [done|].
  unfold upsert_statement_dated. rewrite Hp.
  destruct (upsert_statement t p); [apply IH|done].
Qed.

Lemma pages_aux_Forall {A} (P : A -> Prop) fuel (l : list A) :
  Forall P l -> Forall (Forall P) (pages_aux fuel l).
Proof.
  revert l. induction fuel as [|f IH]; intros l Hl; simpl; [constructor|].
  destruct l as [|a l']; [constructor|].
  constructor; [by apply Forall_take|]. apply IH. by apply Forall_drop.
Qed.

Lemma upsert_overwrite_dated_inv readable rows t t' :
  upsert_overwrite_dated readable rows t = Ok t' ->
  upsert_overwrite rows t = Ok t' /\
  forall t2, upsert_overwrite_dated readable rows t2 = upsert_overwrite rows t2.
Proof.
  unfold upsert_overwrite_dated, upsert_overwrite.
  intros [Hps Hok]%upsert_pages_dated_inv. split; [done|].
  intros t2. by apply upsert_pages_dated_plain.
Qed.

Lemma upsert_overwrite_dated_plain readable rows t :
  Forall (fun r => readable r.2 = true) rows ->
  upsert_overwrite_dated readable rows t = upsert_overwrite rows t.
Proof.
  intros Hrows. unfold upsert_overwrite_dated, upsert_overwrite.
  apply upsert_pages_dated_plain. unfold pages.
  eapply Forall_impl; [apply (pages_aux_Forall _ _ _ Hrows)|].
  intros p Hp. apply forallb_forall. intros r Hr.
  rewrite Forall_forall in Hp. apply Hp. by apply list_elem_of_In.
Qed.

Lemma upsert_keyed_dated_inv readable rows t u t' :
  upsert_keyed_dated readable rows t = Ok (u, t') ->
  upsert_keyed rows t = Ok (u, t') /\
  forall t2, upsert_keyed_dated readable rows t2 = upsert_keyed rows t2.
Proof.
  unfold upsert_keyed_dated, upsert_keyed.
  destruct (upsert_overwrite_dated readable rows t) as [t1|] eqn:Hu; [|done].
  apply upsert_overwrite_dated_inv in Hu as [Hu Hall]. cbn. intros [= <- <-].
  rewrite Hu. split; [done|]. intros t2. by rewrite Hall.
Qed.

Lemma upsert_keyed_dated_plain readable rows t :
  Forall (fun r => readable r.2 = true) rows ->
  upsert_keyed_dated readable rows t = upsert_keyed rows t.
Proof.
  intros Hrows. unfold upsert_keyed_dated, upsert_keyed.
  by rewrite upsert_overwrite_dated_plain.
Qed.

Lemma upsert_keyed_dated_again readable rows t t' :
  upsert_keyed_dated readable rows t = Ok (tt, t') ->
  upsert_keyed_dated readable rows t' = Ok (tt, t').
Proof.
  intros [Hok Hall]%upsert_keyed_dated_inv. rewrite Hall.
  by apply (upsert_keyed_again rows t).
Qed.

End KeyedFacts.

Section ResolverFacts.
Context `{External}.

Lemma resolve_values_again values t m t' :
  resolve_values values t = Ok (m, t') -> resolve_values values t' = Ok (m, t').
Proof.
  unfold resolve_values. case_bool_decide; [done|].
  cbv beta iota zeta. generalize (str <$> values). intros ks [= <- <-].
  by rewrite insert_values_idem.
Qed.

Lemma upsert_simple_dim_again values t m t' :
  upsert_simple_dim values t = Ok (m, t') -> upsert_simple_dim values t' = Ok (m, t').
Proof.
  unfold upsert_simple_dim.
  destruct (sorted_values _) as [vs|]; [|done]. cbn.
  destruct vs; [by intros [= <- <-]|]. apply resolve_values_again.
Qed.

Lemma upsert_simple_dim_dag_again values t m t' :
  upsert_simple_dim_dag values t = Ok (m, t') ->
  upsert_simple_dim_dag values t' = Ok (m, t').
Proof.
  unfold upsert_simple_dim_dag.
  destruct (merge_sort _ _); [by intros [= <- <-]|]. apply resolve_values_again.
Qed.

Lemma upsert_dim_campaign_again channel_map pairs t m t' :
  upsert_dim_campaign channel_map pairs t = Ok (m, t') ->
  upsert_dim_campaign channel_map pairs t' = Ok (m, t').
Proof.
  unfold upsert_dim_campaign.
  destruct (merge_sort _ _) as [|p l]; [by intros [= <- <-]|].
  cbv beta iota zeta. generalize (p :: l). intros ks [= <- <-].
  by rewrite insert_values_idem.
Qed.

End ResolverFacts.

Section TransactionFacts.
Context `{External}.

Lemma Tx_bind_inv {A B} (m : Tx A) (f : A -> Tx B) T b T' :
  (m ≫= f) T = Ok (b, T') ->
  exists a T1, m T = Ok (a, T1) /\ f a T1 = Ok (b, T').
Proof.
  unfold mbind, Tx_bind. destruct (m T) as [[a T1]|]; [|done]. eauto.
Qed.

Lemma Tx_bind_ok {A B} (m : Tx A) (f : A -> Tx B) T a T1 :
  m T = Ok (a, T1) -> (m ≫= f) T = f a T1.
Proof. unfold mbind, Tx_bind. by intros ->. Qed.

Lemma Tx_bind_raise {A B} (m : Tx A) (f : A -> Tx B) T e :
  m T = Raise e -> (m ≫= f) T = Raise e.
Proof. unfold mbind, Tx_bind. by intros ->. Qed.

Lemma lift_inv {A} (r : result A) T a T' :
  lift r T = Ok (a, T') -> r = Ok a /\ T' = T.
Proof. unfold lift. destruct r; [|done]. by intros [= -> ->]. Qed.

Lemma on_table_inv {A S} (get : Tables -> S) set (f : S -> result (A * S)) T a T' :
  on_table get set f T = Ok (a, T') ->
  exists t, f (get T) = Ok (a, t) /\ T' = set t T.
Proof.
  unfold on_table. destruct (f (get T)) as [[a' t]|]; [|done].
  intros [= -> <-]. eauto.
Qed.

(** A statement that changes nothing when it is sent again leaves any
    state alone in which its table already has the contents it
    produced. *)
Lemma on_table_again {A S} (get : Tables -> S) set (f : S -> result (A * S)) T a T' :
  (forall t T, get (set t T) = t) -> (forall T, set (get T) T = T) ->
  (forall s b s', f s = Ok (b, s') -> f s' = Ok (b, s')) ->
  on_table get set f T = Ok (a, T') ->
  forall T2, get T2 = get T' -> on_table get set f T2 = Ok (a, T2).
Proof.
  intros Hgs Hsg Hf Hon T2 HT2.
  apply on_table_inv in Hon as (t & Hft & ->).
  rewrite Hgs in HT2. unfold on_table. rewrite HT2, (Hf _ _ _ Hft).
  by rewrite <- HT2, Hsg.
Qed.

Lemma get_set_dim d t T : get_dim d (set_dim d t T) = t.
Proof. by destruct d. Qed.

Lemma set_get_dim d T : set_dim d (get_dim d T) T = T.
Proof. by destruct d, T. Qed.

Lemma resolve_simple_again v d values T m T' :
  resolve_simple v d values T = Ok (m, T') ->
  forall T2, get_dim d T2 = get_dim d T' ->
  resolve_simple v d values T2 = Ok (m, T2).
Proof.
  unfold resolve_simple. apply on_table_again.
  - apply get_set_dim.
  - apply set_get_dim.
  - destruct v; [apply upsert_simple_dim_again|apply upsert_simple_dim_dag_again].
Qed.

Lemma campaign_again channel_map pairs T m T' :
  on_table t_campaign set_campaign (upsert_dim_campaign channel_map pairs) T = Ok (m, T') ->
  forall T2, t_campaign T2 = t_campaign T' ->
  on_table t_campaign set_campaign (upsert_dim_campaign channel_map pairs) T2 = Ok (m, T2).
Proof.
  apply on_table_again; [done|by intros []|]. apply upsert_dim_campaign_again.
Qed.

Lemma keyed_again {V} (get : Tables -> gmap Z V) set rows T u T' :
  (forall t T, get (set t T) = t) -> (forall T, set (get T) T = T) ->
  on_table get set (upsert_keyed rows) T = Ok (u, T') ->
  forall T2, get T2 = get T' ->
  on_table get set (upsert_keyed rows) T2 = Ok (u, T2).
Proof.
  intros Hgs Hsg. apply on_table_again; [done|done|].
  intros s [] s'. apply upsert_keyed_again.
Qed.

Lemma keyed_dated_again {V} (get : Tables -> gmap Z V) set readable rows T u T' :
  (forall t T, get (set t T) = t) -> (forall T, set (get T) T = T) ->
  on_table get set (upsert_keyed_dated readable rows) T = Ok (u, T') ->
  forall T2, get T2 = get T' ->
  on_table get set (upsert_keyed_dated readable rows) T2 = Ok (u, T2).
Proof.
  intros Hgs Hsg. apply on_table_again; [done|done|].
  intros s [] s'. apply upsert_keyed_dated_again.
Qed.

(** The steps 3.1 and 3.2 touch the dimension tables only, the later
    steps one table each. *)
Lemma dimensions_again v df T m T' :
  dimensions v df T = Ok (m, T') ->
  forall T2,
    t_channel T2 = t_channel T' -> t_category T2 = t_category T' ->
    t_brand T2 = t_brand T' -> t_color T2 = t_color T' ->
    t_size T2 = t_size T' -> t_country T2 = t_country T' ->
    t_campaign T2 = t_campaign T' ->
    dimensions v df T2 = Ok (m, T2).
Proof.
  unfold dimensions. intros Hrun T2 H1 H2 H3 H4 H5 H6 H7.
  apply Tx_bind_inv in Hrun as (m1 & Ta & Ha & Hrun).
  apply Tx_bind_inv in Hrun as (m2 & Tb & Hb & Hrun).
  apply Tx_bind_inv in Hrun as (m3 & Tc & Hc & Hrun).
  apply Tx_bind_inv in Hrun as (m4 & Td & Hd & Hrun).
  apply Tx_bind_inv in Hrun as (m5 & Te & He & Hrun).
  apply Tx_bind_inv in Hrun as (m6 & Tf & Hf & Hrun).
  apply Tx_bind_inv in Hrun as (m7 & Tg & Hg & Hrun).
  injection Hrun as <- <-.
  pose proof Ha as Ha'. pose proof Hb as Hb'. pose proof Hc as Hc'.
  pose proof Hd as Hd'. pose proof He as He'. pose proof Hf as Hf'.
  pose proof Hg as Hg'.
  apply on_table_inv in Ha' as (ta & _ & ->).
  apply on_table_inv in Hb' as (tb & _ & ->).
  apply on_table_inv in Hc' as (tc & _ & ->).
  apply on_table_inv in Hd' as (td & _ & ->).
  apply on_table_inv in He' as (te & _ & ->).
  apply on_table_inv in Hf' as (tf & _ & ->).
  apply on_table_inv in Hg' as (tg & _ & ->).
  simpl in H1, H2, H3, H4, H5, H6, H7.
  rewrite (Tx_bind_ok _ _ _ _ _ (resolve_simple_again _ _ _ _ _ _ Ha T2 H1)).
  rewrite (Tx_bind_ok _ _ _ _ _ (resolve_simple_again _ _ _ _ _ _ Hb T2 H2)).
  rewrite (Tx_bind_ok _ _ _ _ _ (resolve_simple_again _ _ _ _ _ _ Hc T2 H3)).
  rewrite (Tx_bind_ok _ _ _ _ _ (resolve_simple_again _ _ _ _ _ _ Hd T2 H4)).
  rewrite (Tx_bind_ok _ _ _ _ _ (resolve_simple_again _ _ _ _ _ _ He T2 H5)).
  rewrite (Tx_bind_ok _ _ _ _ _ (resolve_simple_again _ _ _ _ _ _ Hf T2 H6)).
  rewrite (Tx_bind_ok _ _ _ _ _ (campaign_again _ _ _ _ _ Hg T2 H7)).
  reflexivity.
Qed.

Lemma dimensions_frame v df T m T' :
  dimensions v df T = Ok (m, T') ->
  t_customer T' = t_customer T /\ t_product T' = t_product T /\
  t_sale T' = t_sale T /\ t_sale_item T' = t_sale_item T.
Proof.
  unfold dimensions. intros Hrun.
  repeat (apply Tx_bind_inv in Hrun as (? & ? & ?Hs & Hrun)).
  injection Hrun as <- <-.
  repeat match goal with
         | Hs : on_table _ _ _ _ = Ok _ |- _ => apply on_table_inv in Hs as (? & _ & ->)
         | Hs : resolve_simple _ _ _ _ = Ok _ |- _ =>
             unfold resolve_simple in Hs; apply on_table_inv in Hs as (? & _ & ->)
         end.
  done.
Qed.

Lemma lift_bind_inv {A B} (r : result A) (f : A -> Tx B) T b T' :
  (lift r ≫= f) T = Ok (b, T') -> exists a, r = Ok a /\ f a T = Ok (b, T').
Proof.
  intros (a & T1 & [-> ->]%lift_inv & Hf)%Tx_bind_inv. eauto.
Qed.

Lemma lift_bind_ok {A B} (r : result A) (f : A -> Tx B) T a :
  r = Ok a -> (lift r ≫= f) T = f a T.
Proof. intros ->. done. Qed.

Lemma customers_again m df T u T' :
  customers m df T = Ok (u, T') ->
  (exists t, T' = set_customer t T) /\
  forall T2, t_customer T2 = t_customer T' -> customers m df T2 = Ok (u, T2).
Proof.
  unfold customers, upsert_dim_customer. intros Hrun. split.
  - apply on_table_inv in Hrun as (t & _ & ->). eauto.
  - eapply keyed_dated_again; [done|by intros []|exact Hrun].
Qed.

Lemma products_again v m df T u T' :
  products v m df T = Ok (u, T') ->
  (exists t, T' = set_product t T) /\
  forall T2, t_product T2 = t_product T' -> products v m df T2 = Ok (u, T2).
Proof.
  unfold products, upsert_dim_product.
  intros (rows & Hrows & Hrun)%lift_bind_inv. split.
  - apply on_table_inv in Hrun as (t & _ & ->). eauto.
  - intros T2 HT2. rewrite (lift_bind_ok _ _ _ _ Hrows).
    revert T2 HT2. eapply keyed_again; [done|by intros []|exact Hrun].
Qed.

Lemma sales_again v m df T u T' :
  sales v m df T = Ok (u, T') ->
  (exists t, T' = set_sale t T) /\
  forall T2, t_sale T2 = t_sale T' -> sales v m df T2 = Ok (u, T2).
Proof.
  unfold sales, upsert_fact_sale.
  intros (rows & Hrows & Hrun)%lift_bind_inv. split.
  - apply on_table_inv in Hrun as (t & _ & ->). eauto.
  - intros T2 HT2. rewrite (lift_bind_ok _ _ _ _ Hrows).
    revert T2 HT2. eapply keyed_dated_again; [done|by intros []|exact Hrun].
Qed.

Lemma items_again dfd T u T' :
  items dfd T = Ok (u, T') ->
  (exists t, T' = set_sale_item t T) /\
  forall T2, t_sale_item T2 = t_sale_item T' -> items dfd T2 = Ok (u, T2).
Proof.
  unfold items, upsert_fact_sale_item.
  intros (rows & Hrows & Hrun)%lift_bind_inv. split.
  - apply on_table_inv in Hrun as (t & _ & ->). eauto.
  - intros T2 HT2. rewrite (lift_bind_ok _ _ _ _ Hrows).
    revert T2 HT2. eapply keyed_again; [done|by intros []|exact Hrun].
Qed.

(** A transaction that went through changes nothing when it is run again
    on the tables it left. *)
Lemma transaction_again v dfd T u T' :
  transaction v dfd T = Ok (u, T') -> transaction v dfd T' = Ok (u, T').
Proof.
  unfold transaction. intros Hrun.
  apply Tx_bind_inv in Hrun as (m & Td & Hdim & Hrun).
  apply Tx_bind_inv in Hrun as (u1 & Tc & Hcust & Hrun).
  apply Tx_bind_inv in Hrun as (u2 & Tp & Hprod & Hrun).
  apply Tx_bind_inv in Hrun as (u3 & Ts & Hsale & Hitem).
  pose proof (dimensions_frame _ _ _ _ _ Hdim) as (Fd1 & Fd2 & Fd3 & Fd4).
  apply customers_again in Hcust as [(tc & ->) Hcust].
  apply products_again in Hprod as [(tp & ->) Hprod].
  apply sales_again in Hsale as [(ts & ->) Hsale].
  apply items_again in Hitem as [(ti & ->) Hitem].
  set (Tf := set_sale_item ti (set_sale ts (set_product tp (set_customer tc Td)))).
  rewrite (Tx_bind_ok _ _ _ _ _ (dimensions_again _ _ _ _ _ Hdim Tf
             eq_refl eq_refl eq_refl eq_refl eq_refl eq_refl eq_refl)).
  rewrite (Tx_bind_ok _ _ _ _ _ (Hcust Tf eq_refl)).
  rewrite (Tx_bind_ok _ _ _ _ _ (Hprod Tf eq_refl)).
  rewrite (Tx_bind_ok _ _ _ _ _ (Hsale Tf eq_refl)).
  by apply Hitem.
Qed.

End TransactionFacts.

Section RunFacts.
Context `{External}.

(** C1. Running the load a second time, right after the first, on the
    same extract and for the same date, leaves every table with the
    contents the first run left. *)
Theorem load_idempotent (v : variant) (run_dt : date) (csv : list Col.row)
    (w : World) :
  let w1 := (main v run_dt csv w).2 in
  tables (main v run_dt csv w1).2 = tables w1.
Proof.
  unfold main. destruct (filter_date run_dt csv) as [|r df]; [done|].
  destruct (apply _ _) as [decs|e]; [|done].
  destruct (transaction v _ (tables w)) as [[u T1]|e] eqn:Hrun;
    cbn [snd tables].
  - by rewrite (transaction_again _ _ _ _ _ Hrun).
  - by rewrite Hrun.
Qed.

(** C8. When no line of the extract has the run date, the run ends
    without an exception, no connection is opened and the tables are the
    ones it found; the task returns ["NO_DATA"]. *)
Theorem no_data_is_noop (v : variant) (run_dt : date) (csv : list Col.row)
    (w : World) :
  filter_date run_dt csv = [] ->
  main v run_dt csv w = (Return (no_data v), w) /\
  no_data Dag = PyStr "NO_DATA".
Proof. intros Hdf. unfold main. by rewrite Hdf. Qed.

End RunFacts.

Lemma no_data_is_noop_witness :
  main (H := Sample.external) Dag 20250617 Sample.two_items Sample.empty_world
  = (Return (PyStr "NO_DATA"), Sample.empty_world).
Proof.
  apply (no_data_is_noop (H := Sample.external) Dag 20250617 Sample.two_items
           Sample.empty_world).
  reflexivity.
Defined.

Section SortFacts.
Context {A B : Type} (f : A -> B).
Context (R : relation B) `{!RelDecision R}.
Context (R' : relation A) `{!RelDecision R'}.
Hypothesis R'_R : forall x y, R' x y <-> R (f x) (f y).

Lemma list_merge_fmap l1 l2 :
  f <$> list_merge R' l1 l2 = list_merge R (f <$> l1) (f <$> l2).
Proof.
  revert l2. induction l1 as [|x1 l1 IH1]; intros l2.
  - by destruct l2.
  - induction l2 as [|x2 l2 IH2]; [done|].
    rewrite !fmap_cons, !list_merge_cons.
    destruct (decide (R' x1 x2)) as [Hr|Hr], (decide (R (f x1) (f x2))) as [Hr'|Hr'].
    + rewrite fmap_cons. f_equal. apply (IH1 (x2 :: l2)).
    + by destruct Hr'; apply R'_R.
    + by destruct Hr; apply R'_R.
    + rewrite fmap_cons. f_equal. apply IH2.
Qed.

Lemma merge_list_to_stack_fmap st l :
  map (option_map (map f)) (merge_list_to_stack R' st l)
  = merge_list_to_stack R (map (option_map (map f)) st) (f <$> l).
Proof.
  revert l. induction st as [|[l'|] st IH]; intros l; cbn; [done| |done].
  f_equal. rewrite IH. f_equal. apply list_merge_fmap.
Qed.

Lemma merge_stack_fmap st :
  f <$> merge_stack R' st = merge_stack R (map (option_map (map f)) st).
Proof.
  induction st as [|[l|] st IH]; cbn; [done| |done].
  rewrite list_merge_fmap. by rewrite IH.
Qed.

Lemma merge_sort_aux_fmap st l :
  f <$> merge_sort_aux R' st l
  = merge_sort_aux R (map (option_map (map f)) st) (f <$> l).
Proof.
  revert st. induction l as [|x l IH]; intros st; cbn.
  - apply merge_stack_fmap.
  - rewrite IH. f_equal. apply (merge_list_to_stack_fmap st [x]).
Qed.

(** Sorting by the order of the images and taking the images commute. *)
Lemma merge_sort_fmap l : f <$> merge_sort R' l = merge_sort R (f <$> l).
Proof. apply (merge_sort_aux_fmap []). Qed.

End SortFacts.

Lemma remove_dups_fmap {A B} `{EqDecision A, EqDecision B} (f : A -> B) l :
  (forall x y, x ∈ l -> y ∈ l -> f x = f y -> x = y) ->
  f <$> remove_dups l = remove_dups (f <$> l).
Proof.
  induction l as [|x l IH]; intros Hinj; [done|]. cbn [remove_dups fmap list_fmap].
  assert (IH' : f <$> remove_dups l = remove_dups (f <$> l)).
  { apply IH. intros a b Ha Hb. apply Hinj; by right. }
  destruct (decide_rel elem_of x l) as [Hx|Hx],
           (decide_rel elem_of (f x) (f <$> l)) as [Hfx|Hfx].
  - done.
  - destruct Hfx. apply list_elem_of_fmap. eauto.
  - apply list_elem_of_fmap in Hfx as (y & Hxy & Hy).
    destruct Hx. rewrite (Hinj x y); [done|by left|by right|done].
  - cbn [fmap list_fmap]. by rewrite IH'.
Qed.

Section SimpleDimFacts.
Implicit Types (t : gmap string Z) (values : list pyval).

Lemma select_where_in_nil {K} `{Countable K} (t : gmap K Z) :
  select_where_in [] t = ∅.
Proof.
  apply map_eq. intros k. rewrite select_where_in_lookup, lookup_empty.
  case_decide as Hk; [by apply elem_of_nil in Hk|done].
Qed.

Lemma script_keys_elem values k :
  k ∈ script_keys values <-> exists x, x ∈ values /\ keep_value x = true /\ str x = k.
Proof.
  unfold script_keys. rewrite list_elem_of_fmap. split.
  - intros (x & -> & Hx). rewrite merge_sort_Permutation in Hx.
    apply elem_of_remove_dups, list_elem_of_filter in Hx as [Hk Hx].
    exists x. split; [done|]. split; [by apply Is_true_true|done].
  - intros (x & Hx & Hk & <-). exists x. split; [done|].
    rewrite merge_sort_Permutation. apply elem_of_remove_dups, list_elem_of_filter.
    split; [by apply Is_true_true|done].
Qed.

Lemma dag_keys_elem values k :
  k ∈ dag_keys values <-> exists x, x ∈ values /\ keep_value x = true /\ strip (str x) = k.
Proof.
  unfold dag_keys. rewrite merge_sort_Permutation, elem_of_remove_dups, list_elem_of_fmap.
  split.
  - intros (x & -> & [Hk Hx]%list_elem_of_filter).
    exists x. split; [done|]. split; [by apply Is_true_true|done].
  - intros (x & Hx & Hk & <-). exists x. split; [done|].
    apply list_elem_of_filter. split; [by apply Is_true_true|done].
Qed.

(** Without a NaN among the values the script's resolver sends its two
    statements with [script_keys]. *)
Lemma upsert_simple_dim_eq values t :
  PyNaN ∉ values ->
  upsert_simple_dim values t =
    Ok (select_where_in (script_keys values)
          (insert_values_do_nothing (script_keys values) t),
        insert_values_do_nothing (script_keys values) t).
Proof.
  intros Hnan. unfold upsert_simple_dim, script_keys, sorted_values.
  set (kept := remove_dups (filter keep_value values)).
  assert (Hk : PyNaN ∉ kept).
  { unfold kept. rewrite elem_of_remove_dups, list_elem_of_filter. tauto. }
  rewrite bool_decide_eq_false_2 by done. cbn [mbind result_bind].
  assert (Hs : PyNaN ∉ merge_sort pyval_le kept) by (by rewrite merge_sort_Permutation).
  destruct (merge_sort pyval_le kept) as [|x l] eqn:Hm.
  - cbn [fmap list_fmap]. by rewrite select_where_in_nil.
  - unfold resolve_values. by rewrite bool_decide_eq_false_2.
Qed.

Lemma upsert_simple_dim_dag_eq values t :
  upsert_simple_dim_dag values t =
    Ok (select_where_in (dag_keys values)
          (insert_values_do_nothing (dag_keys values) t),
        insert_values_do_nothing (dag_keys values) t).
Proof.
  unfold upsert_simple_dim_dag. fold (dag_keys values).
  destruct (dag_keys values) as [|x l] eqn:Hm.
  - by rewrite select_where_in_nil.
  - unfold resolve_values. rewrite bool_decide_eq_false_2.
    + assert (Hid : forall l : list string, str <$> (PyStr <$> l) = l).
      { intros l'. induction l' as [|y l' IH]; [done|]. cbn. by rewrite IH. }
      by rewrite Hid.
    + rewrite list_elem_of_fmap. by intros (? & ? & _).
Qed.

(** What the two statements do, for any list of keys: the rows of the
    table stay, every key has a row and is in the map with the id of
    that row, and the rows that were added have ids of their own. *)
Lemma resolve_keys_spec (keys : list string) t :
  let t' := insert_values_do_nothing keys t in
  let m := select_where_in keys t' in
  (forall k id, t !! k = Some id -> t' !! k = Some id) /\
  (forall k, k ∈ keys -> is_Some (m !! k)) /\
  (forall k id, m !! k = Some id -> k ∈ keys /\ t' !! k = Some id) /\
  (forall k id, t !! k = None -> t' !! k = Some id ->
     k ∈ keys /\ forall k' id', t !! k' = Some id' -> id <> id').
Proof.
  intros t' m. subst t' m. repeat split.
  - intros k id. apply insert_values_keeps.
  - intros k Hk. rewrite select_where_in_lookup, decide_True by done.
    by apply insert_values_there.
  - rewrite select_where_in_lookup in H. by case_decide.
  - rewrite select_where_in_lookup in H. by case_decide.
  - destruct (decide (k ∈ keys)) as [|Hn]; [done|].
    rewrite insert_values_other in H0 by done. congruence.
  - by eapply insert_values_new.
Qed.

End SimpleDimFacts.

Section SimpleDimTheorems.
Implicit Types (t : gmap string Z) (values : list pyval).

Lemma keep_value_text s : keep_value (PyStr s) = true <-> strip s <> "".
Proof.
  unfold keep_value. rewrite andb_true_iff, !bool_decide_eq_true. simpl.
  split; [by intros [_ ?]|by intros ?].
Qed.

Lemma script_keys_text values k :
  PyNaN ∉ values ->
  k ∈ script_keys values <-> PyStr k ∈ values /\ strip k <> "".
Proof.
  intros Hnan. rewrite script_keys_elem. split.
  - intros (x & Hx & Hk & <-). destruct x as [| |s]; [done|done|].
    simpl. split; [done|]. by apply keep_value_text.
  - intros [Hk Hs]. exists (PyStr k). split; [done|]. split; [|done].
    by apply keep_value_text.
Qed.

(** The part of C6 that holds: when the values are texts or [None], the
    keys of the map are the distinct values that are not blank, those
    already in the table as well as the new ones. *)
Lemma upsert_simple_dim_keys values t :
  PyNaN ∉ values ->
  exists m t',
    upsert_simple_dim values t = Ok (m, t') /\
    forall k, is_Some (m !! k) <-> PyStr k ∈ values /\ strip k <> "".
Proof.
  intros Hnan. rewrite upsert_simple_dim_eq by done.
  eexists _, _. split; [reflexivity|]. intros k.
  destruct (resolve_keys_spec (script_keys values) t) as (_ & H2 & H3 & _).
  rewrite <- script_keys_text by done. split.
  - intros [id Hid]. by destruct (H3 _ _ Hid).
  - apply H2.
Qed.

(** C6 at a missing cell. The float NaN that stands for an empty field is
    not [None] and its text ["nan"] is not blank: the script sends it to
    the database, where the SELECT fails, and the task adds the member
    ["nan"] to the dimension and returns it as a key. So it goes for a
    line of the extract whose country is empty. *)
Theorem upsert_simple_dim_keeps_nan :
  keep_value PyNaN = true /\
  (forall t,
     upsert_simple_dim [PyNaN] t
     = Raise (DatabaseError "operator does not exist: text = double precision")) /\
  (forall t, exists m t',
     upsert_simple_dim_dag [PyNaN] t = Ok (m, t') /\
     is_Some (m !! "nan") /\ is_Some (t' !! "nan")) /\
  (main (H := Sample.external) Script 20250616 Sample.missing_country
     Sample.empty_world).1
  = Raised (DatabaseError "operator does not exist: text = double precision") /\
  (exists w,
     main (H := Sample.external) Dag 20250616 Sample.missing_country
       Sample.empty_world = (Return (PyStr "OK:1"), w) /\
     t_country (tables w) !! "nan" = Some 1).
Proof.
  split; [reflexivity|]. split; [reflexivity|]. split.
  - intros t. rewrite upsert_simple_dim_dag_eq.
    assert (Hk : dag_keys [PyNaN] = ["nan"]) by (vm_compute; reflexivity).
    rewrite Hk. eexists _, _. split; [reflexivity|].
    destruct (resolve_keys_spec ["nan"] t) as (_ & H2 & H3 & _).
    destruct (H2 "nan" ltac:(by left)) as [id Hid].
    split; [by exists id|]. exists id. by destruct (H3 _ _ Hid).
  - split; [vm_compute; reflexivity|].
    eexists. split; [vm_compute; reflexivity|]. vm_compute. reflexivity.
Qed.




(** C10 at a value with spaces around it. The script keeps the value as
    it is, the task strips it: they insert different members and return
    different keys. *)
Theorem resolvers_differ_on_padding t :
  exists m1 t1 m2 t2,
    upsert_simple_dim [PyStr " Online "] t = Ok (m1, t1) /\
    upsert_simple_dim_dag [PyStr " Online "] t = Ok (m2, t2) /\
    is_Some (m1 !! " Online ") /\ m1 !! "Online" = None /\
    is_Some (m2 !! "Online") /\ m2 !! " Online " = None.
Proof.
  rewrite upsert_simple_dim_eq, upsert_simple_dim_dag_eq.
  2:{ intros Hin. apply elem_of_cons in Hin as [Hin|Hin]; [discriminate|].
      by apply elem_of_nil in Hin. }
  assert (Hs : script_keys [PyStr " Online "] = [" Online "]) by (vm_compute; reflexivity).
  assert (Hd : dag_keys [PyStr " Online "] = ["Online"]) by (vm_compute; reflexivity).
  rewrite Hs, Hd. eexists _, _, _, _. split; [reflexivity|]. split; [reflexivity|].
  destruct (resolve_keys_spec [" Online "] t) as (_ & Hs2 & _).
  destruct (resolve_keys_spec ["Online"] t) as (_ & Hd2 & _).
  split; [apply Hs2; by left|]. split.
  { rewrite select_where_in_lookup, decide_False; [done|].
    intros Hin. apply elem_of_cons in Hin as [Hin|Hin]; [discriminate|].
    by apply elem_of_nil in Hin. }
  split; [apply Hd2; by left|].
  rewrite select_where_in_lookup, decide_False; [done|].
  intros Hin. apply elem_of_cons in Hin as [Hin|Hin]; [discriminate|].
  by apply elem_of_nil in Hin.
Qed.

(** Where the two resolvers do agree: on values with no float among them
    and no space around them. *)
Lemma resolvers_agree_on_stripped values t :
  PyNaN ∉ values ->
  (forall s, PyStr s ∈ values -> strip s = s) ->
  upsert_simple_dim_dag values t = upsert_simple_dim values t.
Proof.
  intros Hnan Hstrip. rewrite upsert_simple_dim_eq, upsert_simple_dim_dag_eq by done.
  assert (Hk : dag_keys values = script_keys values); [|by rewrite Hk].
  unfold dag_keys, script_keys.
  set (L := filter keep_value values).
  assert (HL : forall x, x ∈ L -> exists s, x = PyStr s /\ strip s = s).
  { intros x [Hk Hx]%list_elem_of_filter. destruct x as [| |s]; [done|done|].
    exists s. split; [done|]. by apply Hstrip. }
  assert (Hmap : (fun v => strip (str v)) <$> L = str <$> L).
  { apply list_fmap_ext. intros i x Hx.
    destruct (HL x) as (s & -> & Hs); [by eapply list_elem_of_lookup_2|]. done. }
  rewrite Hmap, <- remove_dups_fmap.
  - symmetry. apply merge_sort_fmap. done.
  - intros x y Hx Hy Hxy. destruct (HL x Hx) as (sx & -> & _).
    destruct (HL y Hy) as (sy & -> & _). simpl in Hxy. by subst.
Qed.

End SimpleDimTheorems.

Section LoopFacts.

Lemma drop_duplicates_from_spec {A K} `{EqDecision K} (key : A -> K) seen l :
  NoDup (key <$> drop_duplicates_from key seen l) /\
  (forall x, x ∈ drop_duplicates_from key seen l -> (key x ∉ seen) /\ (x ∈ l)).
Proof.
  revert seen. induction l as [|x l IH]; intros seen; simpl.
  - split; [constructor|]. intros x Hx. by apply elem_of_nil in Hx.
  - case_decide as Hseen.
    + destruct (IH seen) as [Hnd Hin]. split; [done|].
      intros y Hy. destruct (Hin y Hy). split; [done|by right].
    + destruct (IH (key x :: seen)) as [Hnd Hin]. split.
      * rewrite fmap_cons. constructor; [|done].
        intros (y & Hxy & Hy)%list_elem_of_fmap.
        destruct (Hin y Hy) as [Hn _]. apply Hn. rewrite Hxy. by left.
      * intros y [->|Hy]%elem_of_cons; [split; [done|by left]|].
        destruct (Hin y Hy) as [Hn ?]. split; [|by right].
        intros Hs. apply Hn. by right.
Qed.

(** After [drop_duplicates(subset=[key])] no two lines share the key. *)
Lemma drop_duplicates_NoDup {A K} `{EqDecision K} (key : A -> K) l :
  NoDup (key <$> drop_duplicates key l).
Proof. apply drop_duplicates_from_spec. Qed.

(** The tuples a loop appends come from lines of the frame, in order. *)
Lemma for_each_keys {A B K} (f : A -> result (option B)) (g : A -> option K)
    (k : B -> K) l out :
  (forall x y, f x = Ok (Some y) -> g x = Some (k y)) ->
  for_each f l = Ok out -> NoDup (g <$> l) -> NoDup (k <$> out).
Proof.
  intros Hfg. revert out.
  assert (Hsub : forall l out, for_each f l = Ok out ->
            forall y, y ∈ out -> exists x, x ∈ l /\ g x = Some (k y)).
  { clear l. induction l as [|x l IH]; intros out Hout y Hy; simpl in Hout.
    - injection Hout as <-. by apply elem_of_nil in Hy.
    - destruct (f x) as [o|] eqn:Hfx; [|done].
      destruct (for_each f l) as [ys|] eqn:Hl; [|done].
      injection Hout as <-. destruct o as [y0|].
      + apply elem_of_cons in Hy as [->|Hy].
        * exists x. split; [by left|]. by apply Hfg.
        * destruct (IH ys eq_refl y Hy) as (x' & ? & ?). exists x'. split; [by right|done].
      + destruct (IH ys eq_refl y Hy) as (x' & ? & ?). exists x'. split; [by right|done]. }
  induction l as [|x l IH]; intros out Hout Hnd; simpl in Hout.
  - injection Hout as <-. constructor.
  - destruct (f x) as [o|] eqn:Hfx; [|done].
    destruct (for_each f l) as [ys|] eqn:Hl; [|done].
    injection Hout as <-. rewrite fmap_cons in Hnd. apply NoDup_cons in Hnd as [Hx Hnd].
    destruct o as [y0|]; [|by apply IH].
    rewrite fmap_cons. constructor; [|by apply IH].
    intros (y & Hky & Hy)%list_elem_of_fmap.
    destruct (Hsub l ys Hl y Hy) as (x' & Hx' & Hgx').
    apply Hx. apply list_elem_of_fmap. exists x'. split; [|done].
    rewrite (Hfg _ _ Hfx), Hky. done.
Qed.

Lemma for_each_raise_inv {A B} (f : A -> result (option B)) l e :
  for_each f l = Raise e -> exists x, x ∈ l /\ f x = Raise e.
Proof.
  induction l as [|x l IH]; simpl; [done|].
  destruct (f x) as [o|e'] eqn:Hfx.
  - destruct (for_each f l) as [ys|e'] eqn:Hl; [done|].
    intros [= ->]. destruct (IH eq_refl) as (x' & ? & ?). exists x'. split; [by right|done].
  - intros [= ->]. exists x. split; [by left|done].
Qed.

(** A loop that raises stops at the first line whose body raises. *)
Lemma for_each_raise_first {A B} (f : A -> result (option B)) l e :
  for_each f l = Raise e ->
  exists l1 x l2, l = (l1 ++ x :: l2)%list /\ f x = Raise e /\
                  forall y, y ∈ l1 -> exists o, f y = Ok o.
Proof.
  induction l as [|x l IH]; simpl; [done|].
  destruct (f x) as [o|e'] eqn:Hfx.
  - destruct (for_each f l) as [ys|e'] eqn:Hl; [done|].
    intros [= ->]. destruct (IH eq_refl) as (l1 & x' & l2 & -> & Hx' & Hl1).
    exists (x :: l1), x', l2. split; [done|]. split; [done|].
    intros y [->|Hy]%elem_of_cons; eauto.
  - intros [= ->]. exists [], x, l. split; [done|]. split; [done|].
    by intros y ?%elem_of_nil.
Qed.

Lemma for_each_ok_inv {A B} (f : A -> result (option B)) l out :
  for_each f l = Ok out -> forall x, x ∈ l -> exists o, f x = Ok o.
Proof.
  revert out. induction l as [|x l IH]; intros out Hout y Hy; simpl in Hout.
  - by apply elem_of_nil in Hy.
  - destruct (f x) as [o|] eqn:Hfx; [|done].
    destruct (for_each f l) as [ys|] eqn:Hl; [|done].
    apply elem_of_cons in Hy as [->|Hy]; [eauto|]. by eapply IH.
Qed.

Lemma apply_length {A B} (f : A -> result B) l out :
  apply f l = Ok out -> length out = length l.
Proof.
  revert out. induction l as [|x l IH]; intros out; simpl.
  - by intros [= <-].
  - destruct (f x); [|done]. destruct (apply f l) as [ys|]; [|done].
    intros [= <-]. simpl. f_equal. by apply IH.
Qed.

End LoopFacts.

Section RowFacts.
Context `{External}.

(** The part of C5 that holds: the sale tuples and the item tuples carry
    each key once. *)
Lemma sale_rows_keys_NoDup v campaign_map df rows :
  sale_rows v campaign_map df = Ok rows -> NoDup rows.*1.
Proof.
  unfold sale_rows. intros Hrows.
  eapply (for_each_keys _ Col.sale_id fst); [|exact Hrows|apply drop_duplicates_NoDup].
  intros r y. unfold sale_tuple.
  destruct (Col.sale_id r), (Col.customer_id r); try done.
  destruct (campaign_map !! _); [|done]. by intros [= <-].
Qed.

Lemma item_rows_keys_NoDup dfd rows :
  item_rows dfd = Ok rows -> NoDup rows.*1.
Proof.
  unfold item_rows. intros Hrows.
  eapply (for_each_keys _ (fun rd => Col.item_id rd.1) fst);
    [|exact Hrows|apply drop_duplicates_NoDup].
  intros [r d] y. unfold item_tuple. simpl.
  destruct (Col.item_id r), (Col.sale_id r), (Col.product_id r); try done.
  destruct (int_of _); [|done]. cbn. destruct (to_float d); [|done].
  cbn. by intros [= <-].
Qed.

End RowFacts.

(** C5 at two lines of one customer with different addresses, and at two
    lines of one product with different prices. The customer and the
    product lines are de-duplicated as whole lines, not on their key: both
    lines reach the upsert, and the statement is refused. *)
Theorem customers_keep_duplicate_keys :
  (forall country_map,
     (cust_rows (H := Sample.external) country_map Sample.two_addresses).*1 = [7; 7]) /\
  (main (H := Sample.external) Script 20250616 Sample.two_addresses
     Sample.empty_world).1
  = Raised (DatabaseError
              "ON CONFLICT DO UPDATE command cannot affect row a second time") /\
  (exists rows,
     prod_rows (H := Sample.external) Script ∅ ∅ ∅ ∅ Sample.two_prices = Ok rows /\
     rows.*1 = [100; 100]) /\
  (main (H := Sample.external) Script 20250616 Sample.two_prices
     Sample.empty_world).1
  = Raised (DatabaseError
              "ON CONFLICT DO UPDATE command cannot affect row a second time").
Proof.
  split; [intros country_map; vm_compute; reflexivity|].
  split; [vm_compute; reflexivity|].
  split; [|vm_compute; reflexivity].
  eexists. split; vm_compute; reflexivity.
Qed.

Section FatalPath.
Context `{External}.

Lemma sale_tuple_raise v campaign_map r e :
  sale_tuple v campaign_map r = Raise e <->
  unmapped_sale campaign_map r /\ e = missing_campaign v r.
Proof.
  unfold sale_tuple, unmapped_sale.
  destruct (Col.sale_id r) as [sid|], (Col.customer_id r) as [cid|].
  2:{ split; [done|]. by intros [(_ & []%is_Some_None & _) _]. }
  2:{ split; [done|]. by intros [([]%is_Some_None & _) _]. }
  2:{ split; [done|]. by intros [([]%is_Some_None & _) _]. }
  destruct (campaign_map !! _) eqn:Hc.
  - split; [done|]. by intros [(_ & _ & ?) _].
  - split.
    + intros [= <-]. eauto.
    + by intros [_ ->].
Qed.

(** The sale loop stops at the first unmapped line, and only there. *)
Lemma sale_rows_raise v campaign_map df r :
  r ∈ drop_duplicates Col.sale_id df -> unmapped_sale campaign_map r ->
  exists l1 r' l2,
    drop_duplicates Col.sale_id df = (l1 ++ r' :: l2)%list /\
    (forall x, x ∈ l1 -> ~ unmapped_sale campaign_map x) /\
    unmapped_sale campaign_map r' /\
    sale_rows v campaign_map df = Raise (missing_campaign v r').
Proof.
  intros Hr Hun. unfold sale_rows.
  destruct (for_each _ _) as [rows|e] eqn:Hfe.
  - destruct (for_each_ok_inv _ _ _ Hfe r Hr) as [o Ho].
    assert (Hraise : sale_tuple v campaign_map r = Raise (missing_campaign v r))
      by (by apply sale_tuple_raise).
    congruence.
  - destruct (for_each_raise_first _ _ _ Hfe) as (l1 & r' & l2 & Hl & He & Hl1).
    apply sale_tuple_raise in He as [Hun' ->]. exists l1, r', l2.
    split; [done|]. split; [|done]. intros x Hx Hux.
    destruct (Hl1 x Hx) as [o Ho].
    assert (Hraise : sale_tuple v campaign_map x = Raise (missing_campaign v x))
      by (by apply sale_tuple_raise).
    congruence.
Qed.

Lemma zip_apply_fst {B} (f : Col.row -> result B) df decs :
  apply f df = Ok decs -> (zip df decs).*1 = df.
Proof. intros Hlen%apply_length. apply fst_zip. lia. Qed.

(** C2, as the code has it. When a sale line that is not skipped has no
    id for its campaign pair in the map the run resolved, the run raises
    and the transaction is rolled back: the tables are those found before
    the run. What is raised (wrapped by the task) is the exception of the
    customer step when that step fails, else the exception of the product
    step when that step fails, else the missing-campaign error of the
    first sale line without an id. *)
Theorem missing_campaign_rolls_back (v : variant) (run_dt : date)
    (csv : list Col.row) (w : World) decs m Td r :
  let df := filter_date run_dt csv in
  apply (fun r => percent v (cell (Col.discount_percent r))) df = Ok decs ->
  dimensions v df (tables w) = Ok (m, Td) ->
  r ∈ drop_duplicates Col.sale_id df -> unmapped_sale (campaign_map m) r ->
  exists e,
    main v run_dt csv w
    = (Raised (reraise v e),
       {| tables := tables w; trace := trace w ++ [Connect; Rollback; Close] |}) /\
    (forall e1, customers m df Td = Raise e1 -> e = e1) /\
    (forall Tc e2,
       customers m df Td = Ok (tt, Tc) -> products v m df Tc = Raise e2 -> e = e2) /\
    (forall Tc Tp,
       customers m df Td = Ok (tt, Tc) -> products v m df Tc = Ok (tt, Tp) ->
       exists l1 r' l2,
         drop_duplicates Col.sale_id df = (l1 ++ r' :: l2)%list /\
         (forall x, x ∈ l1 -> ~ unmapped_sale (campaign_map m) x) /\
         unmapped_sale (campaign_map m) r' /\ e = missing_campaign v r').
Proof.
  intros df Hdecs Hdim Hr Hun. unfold main. fold df.
  destruct df as [|r0 df0] eqn:Hdf.
  { unfold drop_duplicates in Hr. simpl in Hr. by apply elem_of_nil in Hr. }
  rewrite Hdecs.
  destruct (sale_rows_raise v _ _ _ Hr Hun) as (l1 & r' & l2 & Hl & Hl1 & Hun' & Hsale).
  assert (Htx : exists e, transaction v (zip (r0 :: df0) decs) (tables w) = Raise e /\
            (forall e1, customers m (r0 :: df0) Td = Raise e1 -> e = e1) /\
            (forall Tc e2, customers m (r0 :: df0) Td = Ok (tt, Tc) ->
               products v m (r0 :: df0) Tc = Raise e2 -> e = e2) /\
            (forall Tc Tp, customers m (r0 :: df0) Td = Ok (tt, Tc) ->
               products v m (r0 :: df0) Tc = Ok (tt, Tp) -> e = missing_campaign v r')).
  { unfold transaction. rewrite (zip_apply_fst _ _ _ Hdecs).
    rewrite (Tx_bind_ok _ _ _ _ _ Hdim).
    destruct (customers m (r0 :: df0) Td) as [[[] Tc]|e] eqn:Hc.
    2:{ exists e. split; [by apply Tx_bind_raise|]. split; [congruence|].
        split; intros; congruence. }
    rewrite (Tx_bind_ok _ _ _ _ _ Hc).
    destruct (products v m (r0 :: df0) Tc) as [[[] Tp]|e] eqn:Hp.
    2:{ exists e. split; [by apply Tx_bind_raise|]. split; [congruence|].
        split; intros ?? [= <-]; congruence. }
    rewrite (Tx_bind_ok _ _ _ _ _ Hp).
    exists (missing_campaign v r'). split; [|split; [congruence|split; [|done]]].
    - apply Tx_bind_raise. unfold sales. apply Tx_bind_raise.
      unfold lift. by rewrite Hsale.
    - intros ?? [= <-]. congruence. }
  destruct Htx as (e & -> & He1 & He2 & He3). exists e. split; [done|].
  split; [done|]. split; [done|].
  intros Tc Tp Hc Hp. exists l1, r', l2. rewrite (He3 _ _ Hc Hp). done.
Qed.

End FatalPath.

Lemma missing_campaign_rolls_back_witness :
  exists e,
    main (H := Sample.external) Script 20250616 Sample.blank_channel
      Sample.empty_world
    = (Raised e,
       {| tables := Sample.empty_tables; trace := [Connect; Rollback; Close] |}).
Proof.
  destruct (missing_campaign_rolls_back (H := Sample.external) Script 20250616
              Sample.blank_channel Sample.empty_world
              [Finite false 125 (-3)]
              {| channel_map := ∅; category_map := {["Shoes" := 1]};
                 brand_map := {["Acme" := 1]}; color_map := {["Red" := 1]};
                 size_map := {["M" := 1]}; country_map := {["France" := 1]};
                 campaign_map := ∅ |}
              (set_dim dim_country {["France" := 1]}
                 (set_dim dim_size {["M" := 1]}
                    (set_dim dim_color {["Red" := 1]}
                       (set_dim dim_brand {["Acme" := 1]}
                          (set_dim dim_category {["Shoes" := 1]}
                             Sample.empty_tables)))))
              (Sample.line (Some "  ") (Some "Spring Sale") (Some 7)
                 (Some "ada@example.org") (Some 100) (Some "31.50") (Some 1)
                 (Some 11) (Some "12.50%")))
    as (e & He & _).
  - vm_compute. reflexivity.
  - vm_compute. reflexivity.
  - vm_compute. left.
  - split; [by eexists|]. split; [by eexists|]. vm_compute. reflexivity.
  - exists e. exact He.
Defined.

(** C2 as the specification has it fails when an earlier step fails
    first: here the sale line has no campaign id, and the exception that
    leaves the run comes from the cost price. *)
Lemma missing_campaign_not_always_reported :
  let df := filter_date (H := Sample.external) 20250616 Sample.blank_channel_bad_price in
  exists m Td r,
    dimensions (H := Sample.external) Script df Sample.empty_tables = Ok (m, Td) /\
    r ∈ drop_duplicates Col.sale_id df /\
    unmapped_sale (campaign_map m) r /\
    (main (H := Sample.external) Script 20250616 Sample.blank_channel_bad_price
       Sample.empty_world).1
    = Raised (ValueError "Invalid decimal value: abc").
Proof.
  eexists _, _, _. split; [vm_compute; reflexivity|].
  split; [vm_compute; left|].
  split; [|vm_compute; reflexivity].
  split; [by eexists|]. split; [by eexists|]. vm_compute. reflexivity.
Qed.

(** * Further properties of the loader *)

(** ** The normalizer, further *)

Section PercentRange.

Lemma strip_zeros_nonneg fuel coeff exp ideal :
  0 <= coeff -> 0 <= (strip_zeros fuel coeff exp ideal).1.
Proof.
  revert coeff exp. induction fuel as [|f IH]; intros coeff exp Hc; simpl; [done|].
  destruct (_ && _); [|done]. apply IH. by apply Z.div_pos.
Qed.

Lemma fix_finite_nonneg s c e d :
  0 <= c -> fix_finite s c e = Ok d ->
  exists c' e', d = Finite s c' e' /\ 0 <= c'.
Proof.
  intros Hc. unfold fix_finite.
  destruct (c =? 0); [intros [= <-]; eexists _, _; split; [done|lia]|].
  destruct (_ >? Etop); [done|].
  set (exp_min := if _ <? Etiny then Etiny else _).
  destruct (e <? exp_min); [|intros [= <-]; eauto].
  set (ce := if _ <? 0 then _ else _).
  assert (Hce : 0 <= ce.1) by (subst ce; destruct (_ <? 0); simpl; lia).
  destruct ce as [c1 e1]. simpl in Hce.
  set (q := c1 / 10 ^ (exp_min - e1)).
  assert (Hq : 0 <= q).
  { apply Z_div_nonneg_nonneg; [done|]. apply Z.pow_nonneg. lia. }
  destruct (round_half_even _ _ _ >? 0).
  - destruct (ndigits (q + 1) >? prec).
    + destruct (_ >? Etop); [done|]. intros [= <-]. eexists _, _. split; [done|].
      apply Z_div_nonneg_nonneg; lia.
    + destruct (_ >? Etop); [done|]. intros [= <-]. eexists _, _. split; [done|lia].
  - destruct (_ >? Etop); [done|]. intros [= <-]. eauto.
Qed.

(** The quotient of a literal by [Decimal("100")] is an infinity, a NaN,
    or a finite number with a coefficient that is not negative. *)
Lemma truediv_hundred_nonneg p d :
  (forall s c e, p = Finite s c e -> 0 <= c) ->
  truediv p hundred = Ok d ->
  match d with
  | Finite _ c _ => 0 <= c
  | Infinity _ => True
  | _ => is_nan d = true
  end.
Proof.
  intros Hp. destruct p as [s c e|s|s n|s n].
  - specialize (Hp s c e eq_refl). unfold truediv, hundred. simpl check_nans. cbv iota.
    change (100 =? 0) with false. cbv iota.
    destruct (c =? 0) eqn:Hc0.
    + intros (c' & e' & -> & Hc')%fix_finite_nonneg; done.
    + set (shift := _ - _ + prec + 1).
      set (cr := if 0 <=? shift then _ else _).
      assert (Hcr : 0 <= cr.1).
      { subst cr. destruct (0 <=? shift); simpl.
        - apply Z_div_nonneg_nonneg; [|lia]. apply Z.mul_nonneg_nonneg; [done|].
          apply Z.pow_nonneg. lia.
        - apply Z_div_nonneg_nonneg; [done|]. apply Z.mul_nonneg_nonneg; [lia|].
          apply Z.pow_nonneg. lia. }
      destruct cr as [coeff remainder]. simpl in Hcr.
      set (ce := if remainder =? 0 then _ else _).
      assert (Hce : 0 <= ce.1).
      { subst ce. destruct (remainder =? 0).
        - by apply strip_zeros_nonneg.
        - destruct (coeff mod 5 =? 0); cbn [fst]; lia. }
      destruct ce as [coeff' exp']. simpl in Hce.
      intros (c' & e' & -> & Hc')%fix_finite_nonneg; done.
  - unfold truediv, hundred. simpl. by intros [= <-].
  - unfold truediv, hundred. simpl. by intros [= <-].
  - unfold truediv, hundred. simpl. done.
Qed.

Lemma Qclamp01_range q :
  Qle (inject_Z 0) (Qclamp01 q) /\ Qle (Qclamp01 q) (inject_Z 1).
Proof.
  unfold Qclamp01.
  destruct (Qlt_le_dec q (inject_Z 0)); [split; discriminate|].
  destruct (Qlt_le_dec (inject_Z 1) q); [split; discriminate|done].
Qed.

(** What the two comparisons leave of a quotient. *)
Lemma clamp01_range q d :
  match q with Finite _ c _ => 0 <= c | _ => True end ->
  clamp01 q = Ok d ->
  is_finite d = true /\ Qle (inject_Z 0) (value d) /\ Qle (value d) (inject_Z 1).
Proof.
  destruct q as [s c e|[]|s n|s n]; intros Hc.
  - rewrite clamp01_finite by done. intros [= <-]. split.
    + unfold exact_clamp01. by repeat case_match.
    + rewrite value_exact_clamp01. apply Qclamp01_range.
  - vm_compute. intros [= <-]. repeat split; discriminate.
  - vm_compute. intros [= <-]. repeat split; discriminate.
  - done.
  - done.
Qed.

(** X1. The value [percent_str_to_decimal] returns, in either file and for
    any input at all, is a finite number between 0 and 1: never a NaN, an
    infinity, a negative number or a number above 1. *)
Theorem percent_in_unit_interval (v : variant) (x : pyval) (d : Decimal) :
  percent v x = Ok d ->
  is_finite d = true /\ Qle (inject_Z 0) (value d) /\ Qle (value d) (inject_Z 1).
Proof.
  assert (Hz : is_finite zero = true /\ Qle (inject_Z 0) (value zero)
               /\ Qle (value zero) (inject_Z 1)) by (repeat split; discriminate).
  assert (Hs : percent v x = percent_str_to_decimal x).
  { destruct v; [done|apply percent_str_to_decimal_dag_eq]. }
  rewrite Hs. unfold percent_str_to_decimal.
  destruct (isna x); [by intros [= <-]|].
  case_decide; [by intros [= <-]|].
  destruct (of_string _) as [p|] eqn:Hp; [|done].
  destruct (truediv p hundred) as [q|] eqn:Hq; [|done].
  cbn [mbind result_bind]. apply clamp01_range.
  pose proof (truediv_hundred_nonneg p q) as Hn.
  destruct q; [|done..]. apply Hn; [|done].
  intros s c e ->. by eapply of_string_coeff_nonneg.
Qed.

Lemma percent_in_unit_interval_witness :
  is_finite one = true /\ Qle (inject_Z 0) (value one) /\ Qle (value one) (inject_Z 1).
Proof.
  apply (percent_in_unit_interval Dag (PyStr "1e400 %")). vm_compute. reflexivity.
Defined.

End PercentRange.

Section PercentText.
Context `{External}.

Lemma lstrip_chars_head l :
  match lstrip_chars l with a :: _ => is_space a = false | [] => True end.
Proof.
  induction l as [|a l IH]; simpl; [done|].
  destruct (is_space a) eqn:Ha; [done|]. by rewrite Ha.
Qed.

Lemma rstrip_chars_cons a l :
  is_space a = false -> rstrip_chars (a :: l) = a :: rstrip_chars l.
Proof.
  intros Ha. unfold rstrip_chars. simpl rev.
  rewrite lstrip_chars_snoc by done. rewrite rev_app_distr. done.
Qed.

Lemma rstrip_chars_idem l : rstrip_chars (rstrip_chars l) = rstrip_chars l.
Proof. unfold rstrip_chars. by rewrite rev_involutive, lstrip_chars_idem. Qed.

Lemma strip_chars_idem l : strip_chars (strip_chars l) = strip_chars l.
Proof.
  unfold strip_chars. pose proof (lstrip_chars_head l) as Hh.
  destruct (lstrip_chars l) as [|a l1]; [done|].
  rewrite rstrip_chars_cons by done. simpl lstrip_chars. rewrite Hh.
  by rewrite rstrip_chars_cons, rstrip_chars_idem.
Qed.

Lemma strip_idem s : strip (strip s) = strip s.
Proof. unfold strip. by rewrite list_ascii_of_string_of_list_ascii, strip_chars_idem. Qed.

Lemma strip_chars_nil l : strip_chars l = [] <-> lstrip_chars l = [].
Proof.
  unfold strip_chars. pose proof (lstrip_chars_head l) as Hh.
  destruct (lstrip_chars l) as [|a l1]; [done|].
  by rewrite rstrip_chars_cons.
Qed.

Lemma rstrip_chars_map f l :
  (forall a, is_space (f a) = is_space a) ->
  rstrip_chars (map f l) = map f (rstrip_chars l).
Proof.
  intros Hf. unfold rstrip_chars.
  by rewrite <- map_rev, lstrip_chars_map, map_rev.
Qed.

Lemma strip_chars_map f l :
  (forall a, is_space (f a) = is_space a) ->
  strip_chars (map f l) = map f (strip_chars l).
Proof.
  intros Hf. unfold strip_chars. by rewrite lstrip_chars_map, rstrip_chars_map.
Qed.

Lemma string_of_chars_inj l1 l2 :
  string_of_list_ascii l1 = string_of_list_ascii l2 -> l1 = l2.
Proof.
  intros Heq. rewrite <- (list_ascii_of_string_of_list_ascii l1).
  rewrite Heq. apply list_ascii_of_string_of_list_ascii.
Qed.

(** The literal read from text is the literal read from the stripped
    text. *)
Lemma of_string_strip (s : string) :
  of_string (replace "," "." (strip s)) = of_string (replace "," "." s).
Proof.
  unfold of_string, replace, strip. rewrite !chars_of_list.
  unfold replace_chars, chars.
  rewrite !strip_chars_map by apply comma_to_dot_space.
  by rewrite strip_chars_idem.
Qed.

(** [percent_str_to_decimal] as a function of the text that is left. *)
Lemma percent_of_body (s : string) :
  percent_str_to_decimal (PyStr s) =
    if decide (percent_body (PyStr s) = "") then Ok zero
    else match of_string (replace "," "." (percent_body (PyStr s))) with
         | None => Raise InvalidOperation
         | Some p => d ← truediv p hundred; clamp01 d
         end.
Proof. reflexivity. Qed.

Lemma replace_chars_comma_idem l :
  replace_chars "," "." (replace_chars "," "." l) = replace_chars "," "." l.
Proof.
  unfold replace_chars. rewrite map_map. apply map_ext. intros a.
  destruct (decide (a = ","%char)) as [->|Ha]; [done|]. by rewrite decide_False.
Qed.

Lemma percent_body_comma (s : string) :
  percent_body (PyStr (replace "," "." s)) = replace "," "." (percent_body (PyStr s)).
Proof.
  unfold percent_body, endswith, drop_last, strip, replace. simpl str.
  rewrite !chars_of_list. unfold replace_chars, chars.
  rewrite strip_chars_map by apply comma_to_dot_space.
  set (l := strip_chars (list_ascii_of_string s)).
  assert (He : endswith_chars "%" (map (fun c => if decide (c = ","%char) then "."%char else c) l)
               = endswith_chars "%" l).
  { unfold endswith_chars. rewrite <- map_rev. destruct (rev l) as [|b r]; [done|].
    simpl. destruct (decide (b = ","%char)) as [->|Hb]; done. }
  rewrite He. destruct (endswith_chars "%" l).
  - rewrite !chars_of_list. f_equal. unfold drop_last_chars.
    rewrite <- map_rev. destruct (rev l) as [|b r]; [done|]. simpl.
    by rewrite map_rev.
  - by rewrite !chars_of_list.
Qed.

(** X2. A percentage is read the same with or without blanks around it,
    with a decimal comma or a decimal point, and with or without its
    percent sign. *)
Theorem percent_ignores_decoration (s : string) :
  percent_str_to_decimal (PyStr (strip s)) = percent_str_to_decimal (PyStr s) /\
  percent_str_to_decimal (PyStr (replace "," "." s)) = percent_str_to_decimal (PyStr s) /\
  (endswith (strip s) "%" = false ->
   percent_str_to_decimal (PyStr (s ++ "%")) = percent_str_to_decimal (PyStr s)).
Proof.
  split; [|split].
  - rewrite !percent_of_body. unfold percent_body. simpl str. by rewrite strip_idem.
  - rewrite !percent_of_body, percent_body_comma.
    set (b := percent_body (PyStr s)).
    assert (Hr : replace "," "." (replace "," "." b) = replace "," "." b).
    { unfold replace. by rewrite chars_of_list, replace_chars_comma_idem. }
    rewrite Hr.
    destruct (decide (b = "")) as [->|Hb]; [done|].
    rewrite decide_False; [done|]. intros Hb'. apply Hb.
    unfold replace in Hb'. apply (string_of_chars_inj _ []) in Hb'.
    unfold replace_chars in Hb'. apply map_eq_nil in Hb'.
    rewrite <- (string_of_list_ascii_of_string b). unfold chars in Hb'. by rewrite Hb'.
  - intros He. rewrite !percent_of_body, percent_body_percent.
    rewrite of_string_percent_body.
    assert (Hb : percent_body (PyStr s) = strip s).
    { unfold percent_body. simpl str. by rewrite He. }
    rewrite Hb, of_string_strip.
    destruct (decide (strip s = "")) as [Hs|Hs].
    + rewrite decide_True; [done|].
      unfold strip in Hs. apply (string_of_chars_inj _ []) in Hs.
      apply strip_chars_nil in Hs. unfold chars. by rewrite Hs.
    + rewrite decide_False; [done|]. intros Hl. apply Hs.
      apply (string_of_chars_inj _ []) in Hl. unfold strip.
      apply strip_chars_nil in Hl. unfold chars in Hl. by rewrite Hl.
Qed.

Lemma apply_ext {A B} (f g : A -> result B) l :
  (forall x, f x = g x) -> apply f l = apply g l.
Proof.
  intros Hfg. induction l as [|x l IH]; [done|]. simpl. by rewrite Hfg, IH.
Qed.

(** X3. The two files compute the same [discount_percent_dec] column:
    [percent_str_to_decimal] of the task returns and raises what that of
    the script does, on every input. *)
Theorem percent_variants_agree :
  (forall x, percent_str_to_decimal_dag x = percent_str_to_decimal x) /\
  (forall df : list Col.row,
     apply (fun r => percent Dag (cell (Col.discount_percent r))) df
     = apply (fun r => percent Script (cell (Col.discount_percent r))) df).
Proof.
  split; [apply percent_str_to_decimal_dag_eq|].
  intros df. apply apply_ext. intros r. apply percent_str_to_decimal_dag_eq.
Qed.

(** X4. A price is converted alike by the two files when it is a number
    or missing. When it is not a number the script raises its
    [ValueError] and the task lets [InvalidOperation] through. *)
Theorem price_variants (c : option string) :
  (forall f, price Script c = Ok f <-> price Dag c = Ok f) /\
  (c = None -> price Script c = Ok (float_of_Decimal zero)) /\
  (forall s, c = Some s -> of_string s = None ->
     price Script c = Raise (ValueError ("Invalid decimal value: " ++ s)) /\
     price Dag c = Raise InvalidOperation) /\
  (forall e, price Dag c = Raise e -> exists e', price Script c = Raise e').
Proof.
  unfold price, to_decimal. destruct c as [s|]; simpl.
  - destruct (of_string s) as [d|] eqn:Hd; cbn [mbind result_bind].
    + split; [done|]. split; [done|]. split; [intros s' [= <-] Hn; congruence|].
      intros e He. eauto.
    + split; [done|]. split; [done|]. split; [|eauto].
      intros s' [= <-] _. done.
  - split; [done|]. split; [done|]. split; [done|]. eauto.
Qed.

End PercentText.

(** ** The run date *)

Section CalendarFacts.
Import Calendar.

Lemma char_in_spec lo hi a :
  char_in lo hi a = true <-> code lo <= code a <= code hi.
Proof. unfold char_in. rewrite andb_true_iff, !Z.leb_le. done. Qed.

Lemma is_digit_spec a : is_digit a = true <-> 48 <= code a <= 57.
Proof. unfold is_digit. rewrite andb_true_iff, !Z.leb_le. done. Qed.

Lemma two_spec p1 p2 l g r :
  (g, r) ∈ two p1 p2 l -> l = (g ++ r)%list /\ length g = 2%nat.
Proof.
  unfold two. destruct l as [|a [|b l]]; try by intros ?%elem_of_nil.
  destruct (_ && _); [|by intros ?%elem_of_nil].
  intros [= -> ->]%list_elem_of_singleton. done.
Qed.

Lemma one_spec p l g r :
  (g, r) ∈ one p l -> l = (g ++ r)%list /\ length g = 1%nat.
Proof.
  unfold one. destruct l as [|a l]; try by intros ?%elem_of_nil.
  destruct (p a); [|by intros ?%elem_of_nil].
  intros [= -> ->]%list_elem_of_singleton. done.
Qed.

Lemma directive_Y_spec l g r :
  (g, r) ∈ directive_Y l -> l = (g ++ r)%list /\ length g = 4%nat.
Proof.
  unfold directive_Y. destruct l as [|a [|b [|c [|d l]]]]; try by intros ?%elem_of_nil.
  destruct (_ && _); [|by intros ?%elem_of_nil].
  intros [= -> ->]%list_elem_of_singleton. done.
Qed.

Lemma directive_m_spec l g r :
  (g, r) ∈ directive_m l -> l = (g ++ r)%list /\ (1 <= length g <= 2)%nat.
Proof.
  unfold directive_m. rewrite !elem_of_app.
  intros [Hm|[Hm|Hm]].
  - apply two_spec in Hm as [-> ->]. split; [done|lia].
  - apply two_spec in Hm as [-> ->]. split; [done|lia].
  - apply one_spec in Hm as [-> ->]. split; [done|lia].
Qed.

Lemma directive_d_spec l g r :
  (g, r) ∈ directive_d l -> l = (g ++ r)%list /\ (1 <= length g <= 2)%nat.
Proof.
  unfold directive_d. rewrite !elem_of_app.
  intros [Hm|[Hm|[Hm|[Hm|Hm]]]].
  - apply two_spec in Hm as [-> ->]. split; [done|lia].
  - apply two_spec in Hm as [-> ->]. split; [done|lia].
  - apply two_spec in Hm as [-> ->]. split; [done|lia].
  - apply one_spec in Hm as [-> ->]. split; [done|lia].
  - apply two_spec in Hm as [-> ->]. split; [done|lia].
Qed.

(** A match splits the string into the year, the month, the day and the
    rest: four characters, then one or two, then one or two. *)
Lemma format_regex_spec l Y m d r :
  format_regex l = Some (Y, m, d, r) ->
  l = (Y ++ m ++ d ++ r)%list /\ length Y = 4%nat /\
  (1 <= length m <= 2)%nat /\ (1 <= length d <= 2)%nat.
Proof.
  unfold format_regex. intros Hh%head_Some_elem_of.
  apply list_elem_of_bind in Hh as ([gY rY] & Hh & HY).
  apply list_elem_of_bind in Hh as ([gm rm] & Hh & Hm).
  apply list_elem_of_bind in Hh as ([gd rd] & Hh & Hd).
  apply list_elem_of_singleton in Hh. simpl in *. injection Hh as -> -> -> ->.
  apply directive_Y_spec in HY as [-> HY].
  apply directive_m_spec in Hm as [-> Hm].
  apply directive_d_spec in Hd as [-> Hd]. done.
Qed.

Lemma make_date_spec y m d dt :
  make_date y m d = Some dt <->
  dt = {| year := y; month := m; day := d |} /\
  1 <= y <= 9999 /\ 1 <= m <= 12 /\ 1 <= d <= days_in_month y m.
Proof.
  unfold make_date.
  destruct (_ && _) eqn:Hc.
  - rewrite !andb_true_iff, !Z.leb_le in Hc. split; [intros [= <-]|intros [-> _]]; [|done].
    split; [done|lia].
  - split; [done|]. intros (_ & Hy & Hm & Hd).
    assert (Ht : (1 <=? y) && (y <=? 9999) && (1 <=? m) && (m <=? 12) && (1 <=? d)
                 && (d <=? days_in_month y m) = true).
    { rewrite !andb_true_iff, !Z.leb_le. lia. }
    congruence.
Qed.


Lemma code_chars :
  code "0"%char = 48 /\ code "1"%char = 49 /\ code "2"%char = 50 /\
  code "3"%char = 51 /\ code "9"%char = 57 /\ code " "%char = 32.
Proof. by repeat split. Qed.

Lemma digits_to_Z_two a b : digits_to_Z [a; b] = 10 * (code a - 48) + (code b - 48).
Proof. unfold digits_to_Z, digit_val. simpl. lia. Qed.

Lemma bool_prop (b : bool) (P : Prop) : (b = true <-> P) -> b = false -> ~ P.
Proof. intros HP Hb HP'. apply HP in HP'. congruence. Qed.

(** Two digits that spell a month are matched by one of the first two
    alternatives of the month: the matcher reads them both. *)
Lemma directive_m_two m1 m2 r :
  is_digit m1 = true -> is_digit m2 = true -> 1 <= digits_to_Z [m1; m2] <= 12 ->
  exists rest, directive_m (m1 :: m2 :: r) = ([m1; m2], r) :: rest.
Proof.
  rewrite !is_digit_spec, digits_to_Z_two. intros H1 H2 Hm.
  destruct code_chars as (C0 & C1 & C2 & C3 & C9 & Cs).
  unfold directive_m, two, one.
  destruct (char_in "1" "1" m1 && char_in "0" "2" m2) eqn:Ha; [by eexists|].
  destruct (char_in "0" "0" m1 && char_in "1" "9" m2) eqn:Hb; [by eexists|].
  exfalso.
  apply (bool_prop _ _ (andb_true_iff _ _)) in Ha, Hb.
  rewrite !char_in_spec in Ha, Hb. lia.
Qed.

(** Two digits that spell a day of a month are matched by one of the
    first three alternatives of the day. *)
Lemma directive_d_two d1 d2 r :
  is_digit d1 = true -> is_digit d2 = true -> 1 <= digits_to_Z [d1; d2] <= 31 ->
  exists rest, directive_d (d1 :: d2 :: r) = ([d1; d2], r) :: rest.
Proof.
  rewrite is_digit_spec, digits_to_Z_two. intros H1 H2 Hd.
  pose proof (proj1 (is_digit_spec d2) H2) as H2'.
  destruct code_chars as (C0 & C1 & C2 & C3 & C9 & Cs).
  unfold directive_d, two, one.
  destruct (char_in "3" "3" d1 && char_in "0" "1" d2) eqn:Ha; [by eexists|].
  destruct (char_in "1" "2" d1 && is_digit d2) eqn:Hb; [by eexists|].
  destruct (char_in "0" "0" d1 && char_in "1" "9" d2) eqn:Hc; [by eexists|].
  exfalso. rewrite H2, andb_true_r in Hb.
  apply (bool_prop _ _ (andb_true_iff _ _)) in Ha, Hc.
  apply (bool_prop _ _ (char_in_spec _ _ _)) in Hb.
  rewrite !char_in_spec in Ha, Hc. lia.
Qed.

Lemma days_in_month_le y m : 28 <= days_in_month y m <= 31.
Proof. unfold days_in_month. repeat case_match; lia. Qed.

Lemma int_group_digits l : all_digits l = true -> int_group l = digits_to_Z l.
Proof.
  intros Hl. unfold int_group. rewrite strip_chars_nospace; [done|].
  apply all_digits_Forall in Hl. eapply Forall_impl; [exact Hl|].
  intros a Ha. by apply is_digit_plain.
Qed.

(** Eight digits that spell a date of the calendar are read as that
    date. *)
Lemma strptime_digits (Y M D : list ascii) :
  all_digits Y = true -> length Y = 4%nat ->
  all_digits M = true -> length M = 2%nat ->
  all_digits D = true -> length D = 2%nat ->
  1 <= digits_to_Z Y -> 1 <= digits_to_Z M <= 12 ->
  1 <= digits_to_Z D <= days_in_month (digits_to_Z Y) (digits_to_Z M) ->
  strptime (string_of_list_ascii (Y ++ M ++ D))
  = Some {| year := digits_to_Z Y; month := digits_to_Z M; day := digits_to_Z D |}.
Proof.
  intros HY HlY HM HlM HD HlD Hy Hm Hd.
  pose proof (digits_to_Z_lt Y HY) as HyM. rewrite HlY in HyM.
  change (10 ^ Z.of_nat 4) with 10000 in HyM.
  pose proof (days_in_month_le (digits_to_Z Y) (digits_to_Z M)) as Hdim.
  destruct Y as [|a [|b [|c [|d [|]]]]]; try done.
  destruct M as [|m1 [|m2 [|]]]; try done.
  destruct D as [|d1 [|d2 [|]]]; try done.
  assert (HY' := HY). assert (HM' := HM). assert (HD' := HD).
  unfold all_digits in HY', HM', HD'. simpl in HY', HM', HD'.
  rewrite !andb_true_iff in HY'. rewrite !andb_true_iff in HM'.
  rewrite !andb_true_iff in HD'.
  destruct HY' as (Ha & Hb & Hc & Hd4 & _), HM' as (Hm1 & Hm2 & _), HD' as (Hd1 & Hd2 & _).
  destruct (directive_m_two m1 m2 [d1; d2] Hm1 Hm2 Hm) as [rm Hrm].
  destruct (directive_d_two d1 d2 [] Hd1 Hd2 ltac:(lia)) as [rd Hrd].
  unfold strptime, format_regex. rewrite chars_of_list.
  change ([a; b; c; d] ++ [m1; m2] ++ [d1; d2])%list
    with (a :: b :: c :: d :: m1 :: m2 :: [d1; d2]).
  unfold directive_Y. rewrite Ha, Hb, Hc, Hd4. simpl andb. cbv iota.
  cbn [mbind list_bind foldr fst snd app]. rewrite Hrm.
  cbn [mbind list_bind foldr fst snd app]. rewrite Hrd.
  cbn [mbind list_bind foldr fst snd app head].
  rewrite !int_group_digits by done.
  apply make_date_spec. split; [done|]. lia.
Qed.


(** Eight digits are read as the date they spell, or refused. *)
Lemma strptime_eight (Y M D : list ascii) dt :
  all_digits Y = true -> length Y = 4%nat ->
  all_digits M = true -> length M = 2%nat ->
  all_digits D = true -> length D = 2%nat ->
  strptime (string_of_list_ascii (Y ++ M ++ D)) = Some dt ->
  dt = {| year := digits_to_Z Y; month := digits_to_Z M; day := digits_to_Z D |} /\
  1 <= digits_to_Z Y /\ 1 <= digits_to_Z M <= 12 /\
  1 <= digits_to_Z D <= days_in_month (digits_to_Z Y) (digits_to_Z M).
Proof.
  intros HY HlY HM HlM HD HlD. unfold strptime. rewrite chars_of_list.
  destruct (format_regex _) as [[[[Y' m'] d'] r]|] eqn:Hre; [|done].
  destruct r; [|done].
  apply format_regex_spec in Hre as (Heq & HlY' & Hlm & Hld).
  rewrite app_nil_r in Heq.
  apply app_inj_1 in Heq as [<- Heq]; [|lia].
  assert (Hlen : (length (M ++ D) = length (m' ++ d'))%nat) by (by rewrite Heq).
  rewrite !length_app in Hlen.
  apply app_inj_1 in Heq as [<- <-]; [|lia].
  rewrite !int_group_digits by done.
  intros (-> & Hy & Hm & Hd)%make_date_spec. split; [done|]. lia.
Qed.

(** X5. Eight digits YYYYMMDD that spell a date of the calendar are read
    as that date, by the script and by the task. *)
Theorem parse_yyyymmdd_digits (Y M D : list ascii) :
  all_digits Y = true -> length Y = 4%nat ->
  all_digits M = true -> length M = 2%nat ->
  all_digits D = true -> length D = 2%nat ->
  1 <= digits_to_Z Y -> 1 <= digits_to_Z M <= 12 ->
  1 <= digits_to_Z D <= days_in_month (digits_to_Z Y) (digits_to_Z M) ->
  let s := string_of_list_ascii (Y ++ M ++ D) in
  let dt := {| year := digits_to_Z Y; month := digits_to_Z M; day := digits_to_Z D |} in
  parse_yyyymmdd s = Ok dt /\ parse_yyyymmdd_dag s = Ok dt.
Proof.
  intros HY HlY HM HlM HD HlD Hy Hm Hd s dt.
  unfold parse_yyyymmdd, parse_yyyymmdd_dag. subst s dt.
  by rewrite strptime_digits.
Qed.

Lemma parse_yyyymmdd_digits_witness :
  parse_yyyymmdd "20240229" = Ok {| year := 2024; month := 2; day := 29 |} /\
  parse_yyyymmdd_dag "20240229" = Ok {| year := 2024; month := 2; day := 29 |}.
Proof.
  apply (parse_yyyymmdd_digits (chars "2024") (chars "02") (chars "29"));
    first [reflexivity | by vm_compute].
Defined.

(** X6. Eight digits that do not spell a date of the calendar (a month 13,
    a 30th of February, the year 0000) are refused: the script raises
    its [ValueError] and the task its [AirflowFailException], both with
    the text in their message. *)
Theorem parse_yyyymmdd_refuses (Y M D : list ascii) :
  all_digits Y = true -> length Y = 4%nat ->
  all_digits M = true -> length M = 2%nat ->
  all_digits D = true -> length D = 2%nat ->
  ~ (1 <= digits_to_Z Y /\ 1 <= digits_to_Z M <= 12 /\
     1 <= digits_to_Z D <= days_in_month (digits_to_Z Y) (digits_to_Z M)) ->
  let s := string_of_list_ascii (Y ++ M ++ D) in
  parse_yyyymmdd s = Raise (ValueError ("Invalid date '" ++ s ++ "'. Expected YYYYMMDD.")) /\
  parse_yyyymmdd_dag s
  = Raise (AirflowFailException ("Invalid run_date '" ++ s ++ "'. Expected YYYYMMDD.")).
Proof.
  intros HY HlY HM HlM HD HlD Hbad s.
  unfold parse_yyyymmdd, parse_yyyymmdd_dag.
  destruct (strptime s) as [dt|] eqn:Hs; [|done].
  exfalso. apply Hbad. subst s.
  by destruct (strptime_eight Y M D dt HY HlY HM HlM HD HlD Hs) as (_ & ?).
Qed.

Lemma parse_yyyymmdd_refuses_witness :
  parse_yyyymmdd "20250230"
  = Raise (ValueError "Invalid date '20250230'. Expected YYYYMMDD.") /\
  parse_yyyymmdd_dag "20250230"
  = Raise (AirflowFailException "Invalid run_date '20250230'. Expected YYYYMMDD.").
Proof.
  apply (parse_yyyymmdd_refuses (chars "2025") (chars "02") (chars "30"));
    try reflexivity.
  vm_compute. intros (_ & _ & _ & Hd). by apply Hd.
Defined.

(** X7. What the two functions accept is not only YYYYMMDD. The task
    accepts exactly the texts the script accepts, with the same date. A
    text they accept has six to eight characters, the first four of them
    digits, and the date returned is a date of the calendar. A month or a
    day of one digit goes through. *)
Theorem parse_yyyymmdd_accepts (s : string) (dt : ymd) :
  (parse_yyyymmdd s = Ok dt <-> parse_yyyymmdd_dag s = Ok dt) /\
  (parse_yyyymmdd s = Ok dt ->
   (6 <= length (chars s) <= 8)%nat /\
   all_digits (take 4 (chars s)) = true /\
   year dt = digits_to_Z (take 4 (chars s)) /\
   1 <= year dt <= 9999 /\ 1 <= month dt <= 12 /\
   1 <= day dt <= days_in_month (year dt) (month dt)).
Proof.
  unfold parse_yyyymmdd, parse_yyyymmdd_dag.
  destruct (strptime s) as [dt'|] eqn:Hs; [|done].
  split; [split; by intros [= ->]|]. intros [= ->].
  unfold strptime in Hs.
  destruct (format_regex _) as [[[[Y m] d] r]|] eqn:Hre; [|done].
  destruct r; [|done].
  assert (HY : all_digits Y = true).
  { unfold format_regex in Hre. apply head_Some_elem_of in Hre.
    apply list_elem_of_bind in Hre as ([gY rY] & Hh & HY).
    apply list_elem_of_bind in Hh as ([gm rm] & Hh & Hm).
    apply list_elem_of_bind in Hh as ([gd rd] & Hh & Hd).
    apply list_elem_of_singleton in Hh. simpl in Hh. injection Hh as -> _ _ _.
    unfold directive_Y in HY.
    destruct (chars s) as [|a [|b [|c [|e l]]]]; try by apply elem_of_nil in HY.
    destruct (_ && _) eqn:Hdig; [|by apply elem_of_nil in HY].
    apply list_elem_of_singleton in HY. injection HY as -> _.
    unfold all_digits. simpl. by rewrite andb_true_r, !andb_assoc. }
  apply format_regex_spec in Hre as (Heq & HlY & Hlm & Hld).
  apply make_date_spec in Hs as (-> & Hy & Hm & Hd). simpl.
  rewrite Heq, !length_app. simpl length.
  rewrite take_app_length' by done.
  rewrite (int_group_digits Y) in Hy, Hd |- * by done.
  repeat split; try done; lia.
Qed.

Lemma parse_yyyymmdd_accepts_witness :
  parse_yyyymmdd_dag "2025616" = Ok {| year := 2025; month := 6; day := 16 |} /\
  (6 <= length (chars "2025616") <= 8)%nat /\
  all_digits (take 4 (chars "2025616")) = true /\
  2025 = digits_to_Z (take 4 (chars "2025616")) /\
  1 <= 2025 <= 9999 /\ 1 <= 6 <= 12 /\ 1 <= 16 <= days_in_month 2025 6.
Proof.
  destruct (parse_yyyymmdd_accepts "2025616" {| year := 2025; month := 6; day := 16 |})
    as [Hiff Hrest].
  split; [apply Hiff; reflexivity|apply Hrest; reflexivity].
Defined.

End CalendarFacts.

(** ** Table names *)

Section SqlFacts.
Import Sql.

Lemma string_app_cancel (p a b : string) : p ++ a = p ++ b -> a = b.
Proof. induction p as [|c p IH]; simpl; [done|]. intros [= Heq]. by apply IH. Qed.

(** X8. The name of a table in a statement. The script's [qualify] and
    the task's [q] give the same name for a schema that is not empty; for
    the empty schema the script names the table in [public] and the task
    writes a name that starts with a point. In either file two tables
    never get the same name. *)
Theorem qualified_names (schema table : string) :
  (schema <> "" -> qualify schema table = q schema table) /\
  qualify "" table = "public." ++ table /\
  q "" table = "." ++ table /\
  (forall table', qualify schema table = qualify schema table' -> table = table') /\
  (forall table', q schema table = q schema table' -> table = table').
Proof.
  split; [|split; [|split; [|split]]].
  - intros Hs. unfold qualify. by rewrite decide_False.
  - done.
  - done.
  - intros table'. unfold qualify. intros Heq%string_app_cancel.
    by apply (string_app_cancel ".").
  - intros table'. unfold q. intros Heq%string_app_cancel.
    by apply (string_app_cancel ".").
Qed.

End SqlFacts.

(** ** The simple dimensions, further *)

Section OrderFacts.

Lemma string_compare_trans s1 s2 s3 :
  String.compare s1 s2 <> Gt -> String.compare s2 s3 <> Gt ->
  String.compare s1 s3 <> Gt.
Proof.
  revert s2 s3. induction s1 as [|c1 s1 IH]; intros [|c2 s2] [|c3 s3]; simpl; try done.
  unfold Ascii.compare.
  destruct (N.compare_spec (N_of_ascii c1) (N_of_ascii c2)) as [H12|H12|H12];
    destruct (N.compare_spec (N_of_ascii c2) (N_of_ascii c3)) as [H23|H23|H23];
    destruct (N.compare_spec (N_of_ascii c1) (N_of_ascii c3)) as [H13|H13|H13];
    try done; try lia.
  apply IH.
Qed.

Lemma str_le_total : Total str_le.
Proof.
  intros a b. unfold str_le. destruct (String.leb_total a b) as [->| ->]; [by left|by right].
Qed.

Lemma str_le_trans : Transitive str_le.
Proof.
  intros a b c. unfold str_le, String.leb.
  pose proof (string_compare_trans a b c) as Ht.
  destruct (String.compare a b), (String.compare b c), (String.compare a c);
    try done; intros _ _; by exfalso; apply Ht.
Qed.

Lemma str_le_antisym : AntiSymm (=) str_le.
Proof.
  intros a b Hab Hba. apply String.leb_antisym; by apply Is_true_true.
Qed.

(** Two sorted lists without repetition that hold the same texts are the
    same list. *)
Lemma sorted_keys_unique (l1 l2 : list string) :
  NoDup l1 -> NoDup l2 -> (forall k, k ∈ l1 <-> k ∈ l2) ->
  merge_sort str_le l1 = merge_sort str_le l2.
Proof.
  intros H1 H2 Hel.
  pose proof str_le_total. pose proof str_le_trans. pose proof str_le_antisym.
  apply (Sorted_unique str_le).
  - by apply Sorted_merge_sort.
  - by apply Sorted_merge_sort.
  - rewrite !merge_sort_Permutation. by apply NoDup_Permutation.
Qed.

Lemma script_keys_sorted values :
  PyNaN ∉ values ->
  script_keys values = merge_sort str_le (remove_dups (str <$> filter keep_value values)).
Proof.
  intros Hnan. unfold script_keys.
  rewrite (merge_sort_fmap str str_le pyval_le) by done.
  f_equal. apply remove_dups_fmap.
  intros x y [Hx Hxv]%list_elem_of_filter [Hy Hyv]%list_elem_of_filter Hs.
  destruct x as [| |sx], y as [| |sy]; try done; simpl in Hs; by subst.
Qed.

End OrderFacts.

Section SimpleDimExtra.
Implicit Types (t : gmap string Z) (values : list pyval).

(** X9. Values that are all [None] or blank send no statement: the map
    returned is empty and the table is left as it is, in both files. So it
    is for an empty list of values. *)
Theorem upsert_simple_dim_blank values t :
  (forall x, x ∈ values -> x = PyNone \/ exists s, x = PyStr s /\ strip s = "") ->
  upsert_simple_dim values t = Ok (∅, t) /\
  upsert_simple_dim_dag values t = Ok (∅, t).
Proof.
  intros Hv.
  assert (Hf : filter keep_value values = []).
  { induction values as [|x values IH]; [done|].
    rewrite filter_cons, IH by (intros y Hy; apply Hv; by right).
    assert (Hx : x ∈ x :: values) by apply list_elem_of_here.
    destruct (Hv x Hx) as [->|(s & -> & Hs)]; [done|].
    rewrite decide_False; [done|]. unfold keep_value. simpl str. rewrite Hs.
    rewrite (bool_decide_eq_false_2 ("" ≠ "")) by (intros Hn; by apply Hn).
    rewrite andb_false_r. by intros []. }
  unfold upsert_simple_dim, upsert_simple_dim_dag. rewrite Hf. done.
Qed.

Lemma upsert_simple_dim_blank_witness :
  upsert_simple_dim [PyNone; PyStr "  "; PyStr ""] {["Online" := 3]}
  = Ok (∅, {["Online" := 3]}) /\
  upsert_simple_dim_dag [PyNone; PyStr "  "; PyStr ""] {["Online" := 3]}
  = Ok (∅, {["Online" := 3]}).
Proof.
  apply (upsert_simple_dim_blank [PyNone; PyStr "  "; PyStr ""] {["Online" := 3]}).
  intros x Hx. repeat (apply elem_of_cons in Hx as [->|Hx]; [eauto|]).
  by apply elem_of_nil in Hx.
Defined.

(** X10. What a resolver does depends on which values it is given, not on
    their order nor on how often each occurs: two lists with the same
    members give the same map and the same table, ids included. *)
Theorem upsert_simple_dim_order values values' t :
  PyNaN ∉ values -> (forall x, x ∈ values <-> x ∈ values') ->
  upsert_simple_dim values' t = upsert_simple_dim values t /\
  upsert_simple_dim_dag values' t = upsert_simple_dim_dag values t.
Proof.
  intros Hnan Hel.
  assert (Hnan' : PyNaN ∉ values') by (by rewrite <- Hel).
  assert (Hf : forall (f : pyval -> string) k,
            k ∈ remove_dups (f <$> filter keep_value values)
            <-> k ∈ remove_dups (f <$> filter keep_value values')).
  { intros f k. rewrite !elem_of_remove_dups, !list_elem_of_fmap.
    split; intros (x & -> & [Hk Hx]%list_elem_of_filter); exists x;
      (split; [done|]); apply list_elem_of_filter; (split; [done|]); by apply Hel. }
  split.
  - rewrite !upsert_simple_dim_eq by done.
    assert (Hk : script_keys values' = script_keys values); [|by rewrite Hk].
    rewrite !script_keys_sorted by done.
    apply sorted_keys_unique; [apply NoDup_remove_dups..|]. intros k. symmetry. apply Hf.
  - rewrite !upsert_simple_dim_dag_eq.
    assert (Hk : dag_keys values' = dag_keys values); [|by rewrite Hk].
    unfold dag_keys.
    apply sorted_keys_unique; [apply NoDup_remove_dups..|]. intros k. symmetry.
    apply (Hf (fun v => strip (str v))).
Qed.

Lemma upsert_simple_dim_order_witness :
  upsert_simple_dim [PyStr "Retail"; PyStr "Online"; PyStr "Retail"] ∅
  = upsert_simple_dim [PyStr "Online"; PyStr "Retail"] ∅ /\
  upsert_simple_dim_dag [PyStr "Retail"; PyStr "Online"; PyStr "Retail"] ∅
  = upsert_simple_dim_dag [PyStr "Online"; PyStr "Retail"] ∅.
Proof.
  apply (upsert_simple_dim_order [PyStr "Online"; PyStr "Retail"]
           [PyStr "Retail"; PyStr "Online"; PyStr "Retail"] ∅).
  - intros Hin. repeat (apply elem_of_cons in Hin as [Hin|Hin]; [discriminate|]).
    by apply elem_of_nil in Hin.
  - intros x. rewrite !elem_of_cons, !elem_of_nil. tauto.
Defined.

End SimpleDimExtra.

(** ** The keyed upserts *)

Section PagingFacts.
Context {V : Type}.
Implicit Types (t : gmap Z V) (rows : list (Z * V)).

Lemma pages_aux_concat {A} fuel (l : list A) :
  (length l <= fuel)%nat -> concat (pages_aux fuel l) = l.
Proof.
  revert l. induction fuel as [|f IH]; intros l Hl.
  - destruct l; [done|simpl in Hl; lia].
  - destruct l as [|x l]; [done|].
    change (pages_aux (S f) (x :: l))
      with (take page_size (x :: l) :: pages_aux f (drop page_size (x :: l))).
    cbn [concat]. rewrite IH; [apply take_drop|].
    rewrite length_drop. unfold page_size. simpl in *. lia.
Qed.

(** The pages of [execute_values] are the rows, in order. *)
Lemma pages_concat {A} (l : list A) : concat (pages l) = l.
Proof. by apply pages_aux_concat. Qed.

Lemma pages_aux_small {A} fuel (l : list A) :
  l <> [] -> (length l <= page_size)%nat -> pages_aux (S fuel) l = [l].
Proof.
  intros Hl Hlen. destruct l as [|x l]; [done|].
  change (pages_aux (S fuel) (x :: l))
    with (take page_size (x :: l) :: pages_aux fuel (drop page_size (x :: l))).
  rewrite take_ge, drop_ge by done. by destruct fuel.
Qed.

(** Up to a thousand rows go in one statement. *)
Lemma pages_small {A} (l : list A) :
  l <> [] -> (length l <= page_size)%nat -> pages l = [l].
Proof.
  intros Hl Hlen. unfold pages. destruct l as [|x l]; [done|]. by apply pages_aux_small.
Qed.

(** A full page followed by at most another page of rows. *)
Lemma pages_two {A} (p1 p2 : list A) :
  length p1 = page_size -> p2 <> [] -> (length p2 <= page_size)%nat ->
  pages (p1 ++ p2) = [p1; p2].
Proof.
  intros H1 Hne H2. unfold pages. rewrite length_app.
  destruct p2 as [|y p2]; [done|].
  destruct p1 as [|x p1]; [done|].
  replace (length (x :: p1) + length (y :: p2))%nat
    with (S (S (length p1 + length p2))) by (simpl; lia).
  change (pages_aux (S ?f) ((x :: p1) ++ ?l))
    with (take page_size ((x :: p1) ++ l) :: pages_aux f (drop page_size ((x :: p1) ++ l))).
  rewrite <- H1, take_app_length, drop_app_length.
  by rewrite pages_aux_small.
Qed.

Lemma upsert_pages_ok t (ps : list (list (Z * V))) :
  Forall (fun p => NoDup p.*1) ps ->
  upsert_pages t ps = Ok (foldl overwrite t (concat ps)).
Proof.
  intros Hps. revert t. induction Hps as [|p ps Hp _ IH]; intros t; [done|].
  simpl. unfold upsert_statement. rewrite decide_True by done.
  by rewrite IH, foldl_app.
Qed.

Lemma upsert_pages_raise t (ps : list (list (Z * V))) :
  ~ Forall (fun p => NoDup p.*1) ps ->
  upsert_pages t ps
  = Raise (DatabaseError "ON CONFLICT DO UPDATE command cannot affect row a second time").
Proof.
  revert t. induction ps as [|p ps IH]; intros t Hps; [by destruct Hps|].
  simpl. unfold upsert_statement. destruct (decide (NoDup p.*1)) as [Hp|Hp]; [|done].
  apply IH. intros Hall. apply Hps. by constructor.
Qed.

(** After the rows of statements with distinct keys, a key holds the row
    sent for it, and the other keys are as before. *)
Lemma lookup_foldl_overwrite rows t k v :
  NoDup rows.*1 -> (k, v) ∈ rows -> foldl overwrite t rows !! k = Some v.
Proof.
  intros Hnd Hin. rewrite foldl_overwrite_union. apply lookup_union_Some_l.
  apply elem_of_list_to_map_1.
  - by rewrite fmap_reverse, reverse_Permutation.
  - by apply elem_of_reverse.
Qed.

Lemma lookup_foldl_overwrite_other rows t k :
  k ∉ rows.*1 -> foldl overwrite t rows !! k = t !! k.
Proof.
  intros Hk. rewrite foldl_overwrite_union. apply lookup_union_r.
  apply not_elem_of_list_to_map_1. by rewrite fmap_reverse, elem_of_reverse.
Qed.

Lemma NoDup_concat_keys (ps : list (list (Z * V))) :
  NoDup (concat ps).*1 -> Forall (fun p => NoDup p.*1) ps.
Proof.
  induction ps as [|p ps IH]; [done|]. simpl. rewrite fmap_app.
  intros (Hp & _ & Hps)%NoDup_app. constructor; [done|by apply IH].
Qed.

(** X11. An upsert of rows with distinct keys goes through, the key of the
    ON CONFLICT clause being the one constraint of the table here, and,
    for the customers and the sales, every date being one the database
    can read: afterwards each key holds the row sent for it, whether it
    was there before or not, and every other row of the table is as it
    was. *)
Theorem upsert_stores_rows rows t :
  NoDup rows.*1 ->
  exists t',
    upsert_keyed rows t = Ok (tt, t') /\
    (forall readable, Forall (fun r => readable r.2 = true) rows ->
       upsert_keyed_dated readable rows t = Ok (tt, t')) /\
    (forall k v, (k, v) ∈ rows -> t' !! k = Some v) /\
    (forall k, k ∉ rows.*1 -> t' !! k = t !! k).
Proof.
  intros Hnd. exists (foldl overwrite t rows).
  assert (Hok : upsert_keyed rows t = Ok (tt, foldl overwrite t rows)).
  { unfold upsert_keyed, upsert_overwrite. rewrite upsert_pages_ok.
    + by rewrite pages_concat.
    + apply NoDup_concat_keys. by rewrite pages_concat. }
  split; [done|]. split; [|split].
  - intros readable Hr. by rewrite upsert_keyed_dated_plain.
  - intros k v. by apply lookup_foldl_overwrite.
  - intros k. by apply lookup_foldl_overwrite_other.
Qed.

(** X12. The rows of an upsert are sent in statements of a thousand, and a
    statement is refused when two of its rows have the same key. Up to a
    thousand rows are accepted exactly when their keys are distinct. A key
    that comes again in the next thousand is accepted, and the later row
    is the one stored. For the customers and the sales it is so when
    every date can be read; a statement with a date that cannot be read
    is refused for that. *)
Theorem upsert_paging rows t :
  ((length rows <= 1000)%nat ->
   (NoDup rows.*1 /\ upsert_keyed rows t = Ok (tt, foldl overwrite t rows)) \/
   (~ NoDup rows.*1 /\
    upsert_keyed rows t
    = Raise (DatabaseError
               "ON CONFLICT DO UPDATE command cannot affect row a second time"))) /\
  (forall p1 p2,
     rows = (p1 ++ p2)%list -> length p1 = 1000%nat -> (length p2 <= 1000)%nat ->
     NoDup p1.*1 -> NoDup p2.*1 ->
     upsert_keyed rows t = Ok (tt, foldl overwrite t rows) /\
     forall k v, (k, v) ∈ p2 -> foldl overwrite t rows !! k = Some v) /\
  (forall readable,
     (Forall (fun r => readable r.2 = true) rows ->
      upsert_keyed_dated readable rows t = upsert_keyed rows t) /\
     ((length rows <= 1000)%nat -> ~ Forall (fun r => readable r.2 = true) rows ->
      upsert_keyed_dated readable rows t
      = Raise (DatabaseError "invalid input syntax for type timestamp: NaT"))).
Proof.
  split; [|split].
  3:{ intros readable. split; [apply upsert_keyed_dated_plain|].
      intros Hlen Hbad. unfold upsert_keyed_dated, upsert_overwrite_dated.
      destruct rows as [|r rows]; [by destruct Hbad|].
      rewrite pages_small by done. simpl. unfold upsert_statement_dated.
      destruct (forallb _ (r :: rows)) eqn:Hall; [|done].
      destruct Hbad. apply Forall_forall. intros x Hx.
      rewrite forallb_forall in Hall. apply Hall. by apply list_elem_of_In. }
  - intros Hlen. unfold upsert_keyed, upsert_overwrite.
    destruct rows as [|r rows]; [left; split; [constructor|done]|].
    rewrite pages_small by done.
    destruct (decide (NoDup (r :: rows).*1)) as [Hnd|Hnd]; [left|right]; (split; [done|]).
    + rewrite upsert_pages_ok by (constructor; [done|constructor]).
      simpl. by rewrite app_nil_r.
    + rewrite upsert_pages_raise; [done|]. by intros [? _]%Forall_cons.
  - intros p1 p2 -> H1 H2 Hn1 Hn2. split.
    + unfold upsert_keyed, upsert_overwrite. rewrite upsert_pages_ok.
      * by rewrite pages_concat.
      * destruct p2 as [|y p2].
        -- rewrite app_nil_r, pages_small; [constructor; [done|constructor]| |by rewrite H1].
           intros ->. done.
        -- rewrite pages_two by done. constructor; [done|]. constructor; [done|constructor].
    + intros k v Hin. rewrite foldl_app. by apply lookup_foldl_overwrite.
Qed.

End PagingFacts.

Lemma upsert_stores_rows_witness :
  exists t',
    upsert_keyed [(1, "a"); (2, "b")] {[1 := "z"; 7 := "c"]} = Ok (tt, t') /\
    t' !! 1 = Some "a" /\ t' !! 2 = Some "b" /\ t' !! 7 = Some "c".
Proof.
  destruct (upsert_stores_rows [(1, "a"); (2, "b")] {[1 := "z"; 7 := "c"]})
    as (t' & Hu & _ & Hin & Hout); [by apply (bool_decide_unpack _)|].
  exists t'. split; [done|].
  split; [apply Hin; by left|]. split; [apply Hin; by right; left|].
  rewrite Hout; [done|]. by apply (bool_decide_unpack _).
Defined.

(** ** The campaigns *)

Section DictFacts.
Context {A K B : Type} `{Countable K}.
Implicit Types (f : A -> option (K * B)) (l : list A).

(** A dict filled in a loop whose step [g] enters the entry [f x] of an
    element, if it has one: the dict holds entries of elements only, and
    a later element overwrites an earlier one with the same key. *)
Lemma foldl_insert_sound f (g : gmap K B -> A -> gmap K B) l k v :
  (forall acc x,
     g acc x = match f x with Some kv => <[kv.1 := kv.2]> acc | None => acc end) ->
  foldl g ∅ l !! k = Some v -> exists x, x ∈ l /\ f x = Some (k, v).
Proof.
  intros Hg. induction l as [|x l IH] using rev_ind; [by simpl; rewrite lookup_empty|].
  rewrite foldl_app. simpl. rewrite Hg. destruct (f x) as [[k0 v0]|] eqn:Hx; simpl.
  - destruct (decide (k0 = k)) as [->|Hk].
    + rewrite lookup_insert_eq. intros [= ->]. exists x. split; [|done].
      apply elem_of_app. right. by left.
    + rewrite lookup_insert_ne by done. intros (y & Hy & Hf)%IH.
      exists y. split; [|done]. apply elem_of_app. by left.
  - intros (y & Hy & Hf)%IH. exists y. split; [|done]. apply elem_of_app. by left.
Qed.

Lemma foldl_insert_complete f (g : gmap K B -> A -> gmap K B) l k v x :
  (forall acc x,
     g acc x = match f x with Some kv => <[kv.1 := kv.2]> acc | None => acc end) ->
  (forall y v', y ∈ l -> f y = Some (k, v') -> v' = v) ->
  x ∈ l -> f x = Some (k, v) -> foldl g ∅ l !! k = Some v.
Proof.
  intros Hg. induction l as [|z l IH] using rev_ind; [by intros _ ?%elem_of_nil|].
  intros Hc Hx Hfx. rewrite foldl_app. simpl. rewrite Hg.
  destruct (f z) as [[k0 v0]|] eqn:Hz; simpl.
  - destruct (decide (k0 = k)) as [->|Hk].
    + rewrite lookup_insert_eq. f_equal. apply (Hc z); [|done].
      apply elem_of_app. right. by left.
    + rewrite lookup_insert_ne by done. apply IH; [| |done].
      * intros y v' Hy. apply Hc. apply elem_of_app. by left.
      * apply elem_of_app in Hx as [Hx|Hx]; [done|].
        apply list_elem_of_singleton in Hx as ->. congruence.
  - apply IH; [| |done].
    + intros y v' Hy. apply Hc. apply elem_of_app. by left.
    + apply elem_of_app in Hx as [Hx|Hx]; [done|].
      apply list_elem_of_singleton in Hx as ->. congruence.
Qed.

End DictFacts.

Section CampaignFacts.
Implicit Types (channel_map : gmap string Z) (t : gmap (Z * string) Z).

(** The reversed map sends an id to a name that has it. *)
Lemma invert_sound channel_map cid name :
  invert channel_map !! cid = Some name -> channel_map !! name = Some cid.
Proof.
  unfold invert.
  intros ([n i] & Hin & [= -> ->])%(foldl_insert_sound
    (fun kv : string * Z => Some (kv.2, kv.1))); [|done].
  by apply elem_of_map_to_list.
Qed.

Lemma invert_complete channel_map cid name :
  ids_unique channel_map ->
  channel_map !! name = Some cid -> invert channel_map !! cid = Some name.
Proof.
  intros Hu Hn. unfold invert.
  apply (foldl_insert_complete (fun kv : string * Z => Some (kv.2, kv.1))
           _ _ _ _ (name, cid)); [done| |by apply elem_of_map_to_list|done].
  intros [n i] v' Hy%elem_of_map_to_list [= -> ->]. by apply (Hu _ _ cid).
Qed.

(** The keys of the map [upsert_dim_campaign] returns: the row
    [(id, channel id, campaign)] is entered under the name of its channel. *)
Lemma campaign_keys_spec channel_map (rows : gmap (Z * string) Z) ch camp id :
  campaign_keys (invert channel_map) rows !! (ch, camp) = Some id <->
  exists cid, invert channel_map !! cid = Some ch /\ ch <> "" /\
              rows !! (cid, camp) = Some id.
Proof.
  set (entry := fun r : Z * string * Z =>
         match invert channel_map !! r.1.1 with
         | Some channel_name =>
             if bool_decide (channel_name = "") then None
             else Some ((channel_name, r.1.2), r.2)
         | None => None
         end).
  assert (Hstep : forall (acc : gmap (string * string) Z) r,
            match invert channel_map !! r.1.1 with
            | Some channel_name =>
                if bool_decide (channel_name = "") then acc
                else <[(channel_name, r.1.2) := r.2]> acc
            | None => acc
            end
            = match entry r with Some kv => <[kv.1 := kv.2]> acc | None => acc end).
  { intros acc r. unfold entry. destruct (invert channel_map !! r.1.1); [|done].
    by case_bool_decide. }
  unfold campaign_keys. split.
  - intros ([[cid c] i] & Hin & Hf)%(foldl_insert_sound entry); [|done].
    apply elem_of_map_to_list in Hin. unfold entry in Hf. simpl in Hf.
    destruct (invert channel_map !! cid) as [name|] eqn:Hn; [|done].
    case_bool_decide; [done|]. injection Hf as -> -> ->. eauto.
  - intros (cid & Hn & Hne & Hr).
    apply (foldl_insert_complete entry _ _ _ _ ((cid, camp), id)); [done| | |].
    + intros [[cid' c] i] v' Hy%elem_of_map_to_list Hf.
      unfold entry in Hf. simpl in Hf.
      destruct (invert channel_map !! cid') as [name|] eqn:Hn'; [|done].
      case_bool_decide; [done|]. injection Hf as -> -> ->.
      apply invert_sound in Hn, Hn'. assert (cid' = cid) as -> by congruence.
      congruence.
    + by apply elem_of_map_to_list.
    + unfold entry. simpl. rewrite Hn. by rewrite bool_decide_eq_false_2.
Qed.

(** The pairs that pass the first loop. *)
Lemma clean_pairs_elem channel_map pairs cid camp :
  (cid, camp) ∈ clean_pairs channel_map pairs <->
  exists ch, (ch, camp) ∈ pairs /\ ch <> "" /\ camp <> "" /\ channel_map !! ch = Some cid.
Proof.
  unfold clean_pairs. rewrite list_elem_of_omap. split.
  - intros ([ch c] & Hin & Hf). simpl in Hf.
    destruct (bool_decide (ch = "")) eqn:H1; [done|].
    destruct (bool_decide (c = "")) eqn:H2; [done|]. simpl in Hf.
    destruct (channel_map !! ch) as [i|] eqn:Hi; [|done]. injection Hf as -> ->.
    apply bool_decide_eq_false in H1, H2. eauto 6.
  - intros (ch & Hin & H1 & H2 & Hi). exists (ch, camp). split; [done|]. simpl.
    rewrite !bool_decide_eq_false_2 by done. simpl. by rewrite Hi.
Qed.

Lemma cleaned_elem channel_map pairs k :
  k ∈ merge_sort pair_le (remove_dups (clean_pairs channel_map pairs))
  <-> k ∈ clean_pairs channel_map pairs.
Proof. by rewrite merge_sort_Permutation, elem_of_remove_dups. Qed.

(** [upsert_dim_campaign] as its two statements on the cleaned pairs. *)
Lemma upsert_dim_campaign_eq channel_map pairs t :
  let cleaned := merge_sort pair_le (remove_dups (clean_pairs channel_map pairs)) in
  upsert_dim_campaign channel_map pairs t =
    Ok (campaign_keys (invert channel_map)
          (select_where_in cleaned (insert_values_do_nothing cleaned t)),
        insert_values_do_nothing cleaned t).
Proof.
  intros cleaned. unfold upsert_dim_campaign. fold cleaned.
  destruct cleaned as [|k l] eqn:Hc; [|done].
  rewrite select_where_in_nil. done.
Qed.


Lemma campaign_map_sound channel_map pairs t m t' ch camp id :
  upsert_dim_campaign channel_map pairs t = Ok (m, t') ->
  m !! (ch, camp) = Some id ->
  ch <> "" /\ camp <> "" /\
  exists cid, channel_map !! ch = Some cid /\ t' !! (cid, camp) = Some id.
Proof.
  rewrite upsert_dim_campaign_eq. cbv zeta. intros [= <- <-].
  intros (cid & Hinv & Hch & Hrow)%campaign_keys_spec.
  rewrite select_where_in_lookup in Hrow. case_decide as Hin; [|done].
  apply cleaned_elem, clean_pairs_elem in Hin as (ch0 & _ & _ & Hcamp & _).
  split; [done|]. split; [done|]. exists cid. split; [|done]. by apply invert_sound.
Qed.

Lemma campaign_map_complete channel_map pairs t m t' ch camp cid :
  upsert_dim_campaign channel_map pairs t = Ok (m, t') ->
  ids_unique channel_map ->
  (ch, camp) ∈ pairs -> ch <> "" -> camp <> "" -> channel_map !! ch = Some cid ->
  exists id, m !! (ch, camp) = Some id /\ t' !! (cid, camp) = Some id.
Proof.
  rewrite upsert_dim_campaign_eq. cbv zeta. intros [= <- <-].
  set (cleaned := merge_sort pair_le (remove_dups (clean_pairs channel_map pairs))).
  intros Hu Hin Hch Hcamp Hcid.
  assert (Hk : (cid, camp) ∈ cleaned).
  { apply cleaned_elem, clean_pairs_elem. eauto. }
  destruct (insert_values_there cleaned t _ Hk) as [id Hid]. exists id.
  split; [|done]. apply campaign_keys_spec. exists cid.
  split; [by apply invert_complete|]. split; [done|].
  by rewrite select_where_in_lookup, decide_True.
Qed.

(** X13. The map [upsert_dim_campaign] returns. A key [(channel, campaign)]
    of the map names a channel of [channel_map] and holds the id of the
    row of that channel and campaign. When no two channels share an id,
    every pair of the input with a channel and a campaign that are not
    empty and a channel that [channel_map] knows is a key of the map. *)
Theorem campaign_map_spec channel_map pairs t :
  exists m t',
    upsert_dim_campaign channel_map pairs t = Ok (m, t') /\
    (forall ch camp id, m !! (ch, camp) = Some id ->
       ch <> "" /\ camp <> "" /\
       exists cid, channel_map !! ch = Some cid /\ t' !! (cid, camp) = Some id) /\
    (ids_unique channel_map ->
     forall ch camp cid,
       (ch, camp) ∈ pairs -> ch <> "" -> camp <> "" -> channel_map !! ch = Some cid ->
       exists id, m !! (ch, camp) = Some id /\ t' !! (cid, camp) = Some id).
Proof.
  destruct (upsert_dim_campaign channel_map pairs t) as [[m t']|] eqn:Heq.
  - exists m, t'. split; [done|]. split.
    + intros ch camp id. by apply (campaign_map_sound channel_map pairs t).
    + intros Hu ch camp cid. by apply (campaign_map_complete channel_map pairs t).
  - by rewrite upsert_dim_campaign_eq in Heq.
Qed.

(** X14. What [upsert_dim_campaign] does to the table. The rows that were
    there stay, with their ids; a new row is one of the cleaned pairs and
    its id is the id of no earlier row; ids that were unique stay unique.
    When every pair has an empty channel, an empty campaign or a channel
    that is not in [channel_map], no statement is sent: the map is empty
    and the table is as before. *)
Theorem campaign_rows_stable channel_map pairs t :
  exists m t',
    upsert_dim_campaign channel_map pairs t = Ok (m, t') /\
    (forall k id, t !! k = Some id -> t' !! k = Some id) /\
    (forall k id, t !! k = None -> t' !! k = Some id ->
       k ∈ clean_pairs channel_map pairs /\
       forall k' id', t !! k' = Some id' -> id <> id') /\
    (ids_unique t -> ids_unique t') /\
    ((forall p, p ∈ pairs -> p.1 = "" \/ p.2 = "" \/ channel_map !! p.1 = None) ->
     m = ∅ /\ t' = t).
Proof.
  eexists _, _. split; [apply upsert_dim_campaign_eq|]. cbv zeta.
  set (cleaned := merge_sort pair_le (remove_dups (clean_pairs channel_map pairs))).
  split; [|split; [|split]].
  - intros k id. apply insert_values_keeps.
  - intros k id Hk Hk'. split; [|by eapply insert_values_new].
    apply cleaned_elem. fold cleaned.
    destruct (decide (k ∈ cleaned)) as [|Hn]; [done|].
    rewrite insert_values_other in Hk' by done. congruence.
  - apply insert_values_unique.
  - intros Hskip.
    assert (Hc : cleaned = []).
    { destruct cleaned as [|[cid camp] l] eqn:Hc; [done|]. exfalso.
      assert (Hin : (cid, camp) ∈ cleaned) by (rewrite Hc; by left).
      apply cleaned_elem, clean_pairs_elem in Hin as (ch & Hin & H1 & H2 & H3).
      destruct (Hskip _ Hin) as [?|[?|?]]; simpl in *; congruence. }
    rewrite Hc. simpl. split; [|done].
    rewrite select_where_in_nil. done.
Qed.

End CampaignFacts.

Section CampaignCells.
Context `{External}.

(** X15. An empty campaign field is not a missing campaign. The pairs are
    built with [astype(str)], which turns the empty field into the text
    ["nan"]: for a line with a known channel and no campaign, the campaign
    ["nan"] of that channel gets a row, the map has the pair, and the sale
    loop finds an id for the line. *)
Theorem empty_campaign_named_nan (df : list Col.row) channel_map t r ch cid :
  ids_unique channel_map ->
  r ∈ df -> Col.channel r = Some ch -> ch <> "" ->
  channel_map !! ch = Some cid -> Col.channel_campaigns r = None ->
  let pairs :=
    (fun r => (astype_str (Col.channel r), astype_str (Col.channel_campaigns r)))
      <$> df in
  exists m t' id,
    upsert_dim_campaign channel_map pairs t = Ok (m, t') /\
    t' !! (cid, "nan") = Some id /\ m !! (ch, "nan") = Some id /\
    ~ unmapped_sale m r.
Proof.
  intros Hu Hr Hch Hne Hcid Hcamp pairs.
  destruct (upsert_dim_campaign channel_map pairs t) as [[m t']|] eqn:Heq;
    [|by rewrite upsert_dim_campaign_eq in Heq].
  destruct (campaign_map_complete _ _ _ _ _ ch "nan" cid Heq Hu)
    as (id & Hm & Ht); [|done|done|done|].
  { apply list_elem_of_fmap. exists r. split; [|done].
    unfold astype_str. by rewrite Hch, Hcamp. }
  exists m, t', id. split; [done|]. split; [done|]. split; [done|].
  intros (_ & _ & Hnone). unfold astype_str in Hnone.
  rewrite Hch, Hcamp in Hnone. simpl in Hnone. congruence.
Qed.

End CampaignCells.

Lemma empty_campaign_named_nan_witness :
  let r := Sample.line (Some "Online") None (Some 7) (Some "ada@example.org")
             (Some 100) (Some "31.50") (Some 1) (Some 11) None in
  let pairs :=
    (fun r => (astype_str (Col.channel r), astype_str (Col.channel_campaigns r)))
      <$> [r] in
  exists m t' id,
    upsert_dim_campaign {["Online" := 1]} pairs ∅ = Ok (m, t') /\
    t' !! (1, "nan") = Some id /\ m !! ("Online", "nan") = Some id /\
    ~ unmapped_sale (H := Sample.external) m r.
Proof.
  intros r.
  apply (empty_campaign_named_nan (H := Sample.external) [r] {["Online" := 1]} ∅ r
           "Online" 1); try done.
  - intros k1 k2 id [<- <-]%lookup_singleton_Some [<- _]%lookup_singleton_Some. done.
  - by left.
Defined.

(** ** The loops over the lines *)

Section LoopExtra.

(** [drop_duplicates] keeps a line exactly when no line before it has
    its key. *)
Lemma drop_duplicates_from_first {A K} `{EqDecision K} (key : A -> K) seen l x :
  x ∈ drop_duplicates_from key seen l <->
  exists l1 l2, l = (l1 ++ x :: l2)%list /\ (key x ∉ seen) /\ (key x ∉ key <$> l1).
Proof.
  revert seen. induction l as [|z l IH]; intros seen; simpl.
  - split; [by intros ?%elem_of_nil|]. intros (l1 & l2 & Hl & _). by destruct l1.
  - case_decide as Hseen.
    + rewrite IH. split.
      * intros (l1 & l2 & -> & Hs & Hl1). exists (z :: l1), l2. split; [done|].
        split; [done|]. rewrite fmap_cons, not_elem_of_cons. split; [congruence|done].
      * intros (l1 & l2 & Hl & Hs & Hl1). destruct l1 as [|z' l1]; simplify_eq/=;
          [by destruct Hs|].
        rewrite not_elem_of_cons in Hl1. exists l1, l2. tauto.
    + rewrite elem_of_cons, IH. split.
      * intros [->|(l1 & l2 & -> & Hs & Hl1)].
        -- exists [], l. split; [done|]. split; [done|]. by intros ?%elem_of_nil.
        -- rewrite not_elem_of_cons in Hs. exists (z :: l1), l2. split; [done|].
           split; [tauto|]. rewrite fmap_cons, not_elem_of_cons. tauto.
      * intros (l1 & l2 & Hl & Hs & Hl1). destruct l1 as [|z' l1]; simplify_eq/=; [by left|].
        rewrite not_elem_of_cons in Hl1. right. exists l1, l2. split; [done|].
        rewrite not_elem_of_cons. tauto.
Qed.

Lemma drop_duplicates_first {A K} `{EqDecision K} (key : A -> K) l x :
  x ∈ drop_duplicates key l <->
  exists l1 l2, l = (l1 ++ x :: l2)%list /\ (key x ∉ key <$> l1).
Proof.
  unfold drop_duplicates. rewrite drop_duplicates_from_first. split.
  - intros (l1 & l2 & ? & _ & ?). eauto.
  - intros (l1 & l2 & ? & ?). exists l1, l2. split; [done|]. split; [|done].
    by intros ?%elem_of_nil.
Qed.

(** Every key of the frame is the key of a line that is kept. *)
Lemma drop_duplicates_covers {A K} `{EqDecision K} (key : A -> K) l x :
  x ∈ l -> exists y, y ∈ drop_duplicates key l /\ key y = key x.
Proof.
  revert x. induction l as [|z l IH] using rev_ind; intros x Hx;
    [by apply elem_of_nil in Hx|].
  destruct (decide (key x ∈ key <$> l)) as [Hin|Hnin].
  - apply list_elem_of_fmap in Hin as (x' & Hk & Hx').
    destruct (IH x' Hx') as (y & Hy & Hky). exists y. split; [|congruence].
    apply drop_duplicates_first in Hy as (l1 & l2 & -> & Hl1).
    apply drop_duplicates_first. exists l1, (l2 ++ [z])%list.
    split; [by rewrite <- app_assoc|done].
  - apply elem_of_app in Hx as [Hx|Hx].
    + destruct Hnin. apply list_elem_of_fmap. eauto.
    + apply list_elem_of_singleton in Hx as ->. exists z. split; [|done].
      apply drop_duplicates_first. exists l, []. done.
Qed.

(** The tuples a loop appends are those its body builds, for the lines
    it does not skip. *)
Lemma for_each_elem {A B} (f : A -> result (option B)) l out y :
  for_each f l = Ok out -> y ∈ out <-> exists x, x ∈ l /\ f x = Ok (Some y).
Proof.
  revert out. induction l as [|x l IH]; intros out Hout; simpl in Hout.
  - injection Hout as <-. split; [by intros ?%elem_of_nil|].
    by intros (? & ?%elem_of_nil & _).
  - destruct (f x) as [o|] eqn:Hfx; [|done].
    destruct (for_each f l) as [ys|] eqn:Hl; [|done].
    injection Hout as <-. specialize (IH ys eq_refl).
    destruct o as [y0|].
    + rewrite elem_of_cons, IH. split.
      * intros [->|(x' & ? & ?)]; [exists x; split; [by left|done]|].
        exists x'. split; [by right|done].
      * intros (x' & [->|Hx']%elem_of_cons & Hf); [left; congruence|]. right. eauto.
    + rewrite IH. split.
      * intros (x' & ? & ?). exists x'. split; [by right|done].
      * intros (x' & [->|Hx']%elem_of_cons & Hf); [congruence|]. eauto.
Qed.

Lemma for_each_ok {A B} (f : A -> result (option B)) l :
  (forall x, x ∈ l -> exists o, f x = Ok o) -> exists out, for_each f l = Ok out.
Proof.
  induction l as [|x l IH]; intros Hok; simpl; [eauto|].
  destruct (Hok x) as [o ->]; [by left|].
  destruct IH as [ys ->]; [intros y Hy; apply Hok; by right|]. eauto.
Qed.

Lemma for_each_pure {A B} (f : A -> option B) l :
  for_each (fun x => Ok (f x)) l = Ok (omap f l).
Proof.
  induction l as [|x l IH]; simpl; [done|]. rewrite IH. by destruct (f x).
Qed.

(** When two lines that are kept can only give tuples with the same key
    if they are the same for [g], and no two lines are, the tuples have
    distinct keys. *)
Lemma for_each_distinct_keys {A V G} (f : A -> result (option (Z * V)))
    (g : A -> G) l out :
  NoDup (g <$> l) ->
  (forall x y a b, x ∈ l -> y ∈ l -> f x = Ok (Some a) -> f y = Ok (Some b) ->
     a.1 = b.1 -> g x = g y) ->
  for_each f l = Ok out -> NoDup out.*1.
Proof.
  revert out. induction l as [|x l IH]; intros out Hnd Hg Hout; simpl in Hout.
  - injection Hout as <-. constructor.
  - destruct (f x) as [o|] eqn:Hfx; [|done].
    destruct (for_each f l) as [ys|] eqn:Hl; [|done].
    injection Hout as <-. rewrite fmap_cons in Hnd. apply NoDup_cons in Hnd as [Hx Hnd].
    assert (Hys : NoDup ys.*1).
    { apply IH; [done| |done]. intros x' y' a b Hx' Hy'. apply Hg; by right. }
    destruct o as [a|]; [|done]. rewrite fmap_cons. constructor; [|done].
    intros (b & Hab & Hb)%list_elem_of_fmap.
    apply (for_each_elem f l ys b Hl) in Hb as (y & Hy & Hfy).
    apply Hx. apply list_elem_of_fmap. exists y. split; [|done].
    apply (Hg x y a b); [by left|by right|done|done|done].
Qed.

End LoopExtra.

Section RowExtra.
Context `{External}.

Lemma upsert_keyed_distinct {V} (rows : list (Z * V)) t :
  NoDup rows.*1 -> upsert_keyed rows t = Ok (tt, foldl overwrite t rows).
Proof.
  intros Hnd. unfold upsert_keyed, upsert_overwrite. rewrite upsert_pages_ok.
  - by rewrite pages_concat.
  - apply NoDup_concat_keys. by rewrite pages_concat.
Qed.

(** X16. When the lines of the day agree on a customer, that is, two lines
    with the same customer id have the same customer columns, the
    customer loop passes one tuple for each customer and the upsert is
    not refused for its keys; and so for the products. *)
Theorem consistent_lines_accepted (v : variant) (df : list Col.row) :
  (forall country_map t,
     (forall r r', r ∈ df -> r' ∈ df -> is_Some (Col.customer_id r) ->
        Col.customer_id r = Col.customer_id r' ->
        customer_columns r = customer_columns r') ->
     NoDup (cust_rows country_map df).*1 /\
     exists t', upsert_keyed (cust_rows country_map df) t = Ok (tt, t')) /\
  (forall category_map brand_map color_map size_map rows t,
     (forall r r', r ∈ df -> r' ∈ df -> is_Some (Col.product_id r) ->
        Col.product_id r = Col.product_id r' ->
        product_columns r = product_columns r') ->
     prod_rows v category_map brand_map color_map size_map df = Ok rows ->
     NoDup rows.*1 /\ exists t', upsert_keyed rows t = Ok (tt, t')).
Proof.
  split.
  - intros country_map t Hc.
    assert (Hnd : NoDup (cust_rows country_map df).*1).
    { unfold cust_rows.
      apply (for_each_distinct_keys (fun r => Ok (customer_tuple country_map r))
               customer_columns (drop_duplicates customer_columns df));
        [apply drop_duplicates_NoDup| |apply for_each_pure].
      intros x y a b Hx Hy Hfx Hfy Hab.
      apply drop_duplicates_first in Hx as (l1 & l2 & -> & _).
      apply drop_duplicates_first in Hy as (l3 & l4 & Hdf & _).
      unfold customer_tuple in Hfx, Hfy.
      destruct (Col.customer_id x) as [i|] eqn:Hix; [|done].
      destruct (Col.customer_id y) as [j|] eqn:Hiy; [|done].
      simplify_eq/=. apply Hc; rewrite ?Hix, ?Hiy; try done;
        first [apply elem_of_app; right; by left
              |rewrite Hdf; apply elem_of_app; right; by left]. }
    split; [done|]. eexists. by apply upsert_keyed_distinct.
  - intros category_map brand_map color_map size_map rows t Hc Hrows.
    assert (Hnd : NoDup rows.*1).
    { unfold prod_rows in Hrows.
      apply (for_each_distinct_keys _ product_columns _ _
               (drop_duplicates_NoDup product_columns df)) in Hrows; [done|].
      intros x y a b Hx Hy Hfx Hfy Hab.
      apply drop_duplicates_first in Hx as (l1 & l2 & -> & _).
      apply drop_duplicates_first in Hy as (l3 & l4 & Hdf & _).
      unfold product_tuple in Hfx, Hfy.
      destruct (Col.product_id x) as [i|] eqn:Hix; [|done].
      destruct (Col.product_id y) as [j|] eqn:Hiy; [|done].
      destruct (price v (Col.cost_price x)); [|done].
      destruct (price v (Col.original_price x)); [|done].
      destruct (price v (Col.cost_price y)); [|done].
      destruct (price v (Col.original_price y)); [|done].
      unfold mret, result_ret in Hfx, Hfy.
      simplify_eq/=. apply Hc; rewrite ?Hix, ?Hiy; try done;
        first [apply elem_of_app; right; by left
              |rewrite Hdf; apply elem_of_app; right; by left]. }
    split; [done|]. eexists. by apply upsert_keyed_distinct.
Qed.


(** X17. The sale loop. It returns when every line it does not skip has
    a campaign id in the map. It then appends, for each sale id, the tuple
    built from the first line of the frame that carries the id (when that
    line has a customer id): lines further down with the same sale id are
    not looked at. *)
Theorem sale_rows_first_line (v : variant) (campaign_map : gmap (string * string) Z)
    (df : list Col.row) :
  ((forall r, r ∈ drop_duplicates Col.sale_id df -> ~ unmapped_sale campaign_map r) ->
   exists rows, sale_rows v campaign_map df = Ok rows) /\
  (forall rows, sale_rows v campaign_map df = Ok rows ->
   forall sale_id row,
     (sale_id, row) ∈ rows <->
     exists l1 r l2 customer_id camp_id,
       df = (l1 ++ r :: l2)%list /\ Col.sale_id r = Some sale_id /\
       (Some sale_id ∉ Col.sale_id <$> l1) /\
       Col.customer_id r = Some customer_id /\
       campaign_map !! (astype_str (Col.channel r),
                        astype_str (Col.channel_campaigns r)) = Some camp_id /\
       row = (Col.sale_date r, Col.total_amount r,
              customer_id, camp_id)).
Proof.
  split.
  - intros Hmapped. apply for_each_ok. intros r Hr.
    destruct (sale_tuple v campaign_map r) as [o|e] eqn:Ht; [eauto|].
    apply sale_tuple_raise in Ht as [Hu _]. by destruct (Hmapped r Hr).
  - intros rows Hrows sale_id row. unfold sale_rows in Hrows.
    rewrite (for_each_elem _ _ _ _ Hrows). split.
    + intros (r & Hr & Ht). apply drop_duplicates_first in Hr as (l1 & l2 & -> & Hl1).
      unfold sale_tuple in Ht.
      destruct (Col.sale_id r) as [s|] eqn:Hs; [|done].
      destruct (Col.customer_id r) as [c|] eqn:Hcu; [|done].
      destruct (campaign_map !! _) as [camp|] eqn:Hcamp; [|done].
      injection Ht as <- <-. exists l1, r, l2, c, camp. by rewrite Hs.
    + intros (l1 & r & l2 & c & camp & -> & Hs & Hl1 & Hcu & Hcamp & ->).
      exists r. split.
      * apply drop_duplicates_first. exists l1, l2. split; [done|]. by rewrite Hs.
      * unfold sale_tuple. by rewrite Hs, Hcu, Hcamp.
Qed.

(** X18. The item loop, on discounts that are finite numbers, as those of
    [percent_str_to_decimal] are. It returns unless a line it keeps has
    its three ids and no quantity; on such a line [int(quantity)] raises
    the [ValueError] of a NaN. *)
Theorem item_rows_outcome (dfd : list (Col.row * Decimal)) :
  (forall rd, rd ∈ dfd -> is_finite rd.2 = true) ->
  let kept := drop_duplicates (fun rd : Col.row * Decimal => Col.item_id rd.1) dfd in
  let no_quantity (rd : Col.row * Decimal) :=
    is_Some (Col.item_id rd.1) /\ is_Some (Col.sale_id rd.1) /\
    is_Some (Col.product_id rd.1) /\ Col.quantity rd.1 = None in
  ((forall rd, rd ∈ kept -> ~ no_quantity rd) -> exists rows, item_rows dfd = Ok rows) /\
  (forall rd, rd ∈ kept -> no_quantity rd ->
     item_rows dfd = Raise (ValueError "cannot convert float NaN to integer")).
Proof.
  intros Hfin kept no_quantity.
  assert (Htuple : forall rd, rd ∈ kept ->
            (exists o, item_tuple rd = Ok o) \/
            (no_quantity rd /\
             item_tuple rd = Raise (ValueError "cannot convert float NaN to integer"))).
  { intros [r d] Hrd. assert (Hd : is_finite d = true).
    { apply (Hfin (r, d)). apply drop_duplicates_first in Hrd as (l1 & l2 & -> & _).
      apply elem_of_app. right. by left. }
    unfold item_tuple, no_quantity. simpl.
    destruct (Col.item_id r), (Col.sale_id r), (Col.product_id r); eauto.
    destruct (Col.quantity r) as [n|]; simpl.
    - left. destruct d; try done. eauto.
    - right. repeat split; eauto. }
  split.
  - intros Hq. apply for_each_ok. intros rd Hrd.
    destruct (Htuple rd Hrd) as [?|[Hn _]]; [done|]. by destruct (Hq rd Hrd).
  - intros rd Hrd Hn. unfold item_rows. fold kept.
    destruct (for_each item_tuple kept) as [out|e] eqn:Hfe.
    + destruct (for_each_ok_inv _ _ _ Hfe rd Hrd) as [o Ho].
      destruct (Htuple rd Hrd) as [?|[_ Hr]]; [|congruence].
      exfalso. destruct rd as [r d]. unfold item_tuple in Ho.
      destruct Hn as ([? Hi] & [? Hs] & [? Hp] & Hq). simpl in Hi, Hs, Hp, Hq.
      by rewrite Hi, Hs, Hp, Hq in Ho.
    + apply for_each_raise_inv in Hfe as (rd' & Hrd' & Hr').
      destruct (Htuple rd' Hrd') as [[o Ho]|[_ Hr]]; congruence.
Qed.

End RowExtra.

Lemma item_rows_outcome_witness :
  let dfd :=
    [(Sample.line (Some "Online") (Some "Spring Sale") (Some 7)
        (Some "ada@example.org") (Some 100) (Some "31.50") (Some 1) (Some 11)
        (Some "12.50%"), Finite false 125 (-3))] in
  let kept := drop_duplicates (fun rd : Col.row * Decimal => Col.item_id rd.1) dfd in
  let no_quantity (rd : Col.row * Decimal) :=
    is_Some (Col.item_id rd.1) /\ is_Some (Col.sale_id rd.1) /\
    is_Some (Col.product_id rd.1) /\ Col.quantity rd.1 = None in
  ((forall rd, rd ∈ kept -> ~ no_quantity rd) ->
   exists rows, item_rows (H := Sample.external) dfd = Ok rows) /\
  (forall rd, rd ∈ kept -> no_quantity rd ->
     item_rows (H := Sample.external) dfd
     = Raise (ValueError "cannot convert float NaN to integer")).
Proof.
  intros dfd. apply (item_rows_outcome (H := Sample.external) dfd).
  intros rd Hrd. apply list_elem_of_singleton in Hrd as ->. reflexivity.
Defined.

(** ** The run, further *)

Section RunExtra.
Context `{External}.

(** What a resolver leaves: the table after an INSERT of some keys, and
    the rows of those keys. *)
Lemma resolver_effect v values (t : gmap string Z) m t' :
  match v with
  | Script => upsert_simple_dim values
  | Dag => upsert_simple_dim_dag values
  end t = Ok (m, t') ->
  exists ks, t' = insert_values_do_nothing ks t /\ m = select_where_in ks t'.
Proof.
  assert (Hnil : forall t0 : gmap string Z,
            Ok (∅, t0) = Ok (m, t') ->
            exists ks, t' = insert_values_do_nothing ks t0 /\ m = select_where_in ks t').
  { intros t0 [= <- <-]. exists []. by rewrite select_where_in_nil. }
  assert (Hres : forall vs, resolve_values vs t = Ok (m, t') ->
            exists ks, t' = insert_values_do_nothing ks t /\ m = select_where_in ks t').
  { intros vs. unfold resolve_values. case_bool_decide; [done|].
    intros [= <- <-]. eauto. }
  destruct v.
  - unfold upsert_simple_dim.
    destruct (sorted_values _) as [vs|]; [|done]. cbn [mbind result_bind].
    destruct vs; [apply Hnil|apply Hres].
  - unfold upsert_simple_dim_dag.
    destruct (merge_sort _ _) as [|k l]; [apply Hnil|apply Hres].
Qed.

Lemma get_set_dim_ne d d' t (T : Tables) : d <> d' -> get_dim d (set_dim d' t T) = get_dim d T.
Proof. by destruct d, d'. Qed.

(** A resolver step inside the transaction: rows are only added to its
    table, the other tables are left alone. *)
Lemma resolve_simple_inv v d values T m T' :
  resolve_simple v d values T = Ok (m, T') ->
  exists ks,
    T' = set_dim d (insert_values_do_nothing ks (get_dim d T)) T /\
    m = select_where_in ks (get_dim d T').
Proof.
  unfold resolve_simple. intros (t' & Hr & ->)%on_table_inv.
  apply resolver_effect in Hr as (ks & -> & ->). exists ks.
  by rewrite get_set_dim.
Qed.

Lemma resolve_simple_mono v d values T m T' :
  resolve_simple v d values T = Ok (m, T') ->
  (forall d' k id, get_dim d' T !! k = Some id -> get_dim d' T' !! k = Some id) /\
  (forall d', d' <> d -> get_dim d' T' = get_dim d' T) /\
  t_campaign T' = t_campaign T.
Proof.
  intros (ks & -> & _)%resolve_simple_inv. split; [|split].
  - intros d' k id Hk. destruct d, d'; simpl in *; try done; by apply insert_values_keeps.
  - intros d' Hd. by rewrite get_set_dim_ne.
  - by destruct d.
Qed.

(** The steps 3.1 and 3.2, looked at from the tables: dimension rows are
    only added; the map of the channels holds rows of the channel table,
    and the map of the campaigns is the one [upsert_dim_campaign] gives
    for it. *)
Lemma dimensions_inv v df T m Td :
  dimensions v df T = Ok (m, Td) ->
  (forall d k id, get_dim d T !! k = Some id -> get_dim d Td !! k = Some id) /\
  (forall k id, t_campaign T !! k = Some id -> t_campaign Td !! k = Some id) /\
  (forall ch cid, channel_map m !! ch = Some cid -> t_channel Td !! ch = Some cid) /\
  (exists t6,
     upsert_dim_campaign (channel_map m)
       ((fun r => (astype_str (Col.channel r), astype_str (Col.channel_campaigns r)))
          <$> df) t6
     = Ok (campaign_map m, t_campaign Td)).
Proof.
  unfold dimensions. intros Hrun.
  apply Tx_bind_inv in Hrun as (m1 & Ta & Ha & Hrun).
  apply Tx_bind_inv in Hrun as (m2 & Tb & Hb & Hrun).
  apply Tx_bind_inv in Hrun as (m3 & Tc & Hc & Hrun).
  apply Tx_bind_inv in Hrun as (m4 & Te & He & Hrun).
  apply Tx_bind_inv in Hrun as (m5 & Tf & Hf & Hrun).
  apply Tx_bind_inv in Hrun as (m6 & Tg & Hg & Hrun).
  apply Tx_bind_inv in Hrun as (m7 & Th & Hh & Hrun).
  injection Hrun as <- <-. cbn [channel_map campaign_map].
  pose proof (resolve_simple_inv _ _ _ _ _ _ Ha) as (ks & _ & Hm1).
  apply resolve_simple_mono in Ha as (Ha1 & Ha2 & Ha3).
  apply resolve_simple_mono in Hb as (Hb1 & Hb2 & Hb3).
  apply resolve_simple_mono in Hc as (Hc1 & Hc2 & Hc3).
  apply resolve_simple_mono in He as (He1 & He2 & He3).
  apply resolve_simple_mono in Hf as (Hf1 & Hf2 & Hf3).
  apply resolve_simple_mono in Hg as (Hg1 & Hg2 & Hg3).
  apply on_table_inv in Hh as (t7 & Hcamp & ->).
  assert (Hdims : forall d, get_dim d (set_campaign t7 Tg) = get_dim d Tg) by (by intros []).
  split; [|split; [|split]].
  - intros d k id Hk. rewrite Hdims. eauto 10.
  - intros k id Hk. cbn [t_campaign set_campaign].
    rewrite <- Ha3, <- Hb3, <- Hc3, <- He3, <- Hf3, <- Hg3 in Hk.
    pose proof (upsert_dim_campaign_eq m1
      ((fun r => (astype_str (Col.channel r), astype_str (Col.channel_campaigns r)))
         <$> df) (t_campaign Tg)) as Heq.
    cbv zeta in Heq. rewrite Heq in Hcamp. injection Hcamp as _ <-.
    by apply insert_values_keeps.
  - intros ch cid Hch. change (t_channel ?T) with (get_dim dim_channel T).
    rewrite Hdims, Hg2, Hf2, He2, Hc2, Hb2 by done.
    rewrite Hm1, select_where_in_lookup in Hch. by case_decide.
  - exists (t_campaign Tg). done.
Qed.

(** An upsert that went through wrote its rows over the table. *)
Lemma upsert_keyed_inv {V} (rows : list (Z * V)) t u t' :
  upsert_keyed rows t = Ok (u, t') -> t' = foldl overwrite t rows.
Proof.
  unfold upsert_keyed, upsert_overwrite.
  destruct (upsert_pages t (pages rows)) as [t1|] eqn:Hp; [|done].
  cbn. intros [= _ <-].
  pose proof (upsert_pages_fold _ _ _ Hp t) as Hf. rewrite Hp, pages_concat in Hf.
  by injection Hf.
Qed.

(** The transaction, looked at from the tables. *)
Lemma transaction_inv v dfd T u T' :
  transaction v dfd T = Ok (u, T') ->
  exists m Td rows_p rows_s rows_i,
    dimensions v dfd.*1 T = Ok (m, Td) /\
    prod_rows v (category_map m) (brand_map m) (color_map m) (size_map m) dfd.*1
    = Ok rows_p /\
    sale_rows v (campaign_map m) dfd.*1 = Ok rows_s /\
    item_rows dfd = Ok rows_i /\
    (forall d, get_dim d T' = get_dim d Td) /\
    t_campaign T' = t_campaign Td /\
    t_customer T' = foldl overwrite (t_customer T) (cust_rows (country_map m) dfd.*1) /\
    t_product T' = foldl overwrite (t_product T) rows_p /\
    t_sale T' = foldl overwrite (t_sale T) rows_s /\
    t_sale_item T' = foldl overwrite (t_sale_item T) rows_i.
Proof.
  unfold transaction. intros Hrun.
  apply Tx_bind_inv in Hrun as (m & Td & Hdim & Hrun).
  apply Tx_bind_inv in Hrun as (u1 & Tc & Hcust & Hrun).
  apply Tx_bind_inv in Hrun as (u2 & Tp & Hprod & Hrun).
  apply Tx_bind_inv in Hrun as (u3 & Ts & Hsale & Hitem).
  pose proof (dimensions_frame _ _ _ _ _ Hdim) as (Fd1 & Fd2 & Fd3 & Fd4).
  unfold customers, upsert_dim_customer in Hcust.
  apply on_table_inv in Hcust as (tc & Hc & ->).
  unfold products, upsert_dim_product in Hprod.
  apply lift_bind_inv in Hprod as (rows_p & Hrp & Hprod).
  apply on_table_inv in Hprod as (tp & Hp & ->).
  unfold sales, upsert_fact_sale in Hsale.
  apply lift_bind_inv in Hsale as (rows_s & Hrs & Hsale).
  apply on_table_inv in Hsale as (ts & Hs & ->).
  unfold items, upsert_fact_sale_item in Hitem.
  apply lift_bind_inv in Hitem as (rows_i & Hri & Hitem).
  apply on_table_inv in Hitem as (ti & Hi & ->).
  apply upsert_keyed_dated_inv in Hc as [Hc _], Hs as [Hs _].
  apply upsert_keyed_inv in Hc, Hp, Hs, Hi. simpl in Hc, Hp, Hs, Hi.
  exists m, Td, rows_p, rows_s, rows_i.
  split; [done|]. split; [done|]. split; [done|]. split; [done|].
  split; [by intros []|]. split; [done|]. simpl.
  rewrite <- Fd1, <- Fd2, <- Fd3, <- Fd4. done.
Qed.

(** A run that returns either found no line, or committed the
    transaction on the lines of the day. *)
Lemma main_return_inv v run_dt csv w o w' :
  main v run_dt csv w = (Return o, w') ->
  (filter_date run_dt csv = [] /\ w' = w) \/
  exists decs T',
    let df := filter_date run_dt csv in
    apply (fun r => percent v (cell (Col.discount_percent r))) df = Ok decs /\
    transaction v (zip df decs) (tables w) = Ok (tt, T') /\
    (zip df decs).*1 = df /\ tables w' = T'.
Proof.
  unfold main. destruct (filter_date run_dt csv) as [|r df] eqn:Hdf.
  - intros [= _ <-]. by left.
  - destruct (apply _ _) as [decs|e] eqn:Hdecs; [|done].
    destruct (transaction _ _ _) as [[[] T']|e] eqn:Htx; [|done].
    intros [= _ <-]. right. exists decs, T'. cbv zeta.
    split; [done|]. split; [done|]. split; [|done].
    by apply (zip_apply_fst _ _ _ Hdecs).
Qed.


Lemma fix_finite_raise s c e x : fix_finite s c e = Raise x -> x = Overflow.
Proof.
  unfold fix_finite. repeat case_match; try done; by intros [= <-].
Qed.

Lemma truediv_hundred_raise p x :
  truediv p hundred = Raise x -> x = InvalidOperation \/ x = Overflow.
Proof.
  destruct p as [s c e|s|s n|s n]; unfold truediv, hundred; simpl check_nans; cbv iota.
  - change (100 =? 0) with false. cbv iota.
    destruct (c =? 0); [intros ?%fix_finite_raise; by right|].
    repeat case_match; intros ?%fix_finite_raise; by right.
  - done.
  - done.
  - intros [= <-]. by left.
Qed.

(** What [percent_str_to_decimal] raises. *)
Lemma percent_raise v x e :
  percent v x = Raise e -> e = InvalidOperation \/ e = Overflow.
Proof.
  assert (Hs : percent v x = percent_str_to_decimal x).
  { destruct v; [done|apply percent_str_to_decimal_dag_eq]. }
  rewrite Hs. unfold percent_str_to_decimal.
  destruct (isna x); [done|]. case_decide; [done|].
  destruct (of_string _) as [p|]; [|intros [= <-]; by left].
  destruct (truediv p hundred) as [q|x'] eqn:Hq.
  - cbn [mbind result_bind]. unfold clamp01, lt, gt.
    destruct (is_nan q || is_nan zero); [intros [= <-]; by left|].
    cbn [mbind result_bind]. repeat case_match; try done; intros [= <-]; by left.
  - cbn [mbind result_bind]. intros [= <-]. by eapply truediv_hundred_raise.
Qed.

Lemma apply_raise_inv {A B} (f : A -> result B) l e :
  apply f l = Raise e -> exists x, x ∈ l /\ f x = Raise e.
Proof.
  induction l as [|x l IH]; simpl; [done|].
  destruct (f x) as [y|e'] eqn:Hfx.
  - destruct (apply f l) as [ys|e'] eqn:Hl; [done|].
    intros [= ->]. destruct (IH eq_refl) as (x' & ? & ?). exists x'. split; [by right|done].
  - intros [= ->]. exists x. split; [by left|done].
Qed.

Lemma apply_ok_inv {A B} (f : A -> result B) l out :
  apply f l = Ok out -> forall x, x ∈ l -> exists y, f x = Ok y.
Proof.
  revert out. induction l as [|x l IH]; intros out Hout y Hy; simpl in Hout.
  - by apply elem_of_nil in Hy.
  - destruct (f x) as [o|] eqn:Hfx; [|done].
    destruct (apply f l) as [ys|] eqn:Hl; [|done].
    apply elem_of_cons in Hy as [->|Hy]; [eauto|]. by eapply IH.
Qed.

(** X19. A discount of the day that cannot be read stops the run before a
    connection is opened: the exception is the [InvalidOperation] (or the
    [Overflow]) of [decimal], as it is, in the task too, and nothing is
    changed, whatever else the lines hold. *)
Theorem bad_discount_stops_before_connect (v : variant) (run_dt : date)
    (csv : list Col.row) (w : World) (r : Col.row) (e : exn) :
  r ∈ filter_date run_dt csv ->
  percent v (cell (Col.discount_percent r)) = Raise e ->
  exists e', main v run_dt csv w = (Raised e', w) /\
             (e' = InvalidOperation \/ e' = Overflow).
Proof.
  intros Hr He. unfold main.
  destruct (filter_date run_dt csv) as [|r0 df] eqn:Hdf; [by apply elem_of_nil in Hr|].
  destruct (apply _ _) as [decs|e'] eqn:Hdecs.
  - destruct (apply_ok_inv _ _ _ Hdecs r Hr) as [y Hy]. simpl in Hy. congruence.
  - exists e'. split; [done|].
    apply apply_raise_inv in Hdecs as (r' & _ & Hr'). by eapply percent_raise.
Qed.

End RunExtra.

Lemma bad_discount_stops_before_connect_witness :
  exists e',
    main (H := Sample.external) Dag 20250616
      [Sample.line (Some "Online") (Some "Spring Sale") (Some 7)
         (Some "ada@example.org") (Some 100) (Some "31.50") (Some 1) (Some 11)
         (Some "12.5 percent")] Sample.empty_world
    = (Raised e', Sample.empty_world) /\
    (e' = InvalidOperation \/ e' = Overflow).
Proof.
  apply (bad_discount_stops_before_connect (H := Sample.external) Dag 20250616 _
           Sample.empty_world
           (Sample.line (Some "Online") (Some "Spring Sale") (Some 7)
              (Some "ada@example.org") (Some 100) (Some "31.50") (Some 1) (Some 11)
              (Some "12.5 percent")) InvalidOperation).
  - vm_compute. apply list_elem_of_here.
  - reflexivity.
Defined.

Section CommitFacts.
Context `{External}.

(** A key is in the table once a row was written for it. *)
Lemma lookup_foldl_overwrite_is_Some {V} (rows : list (Z * V)) t k :
  k ∈ rows.*1 -> is_Some (foldl overwrite t rows !! k).
Proof.
  intros Hk. rewrite foldl_overwrite_union.
  destruct ((list_to_map (reverse rows) : gmap Z V) !! k) as [v|] eqn:Hv.
  - exists v. by apply lookup_union_Some_l.
  - apply not_elem_of_list_to_map in Hv. destruct Hv.
    by rewrite fmap_reverse, elem_of_reverse.
Qed.

(** The keys of the tuples the four loops build are ids of lines. *)
Lemma cust_rows_keys country_map (df : list Col.row) k :
  k ∈ (cust_rows country_map df).*1 <-> Some k ∈ Col.customer_id <$> df.
Proof.
  unfold cust_rows. rewrite !list_elem_of_fmap. split.
  - intros ([k' row] & -> & Hin). apply list_elem_of_omap in Hin as (r & Hr & Ht).
    apply drop_duplicates_first in Hr as (l1 & l2 & -> & _).
    unfold customer_tuple in Ht. destruct (Col.customer_id r) as [i|] eqn:Hi; [|done].
    injection Ht as <- _. exists r. split; [done|]. apply elem_of_app. right. by left.
  - intros (r & Hk & Hr).
    destruct (drop_duplicates_covers customer_columns df r Hr) as (y & Hy & Hcol).
    assert (Hi : Col.customer_id y = Some k).
    { unfold customer_columns in Hcol. by injection Hcol as -> _. }
    eexists (k, _). split; [done|]. apply list_elem_of_omap. exists y.
    split; [done|]. unfold customer_tuple. by rewrite Hi.
Qed.

Lemma prod_rows_keys v m1 m2 m3 m4 (df : list Col.row) rows k :
  prod_rows v m1 m2 m3 m4 df = Ok rows ->
  k ∈ rows.*1 -> Some k ∈ Col.product_id <$> df.
Proof.
  unfold prod_rows. intros Hrows ([k' row] & -> & Hin)%list_elem_of_fmap.
  apply (for_each_elem _ _ _ _ Hrows) in Hin as (r & Hr & Ht).
  apply drop_duplicates_first in Hr as (l1 & l2 & -> & _).
  unfold product_tuple in Ht. destruct (Col.product_id r) as [i|] eqn:Hi; [|done].
  destruct (price v (Col.cost_price r)); [|done].
  destruct (price v (Col.original_price r)); [|done].
  injection Ht as <- _. apply list_elem_of_fmap. exists r. split; [done|].
  apply elem_of_app. right. by left.
Qed.

Lemma sale_rows_keys v cm (df : list Col.row) rows k :
  sale_rows v cm df = Ok rows -> k ∈ rows.*1 -> Some k ∈ Col.sale_id <$> df.
Proof.
  unfold sale_rows. intros Hrows ([k' row] & -> & Hin)%list_elem_of_fmap.
  apply (for_each_elem _ _ _ _ Hrows) in Hin as (r & Hr & Ht).
  apply drop_duplicates_first in Hr as (l1 & l2 & -> & _).
  unfold sale_tuple in Ht. destruct (Col.sale_id r) as [i|] eqn:Hi; [|done].
  destruct (Col.customer_id r); [|done]. destruct (cm !! _); [|done].
  injection Ht as <- _. apply list_elem_of_fmap. exists r. split; [done|].
  apply elem_of_app. right. by left.
Qed.

Lemma item_rows_keys (dfd : list (Col.row * Decimal)) rows k :
  item_rows dfd = Ok rows -> k ∈ rows.*1 -> Some k ∈ Col.item_id <$> dfd.*1.
Proof.
  unfold item_rows. intros Hrows ([k' row] & -> & Hin)%list_elem_of_fmap.
  apply (for_each_elem _ _ _ _ Hrows) in Hin as ([r d] & Hr & Ht).
  apply drop_duplicates_first in Hr as (l1 & l2 & -> & _).
  unfold item_tuple in Ht. destruct (Col.item_id r) as [i|] eqn:Hi; [|done].
  destruct (Col.sale_id r); [|done]. destruct (Col.product_id r); [|done].
  destruct (int_of _); [|done]. destruct (to_float d); [|done].
  injection Ht as <- _. apply list_elem_of_fmap. exists r. split; [done|].
  rewrite fmap_app, fmap_cons. apply elem_of_app. right. by left.
Qed.

(** What a run leaves in the tables: those it found, or those of the
    transaction on the lines of the day. *)
Lemma main_tables v run_dt csv w :
  let w' := (main v run_dt csv w).2 in
  tables w' = tables w \/
  exists decs u,
    transaction v (zip (filter_date run_dt csv) decs) (tables w) = Ok (u, tables w') /\
    (zip (filter_date run_dt csv) decs).*1 = filter_date run_dt csv.
Proof.
  unfold main. destruct (filter_date run_dt csv) as [|r df] eqn:Hdf; [by left|].
  destruct (apply _ _) as [decs|e] eqn:Hdecs; [|by left].
  destruct (transaction _ _ _) as [[u T']|e] eqn:Htx; [|by left].
  right. exists decs, u. split; [done|]. by apply (zip_apply_fst _ _ _ Hdecs).
Qed.

(** X22. A run only adds to the dimensions and only writes the rows of the
    day. Whatever the run does, commit or fail, a row of a dimension
    table or of the campaign table is there afterwards with the id it had;
    and a customer, a product, a sale or an item whose id is on no line of
    the day has the row it had, or none as before. *)
Theorem run_writes_the_day_only (v : variant) (run_dt : date)
    (csv : list Col.row) (w : World) :
  let w' := (main v run_dt csv w).2 in
  let df := filter_date run_dt csv in
  (forall d k id, get_dim d (tables w) !! k = Some id ->
     get_dim d (tables w') !! k = Some id) /\
  (forall k id, t_campaign (tables w) !! k = Some id ->
     t_campaign (tables w') !! k = Some id) /\
  (forall k, Some k ∉ Col.customer_id <$> df ->
     t_customer (tables w') !! k = t_customer (tables w) !! k) /\
  (forall k, Some k ∉ Col.product_id <$> df ->
     t_product (tables w') !! k = t_product (tables w) !! k) /\
  (forall k, Some k ∉ Col.sale_id <$> df ->
     t_sale (tables w') !! k = t_sale (tables w) !! k) /\
  (forall k, Some k ∉ Col.item_id <$> df ->
     t_sale_item (tables w') !! k = t_sale_item (tables w) !! k).
Proof.
  intros w' df. pose proof (main_tables v run_dt csv w) as Hm. cbv zeta in Hm.
  destruct Hm as [Hsame|(decs & u & Htx & Hfst)].
  - fold w' in Hsame. rewrite Hsame. by repeat split.
  - fold w' df in Htx, Hfst.
    apply transaction_inv in Htx
      as (m & Td & rows_p & rows_s & rows_i & Hdim & Hrp & Hrs & Hri & Hd & Hc
          & Hcu & Hpr & Hsa & Hit).
    rewrite Hfst in *.
    apply dimensions_inv in Hdim as (Hd1 & Hd2 & _).
    split; [|split; [|split; [|split; [|split]]]].
    + intros d k id Hk. rewrite Hd. by apply Hd1.
    + intros k id Hk. rewrite Hc. by apply Hd2.
    + intros k Hk. rewrite Hcu. apply lookup_foldl_overwrite_other.
      by rewrite cust_rows_keys.
    + intros k Hk. rewrite Hpr. apply lookup_foldl_overwrite_other.
      intros Hin. apply Hk. by eapply prod_rows_keys.
    + intros k Hk. rewrite Hsa. apply lookup_foldl_overwrite_other.
      intros Hin. apply Hk. by eapply sale_rows_keys.
    + intros k Hk. rewrite Hit. apply lookup_foldl_overwrite_other.
      intros Hin. apply Hk. rewrite <- Hfst. by eapply item_rows_keys.
Qed.


(** The tuple the sale loop builds for a line it keeps. *)
Lemma sale_tuple_some v cm (r : Col.row) sale_id row :
  sale_tuple v cm r = Ok (Some (sale_id, row)) <->
  exists customer_id camp_id,
    Col.sale_id r = Some sale_id /\ Col.customer_id r = Some customer_id /\
    cm !! (astype_str (Col.channel r), astype_str (Col.channel_campaigns r))
    = Some camp_id /\
    row = (Col.sale_date r, Col.total_amount r, customer_id, camp_id).
Proof.
  unfold sale_tuple. split.
  - destruct (Col.sale_id r) as [s|]; [|done].
    destruct (Col.customer_id r) as [c|]; [|done].
    destruct (cm !! _) as [camp|]; [|done]. intros [= <- <-]. eauto 6.
  - intros (c & camp & -> & -> & -> & ->). done.
Qed.

(** X23. The sales a run writes are linked. A row of the sale table that
    the run put there or changed names a customer that has a row in the
    customer table and a campaign id that a row of the campaign table
    carries, in the tables the run leaves. *)
Theorem stored_sales_are_linked (v : variant) (run_dt : date)
    (csv : list Col.row) (w : World) sale_id sale_date total customer_id camp_id :
  let w' := (main v run_dt csv w).2 in
  t_sale (tables w') !! sale_id = Some (sale_date, total, customer_id, camp_id) ->
  t_sale (tables w) !! sale_id <> Some (sale_date, total, customer_id, camp_id) ->
  is_Some (t_customer (tables w') !! customer_id) /\
  exists channel_id campaign,
    t_campaign (tables w') !! (channel_id, campaign) = Some camp_id.
Proof.
  intros w' Hrow Hnew. pose proof (main_tables v run_dt csv w) as Hm. cbv zeta in Hm.
  fold w' in Hm. destruct Hm as [Hsame|(decs & u & Htx & Hfst)]; [by rewrite Hsame in Hrow|].
  apply transaction_inv in Htx
    as (m & Td & rows_p & rows_s & rows_i & Hdim & Hrp & Hrs & Hri & Hd & Hc
        & Hcu & Hpr & Hsa & Hit).
  rewrite Hfst in *. set (df := filter_date run_dt csv) in *.
  apply dimensions_inv in Hdim as (_ & _ & _ & t6 & Hcamp).
  rewrite Hsa in Hrow.
  destruct (decide (sale_id ∈ rows_s.*1)) as [Hin|Hout];
    [|by rewrite lookup_foldl_overwrite_other in Hrow].
  apply list_elem_of_fmap in Hin as ([k row] & -> & Hin). simpl in *.
  rewrite (lookup_foldl_overwrite _ _ _ row) in Hrow;
    [|by eapply sale_rows_keys_NoDup|done].
  injection Hrow as ->.
  apply (for_each_elem _ _ _ _ Hrs) in Hin as (r & Hr & Ht).
  apply sale_tuple_some in Ht as (c & camp & Hs & Hcust & Hmap & [= -> -> -> ->]).
  apply drop_duplicates_first in Hr as (l1 & l2 & Hdf & _).
  split.
  - rewrite Hcu. apply lookup_foldl_overwrite_is_Some, cust_rows_keys.
    apply list_elem_of_fmap. exists r. split; [done|].
    rewrite Hdf. apply elem_of_app. right. by left.
  - destruct (campaign_map_sound _ _ _ _ _ _ _ _ Hcamp Hmap) as (_ & _ & cid & _ & Hid).
    exists cid, (astype_str (Col.channel_campaigns r)). by rewrite Hc.
Qed.

(** X24. What a committed run leaves for a sale of the day. The first line
    of the day that carries a sale id, when it has a customer id, is in
    the sale table afterwards, with its date, its amount and its customer,
    and with the id of the campaign row of its own channel and campaign. *)
Theorem committed_sales_are_stored (v : variant) (run_dt : date)
    (csv : list Col.row) (w w' : World) o l1 r l2 sale_id customer_id :
  main v run_dt csv w = (Return o, w') ->
  filter_date run_dt csv = (l1 ++ r :: l2)%list ->
  Col.sale_id r = Some sale_id -> (Some sale_id ∉ Col.sale_id <$> l1) ->
  Col.customer_id r = Some customer_id ->
  exists channel_id camp_id,
    t_sale (tables w') !! sale_id
    = Some (Col.sale_date r, Col.total_amount r, customer_id, camp_id) /\
    t_channel (tables w') !! astype_str (Col.channel r) = Some channel_id /\
    t_campaign (tables w') !! (channel_id, astype_str (Col.channel_campaigns r))
    = Some camp_id.
Proof.
  intros Hmain Hdf Hs Hfirst Hcust.
  apply main_return_inv in Hmain as [[Hnil _]|(decs & T' & Hm)];
    [rewrite Hdf in Hnil; by destruct l1|].
  cbv zeta in Hm. destruct Hm as (_ & Htx & Hfst & ->).
  apply transaction_inv in Htx
    as (m & Td & rows_p & rows_s & rows_i & Hdim & Hrp & Hrs & Hri & Hd & Hc
        & Hcu & Hpr & Hsa & Hit).
  rewrite Hfst in *.
  apply dimensions_inv in Hdim as (_ & _ & Hch & t6 & Hcamp).
  assert (Hr : r ∈ drop_duplicates Col.sale_id (filter_date run_dt csv)).
  { apply drop_duplicates_first. exists l1, l2. by rewrite Hs. }
  destruct (for_each_ok_inv _ _ _ Hrs r Hr) as [o' Ho].
  assert (Hcm : exists camp_id,
            campaign_map m !! (astype_str (Col.channel r),
                               astype_str (Col.channel_campaigns r)) = Some camp_id).
  { unfold sale_tuple in Ho. rewrite Hs, Hcust in Ho.
    destruct (campaign_map m !! _) as [camp|]; [eauto|done]. }
  destruct Hcm as [camp_id Hmap].
  destruct (campaign_map_sound _ _ _ _ _ _ _ _ Hcamp Hmap) as (_ & _ & cid & Hcid & Hid).
  exists cid, camp_id. split; [|split].
  - rewrite Hsa. apply lookup_foldl_overwrite; [by eapply sale_rows_keys_NoDup|].
    apply (for_each_elem _ _ _ _ Hrs). exists r. split; [done|].
    apply sale_tuple_some. eauto 6.
  - change (t_channel T') with (get_dim dim_channel T'). rewrite Hd. by apply Hch.
  - by rewrite Hc.
Qed.

End CommitFacts.

Lemma stored_sales_are_linked_witness :
  let w' := (main (H := Sample.external) Script 20250616 Sample.two_items
               Sample.empty_world).2 in
  is_Some (t_customer (tables w') !! 7) /\
  exists channel_id campaign,
    t_campaign (tables w') !! (channel_id, campaign) = Some 1.
Proof.
  apply (stored_sales_are_linked (H := Sample.external) Script 20250616
           Sample.two_items Sample.empty_world 1 (Some 20250616)
           (Finite false 5990 (-2)) 7 1).
  - vm_compute. reflexivity.
  - intros Heq. vm_compute in Heq. discriminate.
Defined.

Lemma committed_sales_are_stored_witness :
  let r := Sample.line (Some "Online") (Some "Spring Sale") (Some 7)
             (Some "ada@example.org") (Some 100) (Some "31.50") (Some 1) (Some 11)
             (Some "12.50%") in
  let w' := (main (H := Sample.external) Script 20250616 Sample.two_items
               Sample.empty_world).2 in
  exists channel_id camp_id,
    t_sale (tables w') !! 1
    = Some (Col.sale_date r, Col.total_amount r, 7, camp_id) /\
    t_channel (tables w') !! astype_str (Col.channel r) = Some channel_id /\
    t_campaign (tables w') !! (channel_id, astype_str (Col.channel_campaigns r))
    = Some camp_id.
Proof.
  intros r w'.
  apply (committed_sales_are_stored (H := Sample.external) Script 20250616
           Sample.two_items Sample.empty_world w' PyNone [] r
           [Sample.line (Some "Online") (Some "Spring Sale") (Some 7)
              (Some "ada@example.org") (Some 101) (Some "18") (Some 1) (Some 12) None]
           1 7).
  - vm_compute. reflexivity.
  - vm_compute. reflexivity.
  - reflexivity.
  - intros Hin. by apply elem_of_nil in Hin.
  - reflexivity.
Defined.

(** ** The item lines *)

Section ItemFacts.
Context `{External}.

(** The tuple the item loop builds for a line it keeps. *)
Lemma item_tuple_some (r : Col.row) d item_id row :
  item_tuple (r, d) = Ok (Some (item_id, row)) ->
  Col.item_id r = Some item_id /\
  exists sale_id product_id quantity discount,
    Col.sale_id r = Some sale_id /\ Col.product_id r = Some product_id /\
    Col.quantity r = Some quantity /\ to_float d = Ok discount /\
    row = (sale_id, product_id, quantity, discount).
Proof.
  unfold item_tuple.
  destruct (Col.item_id r) as [i|]; [|done].
  destruct (Col.sale_id r) as [s|]; [|done].
  destruct (Col.product_id r) as [p|]; [|done].
  destruct (Col.quantity r) as [n|]; [|done]. simpl.
  destruct (to_float d) as [f|]; [|done]. simpl.
  intros [= <- <-]. split; [done|]. eauto 10.
Qed.

(** A product id of a line has a tuple among those of the product loop,
    when the loop returns. *)
Lemma prod_rows_covers v m1 m2 m3 m4 (df : list Col.row) rows r p :
  prod_rows v m1 m2 m3 m4 df = Ok rows ->
  r ∈ df -> Col.product_id r = Some p -> p ∈ rows.*1.
Proof.
  unfold prod_rows. intros Hrows Hr Hp.
  destruct (drop_duplicates_covers product_columns df r Hr) as (y & Hy & Hcol).
  assert (Hpy : Col.product_id y = Some p).
  { unfold product_columns in Hcol. injection Hcol as Hid _. congruence. }
  destruct (for_each_ok_inv _ _ _ Hrows y Hy) as [o Ho].
  unfold product_tuple in Ho. rewrite Hpy in Ho.
  destruct (price v (Col.cost_price y)) as [c|] eqn:Hc; [|done].
  destruct (price v (Col.original_price y)) as [c'|] eqn:Hc'; [|done].
  apply list_elem_of_fmap. eexists (p, _). split; [done|].
  apply (for_each_elem _ _ _ _ Hrows). exists y. split; [done|].
  unfold product_tuple. rewrite Hpy, Hc, Hc'. reflexivity.
Qed.


(** X25. The items a run writes have their product. A row of the item
    table that the run put there or changed names a product that has a
    row in the product table, in the tables the run leaves. *)
Theorem stored_items_have_products (v : variant) (run_dt : date)
    (csv : list Col.row) (w : World) item_id sale_id product_id quantity discount :
  let w' := (main v run_dt csv w).2 in
  t_sale_item (tables w') !! item_id = Some (sale_id, product_id, quantity, discount) ->
  t_sale_item (tables w) !! item_id <> Some (sale_id, product_id, quantity, discount) ->
  is_Some (t_product (tables w') !! product_id).
Proof.
  intros w' Hrow Hnew. pose proof (main_tables v run_dt csv w) as Hm. cbv zeta in Hm.
  fold w' in Hm. destruct Hm as [Hsame|(decs & u & Htx & Hfst)]; [by rewrite Hsame in Hrow|].
  apply transaction_inv in Htx
    as (m & Td & rows_p & rows_s & rows_i & Hdim & Hrp & Hrs & Hri & Hd & Hc
        & Hcu & Hpr & Hsa & Hit).
  rewrite Hit in Hrow.
  destruct (decide (item_id ∈ rows_i.*1)) as [Hin|Hout];
    [|by rewrite lookup_foldl_overwrite_other in Hrow].
  apply list_elem_of_fmap in Hin as ([k row] & -> & Hin). simpl in *.
  rewrite (lookup_foldl_overwrite _ _ _ row) in Hrow;
    [|by eapply item_rows_keys_NoDup|done].
  injection Hrow as ->.
  apply (for_each_elem _ _ _ _ Hri) in Hin as ([r d] & Hr & Ht).
  apply item_tuple_some in Ht as (_ & s & p & n & f & _ & Hp & _ & _ & [= _ -> _ _]).
  apply drop_duplicates_first in Hr as (l1 & l2 & Hdfd & _).
  rewrite Hpr. apply lookup_foldl_overwrite_is_Some.
  apply (prod_rows_covers _ _ _ _ _ _ _ r p Hrp); [|done].
  rewrite Hdfd, fmap_app, fmap_cons. apply elem_of_app. right. by left.
Qed.

(** X26. The item loop does not ask for a customer, the sale loop does.
    When the first line of a sale has no customer id, no tuple is passed
    for the sale; the items of the lines of that sale are passed all the
    same, with the id of the sale that is left out. *)
Theorem items_without_their_sale (v : variant)
    (campaign_map : gmap (string * string) Z) (dfd : list (Col.row * Decimal))
    l1 r d l2 item_id sale_id product_id quantity rows_s rows_i :
  dfd = (l1 ++ (r, d) :: l2)%list ->
  Col.item_id r = Some item_id -> (Some item_id ∉ Col.item_id <$> l1.*1) ->
  Col.sale_id r = Some sale_id -> (Some sale_id ∉ Col.sale_id <$> l1.*1) ->
  Col.product_id r = Some product_id -> Col.quantity r = Some quantity ->
  Col.customer_id r = None ->
  sale_rows v campaign_map dfd.*1 = Ok rows_s -> item_rows dfd = Ok rows_i ->
  (sale_id ∉ rows_s.*1) /\
  exists discount, (item_id, (sale_id, product_id, quantity, discount)) ∈ rows_i.
Proof.
  intros -> Hi Hi1 Hs Hs1 Hp Hq Hcust Hrs Hri. split.
  - intros ([k row] & -> & Hin)%list_elem_of_fmap. simpl in *.
    apply (for_each_elem _ _ _ _ Hrs) in Hin as (r' & Hr' & Ht).
    apply sale_tuple_some in Ht as (c & camp & Hs' & Hc' & _).
    assert (Hr : r ∈ drop_duplicates Col.sale_id (l1 ++ (r, d) :: l2)%list.*1).
    { apply drop_duplicates_first. exists (fst <$> l1), (fst <$> l2).
      split; [by rewrite fmap_app, fmap_cons|]. by rewrite Hs. }
    assert (r' = r) as ->; [|congruence].
    pose proof (drop_duplicates_NoDup Col.sale_id (l1 ++ (r, d) :: l2)%list.*1) as Hnd.
    apply (NoDup_fmap_1 _) in Hnd as Hnd'.
    apply list_elem_of_lookup in Hr' as [i Hi'], Hr as [j Hj'].
    assert (i = j) as ->; [|congruence].
    eapply NoDup_lookup; [exact Hnd| |].
    + rewrite list_lookup_fmap, Hi'. simpl. by rewrite Hs'.
    + rewrite list_lookup_fmap, Hj'. simpl. by rewrite Hs.
  - assert (Hr : (r, d) ∈ drop_duplicates (fun rd : Col.row * Decimal => Col.item_id rd.1)
                    (l1 ++ (r, d) :: l2)%list).
    { apply drop_duplicates_first. exists l1, l2. split; [done|]. simpl.
      rewrite Hi. by rewrite <- list_fmap_compose in Hi1. }
    unfold item_rows in Hri. destruct (for_each_ok_inv _ _ _ Hri _ Hr) as [o Ho].
    unfold item_tuple in Ho. rewrite Hi, Hs, Hp, Hq in Ho. simpl in Ho.
    destruct (to_float d) as [f|] eqn:Hf; [|done]. simpl in Ho.
    exists f. apply (for_each_elem _ _ _ _ Hri). exists (r, d). split; [done|].
    unfold item_tuple. rewrite Hi, Hs, Hp, Hq. simpl. by rewrite Hf.
Qed.

End ItemFacts.

Lemma stored_items_have_products_witness :
  let w' := (main (H := Sample.external) Script 20250616 Sample.two_items
               Sample.empty_world).2 in
  is_Some (t_product (tables w') !! 100).
Proof.
  apply (stored_items_have_products (H := Sample.external) Script 20250616
           Sample.two_items Sample.empty_world 11 1 100 1 (Finite false 125 (-3))).
  - vm_compute. reflexivity.
  - intros Heq. vm_compute in Heq. discriminate.
Defined.

Lemma items_without_their_sale_witness :
  let r := Sample.line (Some "Online") (Some "Spring Sale") None
             (Some "ada@example.org") (Some 100) (Some "31.50") (Some 1) (Some 11)
             (Some "12.50%") in
  (1 ∉ ([] : list (Z * @sale_row Sample.external)).*1) /\
  exists discount,
    (11, (1, 100, 1, discount))
    ∈ [(11, (1, 100, 1, (Finite false 125 (-3) : @float Sample.external)))].
Proof.
  intros r.
  apply (items_without_their_sale (H := Sample.external) Script ∅
           [(r, Finite false 125 (-3))] [] r (Finite false 125 (-3)) []
           11 1 100 1 [] [(11, (1, 100, 1, Finite false 125 (-3)))]);
    try reflexivity; by intros ?%elem_of_nil.
Defined.

